(** * PyNifly: rig reconciliation of the NIF importer and the skeleton export

    A shallow embedding of the armature code of [PyNifly/__init__.py]
    ([apply_scale_transl], [calc_obj_transform], [find_compatible_arma],
    [add_bone_to_arma], [set_bone_poses], [connect_armature]) and of
    [ExportSkel.write_parentindices] of [PyNifly/skeleton_hkx.py].

    Python floats are read as exact rationals ([Q]); rounding is not
    modelled.  Blender's [mathutils] and the helpers of [blender_defs],
    [niflytools] and [pynifly], which the two files import but do not
    define, are the fields of the class [Host].

    Of Blender the model keeps what the code relies on: a bone is found
    by its name, a matrix without an inverse raises [ValueError] when
    it is inverted, and a bone is refused as the parent of itself or of
    one of its ancestors.  Two things are left to the statements.  The
    list [bones] of an armature is in the order of creation, while
    Blender lists the bones parents first once edit mode is left: no
    property of [connect_armature] below depends on the place of a bone
    in the list.  And a pose assigned to a bone is written to that bone
    alone, while Blender moves the descendants of the bone with it: the
    properties of poses are those this does not touch.  Where the code
    divides by the scale of the importer or the exporter, the
    properties assume that it is not 0. *)

From Stdlib Require Import QArith Qabs.
From stdpp Require Import gmap strings list pretty.

Local Open Scope string_scope.
Local Open Scope list_scope.

(** ** The imported libraries *)

Class Host := {
  Matrix : Type;
  Vector : Type;
  Quaternion : Type;
  (** [Matrix.Identity(4)] *)
  Identity4 : Matrix;
  (** [a @ b] *)
  matmul : Matrix -> Matrix -> Matrix;
  (** whether the matrix has an inverse *)
  invertible : Matrix -> bool;
  (** the inverse of a matrix that has one: what [m.inverted()] returns
      and [m.invert()] leaves in [m] when they do not raise *)
  inverted : Matrix -> Matrix;
  (** [m * sf], every entry multiplied *)
  mat_scale : Matrix -> Q -> Matrix;
  (** [m.decompose()], giving [(loc, rot, scale)] *)
  decompose : Matrix -> Vector * Quaternion * Vector;
  (** [m.to_scale()] *)
  to_scale : Matrix -> Vector;
  (** [v * sf] *)
  vec_scale : Vector -> Q -> Vector;
  (** [MatrixLocRotScale(loc, rot, scale)] of [blender_defs] *)
  MatrixLocRotScale : Vector -> Quaternion -> Vector -> Matrix;
  (** [MatNearEqual(m1, m2, epsilon)] of [niflytools] *)
  MatNearEqual : Matrix -> Matrix -> Q -> bool;
  (** the default of [MatNearEqual]'s [epsilon] argument *)
  default_epsilon : Q;
  (** [game_rotations[game_axes[game]]], a pair of matrices *)
  game_rotations : string -> Matrix * Matrix;
  (** the edit matrix [create_bone(armdata, name, xf, game, scale, roll)]
      of [blender_defs] gives the bone it adds *)
  create_bone_matrix : Matrix -> string -> Q -> Matrix;
  (** [is_facebone(name)] of [blender_defs] *)
  is_facebone : string -> bool
}.

Declare Scope matrix_scope.
Delimit Scope matrix_scope with M.
Infix "@" := matmul (at level 40, left associativity) : matrix_scope.
Local Open Scope matrix_scope.

(** The three components [decompose] splits a matrix into. *)
Definition translation_of `{Host} (m : Matrix) : Vector := (decompose m).1.1.
Definition rotation_of `{Host} (m : Matrix) : Quaternion := (decompose m).1.2.
Definition scale_of `{Host} (m : Matrix) : Vector := (decompose m).2.

(** [decompose] undoes [MatrixLocRotScale] on a rotation and a scale
    that [decompose] produced: the contract of the two in exact
    arithmetic. *)
Class ExactDecompose `{Host} : Prop := {
  decompose_LocRotScale : forall (m : Matrix) (l : Vector),
    decompose (MatrixLocRotScale l (rotation_of m) (scale_of m))
    = (l, rotation_of m, scale_of m)
}.

(** ** Helper functions of [__init__.py] *)

Section Helpers.
Context `{Host}.

(** [apply_scale_xf(xf, sf)] *)
Definition apply_scale_xf (xf : Matrix) (sf : Q) : Matrix :=
  let '(loc, rot, _) := decompose (mat_scale xf sf) in
  MatrixLocRotScale loc rot (to_scale xf).

(** [apply_scale_transl(xf, sf)] *)
Definition apply_scale_transl (xf : Matrix) (sf : Q) : Matrix :=
  let '(loc, rot, scale) := decompose xf in
  MatrixLocRotScale (vec_scale loc sf) rot scale.

(** [get_pose_blender_xf(node_xf, game, scale_factor)] *)
Definition get_pose_blender_xf (node_xf : Matrix) (game : string)
    (scale_factor : Q) : Matrix :=
  apply_scale_transl node_xf scale_factor @ (game_rotations game).1.

End Helpers.

(** ** Exceptions *)

Inductive exn := KeyError | TypeError | ValueError.

Inductive result (A : Type) :=
  | Ok (a : A)
  | Raise (e : exn).
Arguments Ok {A} a.
Arguments Raise {A} e.

Definition bind {A B} (r : result A) (k : A -> result B) : result B :=
  match r with
  | Ok a => k a
  | Raise e => Raise e
  end.

Notation "x <- r ;; k" := (bind r (fun x => k))
  (at level 100, r at next level, right associativity).

(** [d[k]] on a dictionary or a Blender collection: [KeyError] when
    the key is absent. *)
Definition subscript {A} (o : option A) : result A :=
  match o with
  | Some a => Ok a
  | None => Raise KeyError
  end.

(** [m.inverted()], and [m.invert()] with the matrix it leaves as its
    value: [ValueError] when the matrix has no inverse. *)
Definition inverted_checked `{Host} (m : Matrix) : result Matrix :=
  if invertible m then Ok (inverted m) else Raise ValueError.

(** ** Data model *)

(** A node as its fields are read through a [parent] reference. *)
Record NodeRef := {
  ref_name : string;
  (** [nif_name], an attribute a node may lack *)
  ref_nif_name : option string
}.

(** A node of a loaded nif file ([pynifly.NiNode]). *)
Record NiNode `{Host} := {
  node_name : string;
  blockname : string;
  node_parent : option NodeRef;
  (** [xform_to_global.as_matrix()] *)
  xform_to_global : Matrix;
  (** whether [collision_object] is set *)
  collision_object : bool
}.

(** A loaded nif file ([pynifly.NifFile]). *)
Record NifFile `{Host} := {
  nodes : gmap string NiNode;
  rootName : string;
  game : string;
  (** [get_node_xform_to_global(name).as_matrix()] *)
  get_node_xform_to_global : string -> Matrix;
  (** [nif_name(blender_name)] and [dict.blender_name(nif_name)] *)
  dict_nif_name : string -> string;
  dict_blender_name : string -> string
}.

(** A shape of a nif file ([pynifly.NiShape]); [bind_position] and
    [pose_transform] are the values of the [blender_defs] functions of
    these names on the shape. *)
Record NiShape `{Host} := {
  shape_name : string;
  (** [type(the_shape) == NiShape] *)
  is_NiShape : bool;
  has_skin_instance : bool;
  has_global_to_skin : bool;
  (** [global_to_skin.as_matrix()] *)
  global_to_skin : Matrix;
  (** [transform.as_matrix()] *)
  transform : Matrix;
  bone_names : list string;
  (** [get_used_bones()] *)
  get_used_bones : list string;
  bind_position : string -> Matrix;
  pose_transform : string -> Matrix;
  (** [file.game] *)
  shape_game : string
}.

(** A bone of an armature.  [arma.data.edit_bones], [arma.data.bones]
    and [arma.pose.bones] are three views of the one collection of
    bones of an armature, in which a bone is found by its name: the
    bind transform is [matrix_local] (the edit bone's [matrix]), the
    pose transform is the pose bone's [matrix]. *)
Record Bone `{Host} := {
  bone_name : string;
  bone_parent : option string;
  matrix_local : Matrix;
  pose_matrix : Matrix;
  (** [bone.select] *)
  select : bool
}.

(** An armature object.  [bones] holds the bones in the order of
    their creation; the order in which Blender lists them is not
    modelled. *)
Record Armature `{Host} := {
  bones : list Bone;
  (** [eval(arma['PYN_TRANSFORM'])], when the key is set *)
  PYN_TRANSFORM : option Matrix
}.

(** A Blender object that carries a shape. *)
Record Object `{Host} := {
  obj_name : string;
  matrix_world : Matrix
}.

(** The fields of [NifImporter] that the armature code reads. *)
Record NifImporter `{Host} := {
  nif : NifFile;
  reference_skel : option NifFile;
  create_bones : bool;
  rename_bones : bool;
  rename_bones_nift : bool;
  scale : Q;
  nodes_loaded : gmap string NiShape
}.

(** ** Control flow *)

(** [for x in xs: body] where the body may [return]: [body x] is
    [Ok (Some r)] when it returns [r] and [Ok None] when it falls off
    its end; [after] is the code that follows the loop. *)
Fixpoint for_return {A R} (xs : list A) (body : A -> result (option R))
    (after : result R) : result R :=
  match xs with
  | [] => after
  | x :: xs' =>
      o <- body x ;;
      match o with
      | Some r => Ok r
      | None => for_return xs' body after
      end
  end.

(** ** The importer *)

Section Importer.
Context `{Host}.

(** [bones[name]] of a bone collection, [None] when [name] is not in it *)
Fixpoint lookup_bone (name : string) (l : list Bone) : option Bone :=
  match l with
  | [] => None
  | b :: l' =>
      if decide (bone_name b = name) then Some b else lookup_bone name l'
  end.

(** an assignment to a field of [bones[name]] *)
Fixpoint update_bone (name : string) (f : Bone -> Bone) (l : list Bone)
    : list Bone :=
  match l with
  | [] => []
  | b :: l' =>
      if decide (bone_name b = name) then f b :: l'
      else b :: update_bone name f l'
  end.

(** [name in arma.data.bones] *)
Definition has_bone (name : string) (arma : Armature) : bool :=
  match lookup_bone name (bones arma) with
  | Some _ => true
  | None => false
  end.

(** [NifImporter.nif_name] *)
Definition nif_name (self : NifImporter) (blender_name : string) : string :=
  if rename_bones self || rename_bones_nift self
  then dict_nif_name (nif self) blender_name
  else blender_name.

(** [NifImporter.blender_name] *)
Definition blender_name (self : NifImporter) (nif_name : string) : string :=
  if rename_bones self || rename_bones_nift self
  then dict_blender_name (nif self) nif_name
  else nif_name.

(** [get_bone_global_xf(arma, bone_name, game, use_pose)] *)
Definition get_bone_global_xf (arma : Armature) (bone_name : string)
    (game : string) (use_pose : bool) : result Matrix :=
  b <- subscript (lookup_bone bone_name (bones arma)) ;;
  Ok ((if use_pose then pose_matrix b else matrix_local b)
      @ (game_rotations game).2).

(** [get_bone_xform(arma, bone_name, game, preserve_hierarchy, use_pose)] *)
Definition get_bone_xform (arma : Armature) (bone_name : string)
    (game : string) (preserve_hierarchy use_pose : bool) : result Matrix :=
  bonexf <- get_bone_global_xf arma bone_name game use_pose ;;
  if preserve_hierarchy then
    b <- subscript (lookup_bone bone_name (bones arma)) ;;
    match bone_parent b with
    | Some bparent =>
        parent_xf <- get_bone_global_xf arma bparent game use_pose ;;
        parent_inv <- inverted_checked parent_xf ;;
        Ok (parent_inv @ bonexf)
    | None => Ok bonexf
    end
  else Ok bonexf.

(** *** [calc_obj_transform] *)

(** The loop over the used bones that looks for one offset from the
    reference skeleton; it carries [(offset_xf, offset_consistent)] and
    stops at the first bone whose offset differs.  A [Matrix] is always
    true in a condition, so [if not offset_xf] tests for [None]. *)
Fixpoint bind_offset_loop (skel : NifFile) (the_shape : NiShape)
    (xf : Matrix) (used : list string) (offset_xf : option Matrix)
    (offset_consistent : bool) : result (option Matrix * bool) :=
  match used with
  | [] => Ok (offset_xf, offset_consistent)
  | bn :: rest =>
      match nodes skel !! bn with
      | Some skel_bone =>
          let skel_bone_xf := xform_to_global skel_bone in
          let bindpos := bind_position the_shape bn in
          let bindinshape := xf @ bindpos in
          bindinshape_inv <- inverted_checked bindinshape ;;
          let this_offset := skel_bone_xf @ bindinshape_inv in
          match offset_xf with
          | None =>
              bind_offset_loop skel the_shape xf rest (Some this_offset) true
          | Some o =>
              if negb (MatNearEqual this_offset o default_epsilon)
              then Ok (offset_xf, false)
              else bind_offset_loop skel the_shape xf rest offset_xf
                     offset_consistent
          end
      | None =>
          bind_offset_loop skel the_shape xf rest offset_xf offset_consistent
      end
  end.

(** The loop over the used bones that looks for one pose offset; it
    carries [pose_xf] and gives [(pose_xf, same)]. *)
Fixpoint pose_offset_loop (the_shape : NiShape) (used : list string)
    (pose_xf : option Matrix) : option Matrix * bool :=
  match used with
  | [] => (pose_xf, true)
  | b :: rest =>
      let bone_xf := pose_transform the_shape b in
      match pose_xf with
      | Some p =>
          if negb (MatNearEqual p bone_xf (1 # 2))
          then (pose_xf, false)
          else pose_offset_loop the_shape rest pose_xf
      | None => pose_offset_loop the_shape rest (Some bone_xf)
      end
  end.

(** [calc_obj_transform] of a skinned shape up to the test
    [if not offset_consistent]: the values of [xf] and
    [offset_consistent] there. *)
Definition bind_offset_step (self : NifImporter) (the_shape : NiShape)
    : result (Matrix * bool) :=
  st <- (if has_global_to_skin the_shape
         then xf <- inverted_checked (global_to_skin the_shape) ;;
              Ok (xf, true)
         else Ok (Identity4, false)) ;;
  let '(xf, offset_consistent) := st in
  match create_bones self, reference_skel self with
  | true, Some skel =>
      found <- bind_offset_loop skel the_shape xf (get_used_bones the_shape)
                 None offset_consistent ;;
      let '(offset_xf, offset_consistent) := found in
      match offset_consistent, offset_xf with
      | true, Some o => Ok (xf @ o, offset_consistent)
      | _, _ => Ok (xf, offset_consistent)
      end
  | _, _ => Ok (xf, offset_consistent)
  end.

(** [NifImporter.calc_obj_transform(the_shape, scale_factor)];
    [xf @ pose_xf] raises [TypeError] when [pose_xf] is [None]. *)
Definition calc_obj_transform (self : NifImporter) (the_shape : NiShape)
    (scale_factor : Q) : result Matrix :=
  if negb (is_NiShape the_shape) || negb (has_skin_instance the_shape)
  then Ok (apply_scale_xf (transform the_shape) scale_factor)
  else
    st <- bind_offset_step self the_shape ;;
    let '(xf, offset_consistent) := st in
    xf <- (if negb offset_consistent then
             let '(pose_xf, same) :=
               pose_offset_loop the_shape (get_used_bones the_shape) None in
             if same then
               match pose_xf with
               | Some p => inverted_checked (xf @ p)
               | None => Raise TypeError
               end
             else Ok xf
           else Ok xf) ;;
    Ok (apply_scale_xf xf scale_factor).

(** *** [find_compatible_arma] *)

(** The loop over [shape.bone_names] for one armature; it carries
    [(is_ok, offset_xf, offset_consistent)] and stops at the first
    offset that differs from the one found before. *)
Fixpoint compat_loop (self : NifImporter) (obj : Object) (shape : NiShape)
    (arma : Armature) (bs : list string) (is_ok : bool)
    (offset_xf : option Matrix) (offset_consistent : bool)
    : result (bool * option Matrix * bool) :=
  match bs with
  | [] => Ok (is_ok, offset_xf, offset_consistent)
  | b :: rest =>
      let blend_name := blender_name self b in
      if has_bone blend_name arma then
        let shape_bone_xf :=
          matrix_world obj
          @ apply_scale_xf (bind_position shape b) (scale self) in
        arma_xf <- get_bone_xform arma blend_name (shape_game shape)
                     false false ;;
        if negb (MatNearEqual shape_bone_xf arma_xf default_epsilon) then
          let this_offset := shape_bone_xf @ arma_xf in
          match offset_xf with
          | Some o =>
              if negb (MatNearEqual this_offset o default_epsilon)
              then Ok (false, offset_xf, false)
              else compat_loop self obj shape arma rest false offset_xf
                     offset_consistent
          | None =>
              compat_loop self obj shape arma rest false (Some this_offset)
                offset_consistent
          end
        else compat_loop self obj shape arma rest is_ok offset_xf
               offset_consistent
      else compat_loop self obj shape arma rest is_ok offset_xf
             offset_consistent
  end.

(** The body of the loop over the armatures: every path returns. *)
Definition find_compatible_arma_body (self : NifImporter) (obj : Object)
    (shape : NiShape) (arma : Armature)
    : result (option (option Armature * option Matrix)) :=
  st <- compat_loop self obj shape arma (bone_names shape) true None true ;;
  let '(is_ok, offset_xf, offset_consistent) := st in
  if is_ok then Ok (Some (Some arma, offset_xf))
  else if false && offset_consistent then Ok (Some (Some arma, offset_xf))
  else Ok (Some (None, None)).

(** [NifImporter.find_compatible_arma(obj, armatures)] *)
Definition find_compatible_arma (self : NifImporter) (obj : Object)
    (armatures : list Armature)
    : result (option Armature * option Matrix) :=
  shape <- subscript (nodes_loaded self !! obj_name obj) ;;
  for_return armatures (find_compatible_arma_body self obj shape)
    (Ok (None, None)).

(** *** [add_bone_to_arma] and [set_bone_poses] *)

(** [NifImporter.calc_skin_transform(arma)], without an object *)
Definition calc_skin_transform (arma : Armature) : Matrix :=
  match PYN_TRANSFORM arma with
  | Some skin_xf => skin_xf
  | None => Identity4
  end.

(** Modelled from the spec: [create_bone(armdata, bone_name, xf, game,
    scale, 0)] of [blender_defs], which is not among the sources.  It
    creates the bone with the bind transform given, whole or not at
    all: a new bone without a parent at the end of the collection,
    whose pose is its rest position. *)
Definition create_bone (arma : Armature) (bone_name : string) (xf : Matrix)
    (game : string) (scale : Q) : Bone * Armature :=
  let m := create_bone_matrix xf game scale in
  let bone := {| bone_name := bone_name; bone_parent := None;
                 matrix_local := m; pose_matrix := m; select := false |} in
  (bone, {| bones := bones arma ++ [bone];
            PYN_TRANSFORM := PYN_TRANSFORM arma |}).

(** [NifImporter.add_bone_to_arma(arma, bone_name, nifname)]: the bone
    it returns and the armature it leaves.  [1/self.scale] raises
    [ZeroDivisionError] at the scale 0, where the quotient of the model
    is 0: the properties of the code that creates bones assume that
    the scale is not 0. *)
Definition add_bone_to_arma (self : NifImporter) (arma : Armature)
    (bone_name nifname : string) : option Bone * Armature :=
  if has_bone bone_name arma then (None, arma)
  else
    let ref_node :=
      if create_bones self
      then skel ← reference_skel self; nodes skel !! nifname
      else None in
    match ref_node with
    | Some node =>
        let bone_xform := xform_to_global node in
        let '(bone, arma) :=
          create_bone arma bone_name bone_xform (game (nif self))
            (scale self) in
        (Some bone, arma)
    | None =>
        let bone_xform := get_node_xform_to_global (nif self) nifname in
        let arma_xf := calc_skin_transform arma in
        let scaled_xf := apply_scale_transl arma_xf (1 / scale self) in
        let '(bone, arma) :=
          create_bone arma bone_name (scaled_xf @ bone_xform)
            (game (nif self)) (scale self) in
        (Some bone, arma)
    end.

(** [pose_bone.matrix = m] for the pose bone [blname]: the pose the
    bone has from then on.  Blender keeps the descendants of the bone
    at their places relative to it, so that their poses move with the
    bone; the model leaves them, and is exact for the bone itself and
    for every bone that is not one of its descendants. *)
Definition set_pose_matrix (blname : string) (m : Matrix) (arma : Armature)
    : Armature :=
  {| bones :=
       update_bone blname
         (fun b => {| bone_name := bone_name b; bone_parent := bone_parent b;
                      matrix_local := matrix_local b; pose_matrix := m;
                      select := select b |})
         (bones arma);
     PYN_TRANSFORM := PYN_TRANSFORM arma |}.

(** The body of the loop of [set_bone_poses]. *)
Definition set_bone_pose (self : NifImporter) (niffile : NifFile)
    (arma : Armature) (pair : string * string) : Armature :=
  let '(bn, blname) := pair in
  match nodes niffile !! bn with
  | Some nif_bone =>
      if has_bone blname arma
         && (bool_decide (blockname nif_bone = "NiNode")
             && bool_decide (node_name nif_bone ≠ rootName niffile))
      then
        let bone_xf := xform_to_global nif_bone in
        let pbmx :=
          get_pose_blender_xf bone_xf (game (nif self))
            (scale self) in
        set_pose_matrix blname pbmx arma
      else arma
  | None => arma
  end.

(** [NifImporter.set_bone_poses(arma, nif, bonelist)] *)
Definition set_bone_poses (self : NifImporter) (arma : Armature)
    (niffile : NifFile) (bonelist : list (string * string)) : Armature :=
  foldl (set_bone_pose self niffile) arma bonelist.

(** [NifImporter.set_all_bone_poses(arma, nif)] *)
Definition set_all_bone_poses (self : NifImporter) (arma : Armature)
    (niffile : NifFile) : Armature :=
  let bonelist :=
    map (fun b => (nif_name self (bone_name b), bone_name b)) (bones arma) in
  set_bone_poses self arma niffile bonelist.

(** *** [connect_armature] *)

(** Whether the bone [name] is the bone [start] or one of its
    ancestors: the walk from [start] up the parents, over [fuel] bones
    at most. *)
Fixpoint on_parent_chain (fuel : nat) (l : list Bone) (name start : string)
    : bool :=
  match fuel with
  | O => false
  | S fuel' =>
      if decide (start = name) then true
      else
        match lookup_bone start l ≫= bone_parent with
        | Some p => on_parent_chain fuel' l name p
        | None => false
        end
  end.

(** The parent of the bone [bonename] becomes [parent]. *)
Definition assign_parent (bonename : string) (parent : option string)
    (arma : Armature) : Armature :=
  {| bones :=
       update_bone bonename
         (fun b => {| bone_name := bone_name b; bone_parent := parent;
                      matrix_local := matrix_local b;
                      pose_matrix := pose_matrix b; select := select b |})
         (bones arma);
     PYN_TRANSFORM := PYN_TRANSFORM arma |}.

(** [edit_bones[bonename].parent = parent].  Blender keeps the parents
    of an armature free of cycles: its setter leaves the bone as it is
    when the parent given is the bone itself or has the bone among its
    ancestors.  In an armature without a cycle the walk up from the
    parent ends within as many bones as the armature has. *)
Definition set_parent (bonename : string) (parent : option string)
    (arma : Armature) : Armature :=
  match parent with
  | Some p =>
      if on_parent_chain (length (bones arma)) (bones arma) bonename p
      then arma
      else assign_parent bonename parent arma
  | None => assign_parent bonename None arma
  end.

(** The parent a node of [file] names, other than the root of the
    file: [p.name] and [p.nif_name] ([p.name] when the node has no such
    attribute). *)
Definition named_parent (file : NifFile) (node : NiNode)
    : option (string * string) :=
  match node_parent node with
  | Some p =>
      if bool_decide (ref_name p ≠ rootName file)
      then Some (ref_name p, default (ref_name p) (ref_nif_name p))
      else None
  | None => None
  end.

(** The search of the loop body for the parent of [bonename], first in
    the nif, then in the reference skeleton: [(parentname,
    parentnifname)], or [None] when both stay [None]. *)
Definition find_parent (self : NifImporter) (bonename : string)
    : option (string * string) :=
  let nifname := nif_name self bonename in
  let in_nif :=
    thisnode ← nodes (nif self) !! nifname;
    '(pname, pnifname) ← named_parent (nif self) thisnode;
    Some (blender_name self pname, pnifname) in
  match in_nif with
  | Some found => Some found
  | None =>
      if create_bones self && negb (is_facebone bonename) then
        skel ← reference_skel self;
        node ← nodes skel !! nifname;
        if bool_decide (nifname ≠ rootName skel) then
          '(pname, _) ← named_parent skel node;
          Some (blender_name self pname, pname)
        else None
      else None
  end.

(** The variables of the loop of [connect_armature]; [collisions]
    holds the nodes by their key in [nif.nodes]. *)
Record connect_state := {
  cs_i : nat;
  bones_to_parent : list string;
  cs_arma : Armature;
  new_bones : list (string * string);
  collisions : gset string
}.

(** One turn of the loop [while i < len(bones_to_parent)]. *)
Definition connect_step (self : NifImporter) (st : connect_state)
    : result connect_state :=
  bonename <- subscript (bones_to_parent st !! cs_i st) ;;
  arma_bone <- subscript (lookup_bone bonename (bones (cs_arma st))) ;;
  let next q a nb c :=
    {| cs_i := S (cs_i st); bones_to_parent := q; cs_arma := a;
       new_bones := nb; collisions := c |} in
  match bone_parent arma_bone with
  | Some _ =>
      Ok (next (bones_to_parent st) (cs_arma st) (new_bones st)
            (collisions st))
  | None =>
      let nifname := nif_name self bonename in
      let found :=
        match nodes (nif self) !! nifname with
        | Some thisnode =>
            if collision_object thisnode
            then {[nifname]} ∪ collisions st
            else collisions st
        | None => collisions st
        end in
      match find_parent self bonename with
      | Some (parentname, parentnifname) =>
          if bool_decide (parentname = "") then
            Ok (next (bones_to_parent st) (cs_arma st) (new_bones st)
                  found)
          else if negb (has_bone parentname (cs_arma st)) then
            let '(new_parent, arma) :=
              add_bone_to_arma self (cs_arma st) parentname parentnifname in
            Ok (next (bones_to_parent st ++ [parentname])
                  (set_parent bonename (bone_name <$> new_parent) arma)
                  (new_bones st ++ [(parentnifname, parentname)])
                  found)
          else
            parent <- subscript (lookup_bone parentname
                                   (bones (cs_arma st))) ;;
            Ok (next (bones_to_parent st)
                  (set_parent bonename (Some (bone_name parent))
                     (cs_arma st))
                  (new_bones st) found)
      | None =>
          Ok (next (bones_to_parent st) (cs_arma st) (new_bones st)
                found)
      end
  end.

(** The loop, with a bound on its turns: [None] when the bound is
    reached before the loop ends. *)
Fixpoint connect_loop (fuel : nat) (self : NifImporter) (st : connect_state)
    : option (result connect_state) :=
  if bool_decide (cs_i st < length (bones_to_parent st))%nat then
    match fuel with
    | O => None
    | S fuel' =>
        match connect_step self st with
        | Ok st' => connect_loop fuel' self st'
        | Raise e => Some (Raise e)
        end
    end
  else Some (Ok st).

(** The state in which the loop starts. *)
Definition connect_init (arma : Armature) : connect_state :=
  {| cs_i := 0; bones_to_parent := map bone_name (bones arma);
     cs_arma := arma; new_bones := []; collisions := ∅ |}.

(** A bound on the turns of the loop: each turn takes one name from the
    list, and a name is added only for a bone that a node of the nif or
    of the reference skeleton names as a parent. *)
Definition connect_fuel (self : NifImporter) (arma : Armature) : nat :=
  length (bones arma) + size (nodes (nif self))
  + from_option (fun skel => size (nodes skel)) 0%nat (reference_skel self).

(** The list [new_bones] of [connect_armature] when its loop has
    ended: the bones created, in the order of their creation, each as
    [(parentnifname, parentname)]. *)
Definition connect_armature_log (self : NifImporter) (arma : Armature)
    : option (result (list (string * string))) :=
  r ← connect_loop (connect_fuel self arma) self (connect_init arma);
  Some (st <- r ;; Ok (new_bones st)).

(** [NifImporter.connect_armature(arma)]: the armature it leaves and
    the collisions it returns; the import of the collision objects is
    outside this model. *)
Definition connect_armature (self : NifImporter) (arma : Armature)
    : option (result (Armature * gset string)) :=
  r ← connect_loop (connect_fuel self arma) self (connect_init arma);
  Some (st <- r ;;
        Ok (set_all_bone_poses self (cs_arma st) (nif self),
            collisions st)).

End Importer.

(** ** The skeleton export ([skeleton_hkx.py]) *)

(** An [hkparam] element of the XML tree: its attributes and its text. *)
Record hkparam := {
  attrib : list (string * string);
  text : string
}.

(** [range(lo, hi)] *)
Definition range (lo hi : Z) : list Z :=
  map (fun k => (lo + Z.of_nat k)%Z) (seq 0 (Z.to_nat (hi - lo))).

Section ExportSkel.
Context `{Host}.

(** [set_param(elem, attribs, txt)], for an element [elem] whose
    children are parameters: [elem] with its new child. *)
Definition set_param (elem : list hkparam) (attribs : list (string * string))
    (txt : string) : list hkparam :=
  elem ++ [{| attrib := attribs; text := txt |}].

(** [ExportSkel.write_parentindices(skel, bones)] *)
Definition write_parentindices (skel : list hkparam) (bones : list Bone)
    : list hkparam :=
  set_param skel
    [("name", "parentIndices"); ("numelements", pretty (length bones))]
    (String.concat " "
       (map pretty (range (-1) (Z.of_nat (length bones) - 1)))).

(** The list [bones] of [ExportSkel.write_skel]: the selected bones of
    the armature, in the order of [arma.pose.bones]. *)
Definition write_skel_bones (arma : Armature) : list Bone :=
  filter (fun b => select b = true) (bones arma).

(** The index in [bones] of the parent of each bone, [-1] for a bone
    whose parent is not in the list: the parent relation of the
    armature, which [write_parentindices] does not read. *)
Definition armature_parent_indices (bones : list Bone) : list Z :=
  map (fun b =>
         match bone_parent b with
         | Some p =>
             match list_find (fun b' => bone_name b' = p) bones with
             | Some (k, _) => Z.of_nat k
             | None => (-1)%Z
             end
         | None => (-1)%Z
         end) bones.

End ExportSkel.

(** The chain [-1 0 1 ... n-2]. *)
Definition fixed_chain (n : nat) : list Z :=
  map (fun k => (Z.of_nat k - 1)%Z) (seq 0 n).

(** ** A host with exact arithmetic

    The 4x4 matrices with a diagonal upper 3x3 block, a translation
    column and a corner entry, over [Q]: scalings along the axes
    composed with translations.  They are closed under every operation
    of [Host]; the rotation [decompose] finds in one is diagonal with
    entries [1], [-1] or [0], kept as three signs.  One of them has an
    inverse when no entry of its diagonal is zero. *)

Module Diag.

Definition vec : Type := Q * Q * Q.

Definition vmap (f : Q -> Q) (v : vec) : vec :=
  let '(x, y, z) := v in (f x, f y, f z).

Definition vmap2 (f : Q -> Q -> Q) (v w : vec) : vec :=
  let '(x, y, z) := v in
  let '(x', y', z') := w in (f x x', f y y', f z z').

Record dmat := {
  dg : vec;
  tr : vec;
  cw : Q
}.

Definition identity : dmat :=
  {| dg := (1, 1, 1); tr := (0, 0, 0); cw := 1 |}%Q.

(** the translation by [(x, y, z)] *)
Definition translate (x y z : Q) : dmat :=
  {| dg := (1, 1, 1)%Q; tr := (x, y, z); cw := 1%Q |}.

Definition mul (a b : dmat) : dmat :=
  {| dg := vmap2 Qmult (dg a) (dg b);
     tr := vmap2 Qplus (vmap2 Qmult (dg a) (tr b))
             (vmap (fun x => x * cw b)%Q (tr a));
     cw := (cw a * cw b)%Q |}.

Definition inv (a : dmat) : dmat :=
  {| dg := vmap Qinv (dg a);
     tr := vmap2 (fun t d => - (t / (d * cw a)))%Q (tr a) (dg a);
     cw := Qinv (cw a) |}.

Definition nonzero (x : Q) : bool := negb (Qeq_bool x 0).

Definition has_inverse (a : dmat) : bool :=
  let '(x, y, z) := dg a in
  nonzero x && nonzero y && nonzero z && nonzero (cw a).

Definition smul (a : dmat) (s : Q) : dmat :=
  {| dg := vmap (fun x => x * s)%Q (dg a);
     tr := vmap (fun x => x * s)%Q (tr a);
     cw := (cw a * s)%Q |}.

(** The columns of the 3x3 block are normalised, which leaves their
    signs as the rotation and their lengths as the scale; both are
    negated when the rotation found has a negative determinant. *)
Definition decomp (a : dmat) : vec * (Z * Z * Z) * vec :=
  let '(x, y, z) := dg a in
  let '(sx, sy, sz) := (Z.sgn (Qnum x), Z.sgn (Qnum y), Z.sgn (Qnum z)) in
  let size := (Qabs x, Qabs y, Qabs z) in
  if (sx * sy * sz <? 0)%Z
  then (tr a, (- sx, - sy, - sz)%Z, vmap Qopp size)
  else (tr a, (sx, sy, sz), size).

Definition loc_rot_scale (l : vec) (r : Z * Z * Z) (s : vec) : dmat :=
  let '(rx, ry, rz) := r in
  {| dg := vmap2 Qmult (inject_Z rx, inject_Z ry, inject_Z rz) s;
     tr := l; cw := 1%Q |}.

Definition qnear (eps a b : Q) : bool := negb (Qle_bool eps (Qabs (a - b))).

Definition vnear (eps : Q) (v w : vec) : bool :=
  let '(x, y, z) := v in
  let '(x', y', z') := w in
  qnear eps x x' && qnear eps y y' && qnear eps z z'.

(** every entry within [eps] *)
Definition near (a b : dmat) (eps : Q) : bool :=
  vnear eps (dg a) (dg b) && vnear eps (tr a) (tr b)
  && qnear eps (cw a) (cw b).

Definition host : Host := {|
  Matrix := dmat;
  Vector := vec;
  Quaternion := Z * Z * Z;
  Identity4 := identity;
  matmul := mul;
  invertible := has_inverse;
  inverted := inv;
  mat_scale := smul;
  decompose := decomp;
  to_scale := fun a => (decomp a).2;
  vec_scale := fun v s => vmap (fun x => x * s)%Q v;
  MatrixLocRotScale := loc_rot_scale;
  MatNearEqual := near;
  default_epsilon := 1 # 1000;
  game_rotations := fun _ => (identity, identity);
  create_bone_matrix := fun xf _ sf =>
    {| dg := dg xf; tr := vmap (fun x => x * sf)%Q (tr xf); cw := cw xf |};
  is_facebone := String.prefix "skin_bone_"
|}.

End Diag.

(** ** Vocabulary of the properties *)

Section Vocabulary.
Context `{Host}.

(** A bone the shape uses has the same bind position in the shape and
    in the armature, or is not in the armature: the test
    [find_compatible_arma] makes on it. *)
Definition bone_matches (self : NifImporter) (obj : Object) (shape : NiShape)
    (arma : Armature) (b : string) : bool :=
  match lookup_bone (blender_name self b) (bones arma) with
  | Some bone =>
      MatNearEqual
        (matrix_world obj
         @ apply_scale_xf (bind_position shape b) (scale self))
        (matrix_local bone @ (game_rotations (shape_game shape)).2)
        default_epsilon
  | None => true
  end.

(** The pose transform of the bone [name]. *)
Definition pose_of (name : string) (arma : Armature) : option Matrix :=
  pose_matrix <$> lookup_bone name (bones arma).

(** The bind transform of the bone [name]. *)
Definition bind_of (name : string) (arma : Armature) : option Matrix :=
  matrix_local <$> lookup_bone name (bones arma).

(** The rig names of the parents that the nodes of a file name. *)
Definition file_parents (self : NifImporter) (file : NifFile) : list string :=
  omap (fun node =>
          (fun p => blender_name self p.1) <$> named_parent file node)
    (map_to_list (nodes file)).*2.

(** The rig names under which [connect_armature] can create a bone:
    those of the parents named in the nif and in the reference
    skeleton. *)
Definition parent_candidates (self : NifImporter) : list string :=
  file_parents self (nif self)
  ++ from_option (file_parents self) [] (reference_skel self).

(** How many of them the armature lacks. *)
Definition missing_parents (self : NifImporter) (arma : Armature) : nat :=
  length (filter (fun c => c ∉ map bone_name (bones arma))
            (parent_candidates self)).

(** The turns the loop of [connect_armature] has left at most. *)
Definition turns_left (self : NifImporter) (st : connect_state) : nat :=
  length (bones_to_parent st) - cs_i st + missing_parents self (cs_arma st).

(** Every name of the work list is a bone of the armature. *)
Definition queue_in_rig (st : connect_state) : Prop :=
  Forall (fun name => name ∈ map bone_name (bones (cs_arma st)))
    (bones_to_parent st).

(** What a turn of the loop does to the work list and the armature: it
    leaves both, or gives the bone at hand a parent the armature has,
    or creates the parent at the end of the collection, puts its name
    at the end of the work list and gives it to the bone at hand. *)
Inductive walk_step (self : NifImporter) (st st' : connect_state) : Prop :=
  | walk_keep :
      bones_to_parent st' = bones_to_parent st ->
      cs_arma st' = cs_arma st ->
      walk_step self st st'
  | walk_link (bonename parentname : string) (arma_bone : Bone) :
      lookup_bone bonename (bones (cs_arma st)) = Some arma_bone ->
      bone_parent arma_bone = None ->
      has_bone parentname (cs_arma st) = true ->
      bones_to_parent st' = bones_to_parent st ->
      cs_arma st' = set_parent bonename (Some parentname) (cs_arma st) ->
      walk_step self st st'
  | walk_create (bonename parentname : string) (arma_bone : Bone)
      (xf : Matrix) :
      lookup_bone bonename (bones (cs_arma st)) = Some arma_bone ->
      bone_parent arma_bone = None ->
      has_bone parentname (cs_arma st) = false ->
      parentname ∈ parent_candidates self ->
      bones_to_parent st' = bones_to_parent st ++ [parentname] ->
      cs_arma st'
      = set_parent bonename (Some parentname)
          (create_bone (cs_arma st) parentname xf (game (nif self))
             (scale self)).2 ->
      walk_step self st st'.

End Vocabulary.

(** ** More of the importer *)

Section ImporterMore.
Context `{Host}.

(** The body of the loop of [add_bones_to_arma], on the armature and
    the list [new_bones]. *)
Definition add_bones_turn (self : NifImporter) (niffile : NifFile)
    (st : Armature * list (string * string)) (bone_nif_name : string)
    : Armature * list (string * string) :=
  let '(arma, new_bones) := st in
  if bool_decide (bone_nif_name ≠ rootName niffile) then
    let name := blender_name self bone_nif_name in
    ((add_bone_to_arma self arma name bone_nif_name).2,
     new_bones ++ [(bone_nif_name, name)])
  else (arma, new_bones).

(** [NifImporter.add_bones_to_arma(arma, nif, bone_names)].  The call
    of [set_bone_poses] comes before edit mode is left: a bone created
    in the loop is no pose bone yet, so the test
    [blname in arma.pose.bones] passes for the bones the armature had
    on entry only, and the others keep the pose they were created
    with. *)
Definition add_bones_to_arma (self : NifImporter) (arma : Armature)
    (niffile : NifFile) (bone_names : list string) : Armature :=
  let '(arma', new_bones) :=
    foldl (add_bones_turn self niffile) (arma, []) bone_names in
  set_bone_poses self arma' niffile
    (filter (fun pair => has_bone pair.2 arma = true) new_bones).

(** The search of [connect_armature] finds no parent to give the bone
    [name]: none at all, or one with an empty name. *)
Definition no_parent_found (self : NifImporter) (name : string) : Prop :=
  match find_parent self name with
  | Some (parentname, _) => parentname = ""
  | None => True
  end.

(** The search finds a parent for the bone [name] that the armature
    has and that Blender refuses: the bone itself, or a bone that has
    it among its ancestors. *)
Definition parent_refused (self : NifImporter) (arma : Armature)
    (name : string) : Prop :=
  exists parentname parentnifname,
    find_parent self name = Some (parentname, parentnifname)
    /\ has_bone parentname arma = true
    /\ on_parent_chain (length (bones arma)) (bones arma) name parentname
       = true.

(** The bone [name] of the armature has a parent, or there is none to
    give it, or Blender refuses the one there is. *)
Definition settled (self : NifImporter) (arma : Armature) (name : string)
    : Prop :=
  forall b, lookup_bone name (bones arma) = Some b ->
            bone_parent b = None ->
            no_parent_found self name \/ parent_refused self arma name.

(** The armature [arma'] has the bones of [arma], with the parents
    they have in [arma]. *)
Definition grown (arma arma' : Armature) : Prop :=
  (forall n q, lookup_bone n (bones arma) ≫= bone_parent = Some q ->
               lookup_bone n (bones arma') ≫= bone_parent = Some q)
  /\ (forall n, has_bone n arma = true -> has_bone n arma' = true)
  /\ (length (bones arma) <= length (bones arma'))%nat.

(** What [connect_armature] and [set_bone_poses] keep of a bone: all
    but its pose and, for a bone without one, its parent. *)
Definition kept (b b' : Bone) : Prop :=
  bone_name b' = bone_name b
  /\ matrix_local b' = matrix_local b
  /\ select b' = select b
  /\ (bone_parent b <> None -> bone_parent b' = bone_parent b).

(** All of a bone but its pose. *)
Definition rest_of (b : Bone) : string * option string * Matrix * bool :=
  (bone_name b, bone_parent b, matrix_local b, select b).

End ImporterMore.

(** ** Parenting a shape to an armature *)

(** The warnings the importer adds. *)
Inductive warning :=
  | TransformsDiffer
  | NoReferenceSkeleton
  | NotCompatible.

Section ParentArmature.
Context `{Host}.

(** [shape.get_shape_skin_to_bone(b).as_matrix()] of [pynifly], which
    is not among the sources. *)
Variable get_shape_skin_to_bone : NiShape -> string -> Matrix.

(** [is_compatible_skeleton(skin_xf, shape, skel)]; the loop returns
    [False] at the first bone of the skeleton that is elsewhere. *)
Definition is_compatible_skeleton (skin_xf : Matrix) (shape : NiShape)
    (skel : NifFile) : bool :=
  forallb
    (fun b =>
       match nodes skel !! b with
       | Some node =>
           let m1 := skin_xf @ inverted (get_shape_skin_to_bone shape b) in
           let m2 := xform_to_global node in
           MatNearEqual m1 m2 (1 # 100)
       | None => true
       end)
    (bone_names shape).

(** [NifImporter.calc_skin_transform(arma, obj)] with an object: the
    transform it returns, the armature it leaves and the warnings it
    adds.  An [eval] of the property that raises is outside the model;
    the code then warns and returns the transform of the object as
    well. *)
Definition calc_skin_transform_obj (arma : Armature) (obj : Object)
    : Matrix * Armature * list warning :=
  match PYN_TRANSFORM arma with
  | None =>
      let skin_xf := matrix_world obj in
      (skin_xf, {| bones := bones arma; PYN_TRANSFORM := Some skin_xf |}, [])
  | Some arma_xf =>
      let skin_xf := matrix_world obj in
      (skin_xf, arma,
       if negb (MatNearEqual arma_xf skin_xf default_epsilon)
       then [TransformsDiffer] else [])
  end.

(** [NifImporter.make_armature]: a new armature without bones. *)
Definition make_armature : Armature :=
  {| bones := []; PYN_TRANSFORM := None |}.

(** The body of the loop of [set_parent_arma] over the bones of the
    shape, on the armature and the list [new_bones]. *)
Definition parent_arma_turn (self : NifImporter) (nif_shape : NiShape)
    (skel : NifFile) (skin_xf : Matrix) (ref_compat : bool)
    (st : Armature * list (string * string)) (bn : string)
    : Armature * list (string * string) :=
  let '(arma, new_bones) := st in
  let blname := blender_name self bn in
  if negb (has_bone blname arma) then
    let xf :=
      match (if create_bones self then nodes skel !! bn else None) with
      | Some node =>
          if ref_compat then xform_to_global node
          else skin_xf @ inverted (get_shape_skin_to_bone nif_shape bn)
      | None => skin_xf @ inverted (get_shape_skin_to_bone nif_shape bn)
      end in
    ((create_bone arma blname xf (game (nif self)) (scale self)).2,
     new_bones ++ [(bn, blname)])
  else (arma, new_bones).

(** [NifImporter.set_parent_arma(arma, obj, nif_shape, s2a_xf)]: the
    armature it returns, the object as it leaves it and the warnings
    it adds, for a call that returns.  The scale of the importer must
    not be 0: [1/self.scale] raises [ZeroDivisionError] then, which the
    properties exclude by a hypothesis.  A matrix without an inverse
    makes the call raise [ValueError] where it is inverted; what is
    written in this model is the state a call leaves that returns. *)
Definition set_parent_arma (self : NifImporter) (arma : option Armature)
    (obj : Object) (nif_shape : NiShape) (s2a_xf : option Matrix)
    : Armature * Object * list warning :=
  let arma := default make_armature arma in
  let '(unscaled_skin_xf, arma, warned) := calc_skin_transform_obj arma obj in
  let unscaled_skin_xf :=
    match s2a_xf with
    | Some s2a => inverted unscaled_skin_xf @ s2a
    | None => unscaled_skin_xf
    end in
  let obj := {| obj_name := obj_name obj; matrix_world := unscaled_skin_xf |} in
  let skin_xf := apply_scale_transl unscaled_skin_xf (1 / scale self) in
  match reference_skel self with
  | None =>
      (set_bone_poses self arma (nif self) [], obj,
       warned ++ [NoReferenceSkeleton])
  | Some skel =>
      let ref_compat := is_compatible_skeleton skin_xf nif_shape skel in
      let '(arma, new_bones) :=
        foldl (parent_arma_turn self nif_shape skel skin_xf ref_compat)
          (arma, []) (bone_names nif_shape) in
      (set_bone_poses self arma (nif self) new_bones, obj,
       warned ++ (if negb ref_compat then [NotCompatible] else []))
  end.

End ParentArmature.

(** ** The exporter *)

Section Exporter.
Context `{Host}.

(** A [TransformBuf] of [pynifly]: a translation, a rotation (kept as
    the quaternion whose matrix is stored) and a scale. *)
Record TransformBuf := {
  tb_translation : Vector;
  tb_rotation : Quaternion;
  tb_scale : Vector
}.

(** [pack_xf_to_buf(xf, scale_factor)]; [xf_loc / scale_factor] is the
    product with the inverse of the factor.  The factor must not be 0:
    the division of a vector by 0 raises [ZeroDivisionError], which the
    properties of the export exclude by a hypothesis. *)
Definition pack_xf_to_buf (xf : Matrix) (scale_factor : Q) : TransformBuf :=
  let '(xf_loc, xf_rot, xf_scale) := decompose xf in
  {| tb_translation := vec_scale xf_loc (/ scale_factor);
     tb_rotation := xf_rot; tb_scale := xf_scale |}.

(** The fields of [NifExporter] that the export of bones reads;
    [ex_dict_nif_name] is [self.nif.nif_name]. *)
Record NifExporter := {
  ex_game : string;
  ex_rename_bones : bool;
  ex_rename_bones_nift : bool;
  preserve_hierarchy : bool;
  export_pose : bool;
  ex_scale : Q;
  ex_dict_nif_name : string -> string
}.

(** [NifExporter.nif_name] *)
Definition ex_nif_name (self : NifExporter) (blender_name : string) : string :=
  if ex_rename_bones self || ex_rename_bones_nift self
  then ex_dict_nif_name self blender_name
  else blender_name.

(** What [write_bone] adds to the nif: a bone of the skin of the shape
    ([shape.add_bone]) or a node ([nif.add_node]), with its name, its
    transform and the name of its parent. *)
Inductive written_kind := SkinBone | PlainNode.

Record written_bone := {
  wb_kind : written_kind;
  wb_name : string;
  wb_xf : TransformBuf;
  wb_parent : option string
}.

(** The state [write_bone] works on: [self.writtenbones] and what has
    been added to the nif, in the order of the calls. *)
Record export_state := {
  writtenbones : gmap string string;
  written : list written_bone
}.

(** [NifExporter.write_bone(shape, arma, bone_name, bones_to_write)],
    with a bound on the depth of the recursion to the parents: [None]
    when the bound is reached.  [shape] tells whether a shape is
    given. *)
Fixpoint write_bone (fuel : nat) (self : NifExporter) (st : export_state)
    (shape : bool) (arma : Armature) (bone_name : string)
    (bones_to_write : list string)
    : option (result (option string * export_state)) :=
  match fuel with
  | O => None
  | S fuel' =>
      match writtenbones st !! bone_name with
      | Some n => Some (Ok (Some n, st))
      | None =>
          if negb (bool_decide (bone_name ∈ bones_to_write))
             && negb (preserve_hierarchy self)
          then Some (Ok (None, st))
          else
            match lookup_bone bone_name (bones arma) with
            | None => Some (Raise KeyError)
            | Some b =>
                let from_parent :=
                  match bone_parent b with
                  | Some p =>
                      write_bone fuel' self st shape arma p bones_to_write
                  | None => Some (Ok (None, st))
                  end in
                match from_parent with
                | None => None
                | Some (Raise e) => Some (Raise e)
                | Some (Ok (parname, st)) =>
                    let nifname := ex_nif_name self bone_name in
                    match get_bone_xform arma bone_name (ex_game self)
                            (preserve_hierarchy self) (export_pose self) with
                    | Raise e => Some (Raise e)
                    | Ok xf =>
                        let tb := pack_xf_to_buf xf (ex_scale self) in
                        let out :=
                          if bool_decide (bone_name ∈ bones_to_write) && shape
                          then
                            written st
                            ++ [{| wb_kind := SkinBone; wb_name := nifname;
                                   wb_xf := tb;
                                   wb_parent :=
                                     if preserve_hierarchy self
                                     then parname else None |}]
                          else if preserve_hierarchy self
                          then
                            written st
                            ++ [{| wb_kind := PlainNode; wb_name := nifname;
                                   wb_xf := tb; wb_parent := parname |}]
                          else written st in
                        Some (Ok (Some nifname,
                                  {| writtenbones :=
                                       <[bone_name := nifname]>
                                         (writtenbones st);
                                     written := out |}))
                    end
                end
            end
      end
  end.

(** [NifExporter.export_armature(arma)], from the state given: the
    loop over the bones of the armature. *)
Fixpoint export_bones (fuel : nat) (self : NifExporter) (st : export_state)
    (arma : Armature) (todo : list Bone) : option (result export_state) :=
  match todo with
  | [] => Some (Ok st)
  | b :: todo' =>
      match write_bone fuel self st false arma (bone_name b)
              (map bone_name (bones arma)) with
      | None => None
      | Some (Raise e) => Some (Raise e)
      | Some (Ok (_, st')) => export_bones fuel self st' arma todo'
      end
  end.

Definition export_armature (fuel : nat) (self : NifExporter)
    (st : export_state) (arma : Armature) : option (result export_state) :=
  export_bones fuel self st arma (bones arma).

(** A rank of the names under which every bone of the armature has its
    parent in the armature, at a lower rank: the parents form no
    cycle. *)
Definition ranked (rank : string -> nat) (arma : Armature) : Prop :=
  forall b p,
    b ∈ bones arma -> bone_parent b = Some p ->
    is_Some (lookup_bone p (bones arma))
    /\ (rank p < rank (bone_name b))%nat.

(** Parents first: whatever has a parent comes after an entry of the
    parent's name, and every name in [writtenbones] has an entry. *)
Definition parents_first (st : export_state) : Prop :=
  (forall i e p,
     written st !! i = Some e -> wb_parent e = Some p ->
     exists j e', (j < i)%nat /\ written st !! j = Some e' /\ wb_name e' = p)
  /\ (forall k n,
        writtenbones st !! k = Some n ->
        exists e, e ∈ written st /\ wb_name e = n).

(** What the export of an armature keeps when the hierarchy is
    preserved: parents come first, there are as many entries as names
    recorded, and every name recorded is the nif name of a bone of the
    armature, which has an entry of its kind under the nif name of its
    parent. *)
Definition recorded (self : NifExporter) (arma : Armature) (shape : bool)
    (bones_to_write : list string) (st : export_state) : Prop :=
  parents_first st
  /\ length (written st) = size (writtenbones st)
  /\ forall k n,
       writtenbones st !! k = Some n ->
       n = ex_nif_name self k
       /\ exists b e,
            lookup_bone k (bones arma) = Some b
            /\ e ∈ written st /\ wb_name e = n
            /\ wb_kind e
               = (if bool_decide (k ∈ bones_to_write) && shape
                  then SkinBone else PlainNode)
            /\ wb_parent e = ex_nif_name self <$> bone_parent b.

(** The first loop of [export_skin], after [self.writtenbones = {}]:
    [write_bone] for the shape on every bone that has weights; [keys]
    is [weights_by_bone.keys()]. *)
Fixpoint write_skin_bones (fuel : nat) (self : NifExporter)
    (st : export_state) (arma : Armature) (keys todo : list string)
    : option (result export_state) :=
  match todo with
  | [] => Some (Ok st)
  | k :: todo' =>
      match write_bone fuel self st true arma k keys with
      | None => None
      | Some (Raise e) => Some (Raise e)
      | Some (Ok (_, st')) => write_skin_bones fuel self st' arma keys todo'
      end
  end.

(** The skin-to-bone transform that the second loop of [export_skin]
    sets for a bone. *)
Definition skin_to_bone_xform (self : NifExporter) (obj : Object)
    (arma : Armature) (bone_name : string) : result TransformBuf :=
  if export_pose self then
    xf <- get_bone_xform arma bone_name (ex_game self) false false ;;
    world_inv <- inverted_checked (matrix_world obj) ;;
    let xfoffs := world_inv @ xf in
    xfinv <- inverted_checked xfoffs ;;
    Ok (pack_xf_to_buf xfinv (ex_scale self))
  else
    xf <- get_bone_xform arma bone_name (ex_game self) false
            (export_pose self) ;;
    world_inv <- inverted_checked (matrix_world obj) ;;
    let xfoffs := world_inv @ xf in
    xfinv <- inverted_checked xfoffs ;;
    Ok (pack_xf_to_buf xfinv (ex_scale self)).

(** The entry of a shape for the bone [k] when the hierarchy is not
    preserved: a bone of the skin under the nif name of [k], without a
    parent, at the global transform of the bone. *)
Definition skin_bone_for (self : NifExporter) (arma : Armature) (k : string)
    (e : written_bone) : Prop :=
  wb_kind e = SkinBone
  /\ wb_name e = ex_nif_name self k
  /\ wb_parent e = None
  /\ exists b,
       lookup_bone k (bones arma) = Some b
       /\ wb_xf e
          = pack_xf_to_buf
              ((if export_pose self then pose_matrix b else matrix_local b)
               @ (game_rotations (ex_game self)).2)
              (ex_scale self).

(** What the first loop of [export_skin] keeps when the hierarchy is
    not preserved: the bones recorded, in the order [order] in which
    they were written, are bones with weights, and the entries added to
    [w0] are their bones of the skin, in that order. *)
Definition skin_recorded (self : NifExporter) (arma : Armature)
    (keys : list string) (w0 : list written_bone) (order : list string)
    (st : export_state) : Prop :=
  NoDup order
  /\ (forall k, k ∈ order <-> is_Some (writtenbones st !! k))
  /\ (forall k, k ∈ order -> k ∈ keys)
  /\ exists new,
       written st = w0 ++ new
       /\ Forall2 (skin_bone_for self arma) order new.

End Exporter.

(** ** More of the skeleton export *)

Section ExportSkelMore.
Context `{Host}.

(** [b.parent in bones], for bones of one armature *)
Definition parent_in (bones : list Bone) (b : Bone) : bool :=
  match bone_parent b with
  | Some p => bool_decide (p ∈ map bone_name bones)
  | None => false
  end.

(** [ExportSkel.find_root(bones)]; [None] is the [IndexError] of
    [bones[0]] on an empty list. *)
Definition find_root (bones : list Bone) : option Bone :=
  match find (fun b => negb (parent_in bones b)) bones with
  | Some b => Some b
  | None => bones !! 0%nat
  end.

End ExportSkelMore.

(** ** Vertex weights for export *)

(** [sorted(l, reverse=True, key=lambda item: item[1])]: heaviest
    first, pairs of one weight in the order they had. *)
Fixpoint insert_desc (x : string * Q) (l : list (string * Q))
    : list (string * Q) :=
  match l with
  | [] => [x]
  | y :: l' =>
      if Qle_bool y.2 x.2 then x :: y :: l' else y :: insert_desc x l'
  end.

Definition sorted_desc (l : list (string * Q)) : list (string * Q) :=
  foldr insert_desc [] l.

(** [dict(l)] on a list of pairs: a later pair replaces an earlier one
    of the same key. *)
Definition dict_of_pairs (l : list (string * Q)) : gmap string Q :=
  list_to_map (reverse l).

(** heaviest first *)
Fixpoint heaviest_first (l : list (string * Q)) : Prop :=
  match l with
  | [] => True
  | x :: l' => Forall (fun y => (y.2 <= x.2)%Q) l' /\ heaviest_first l'
  end.

Section Weights.
Context `{Host}.

(** [trim_to_four(weights, arma)] *)
Definition trim_to_four (weights : list (string * Q)) (arma : option Armature)
    : gmap string Q :=
  match arma with
  | Some arma =>
      let lst := filter (fun p => has_bone p.1 arma = true) weights in
      let notlst := filter (fun p => has_bone p.1 arma <> true) weights in
      let sd := take 4 (sorted_desc lst) in
      dict_of_pairs (sd ++ notlst)
  | None => dict_of_pairs weights
  end.

End Weights.

(** ** Sample files, shapes and rigs over the exact host *)

Module Sample.
#[local] Existing Instance Diag.host.

(** A [NiNode] block at height [z] under the parent named. *)
Definition node (name : string) (parent : option string) (z : Q) : NiNode :=
  {| node_name := name; blockname := "NiNode";
     node_parent :=
       (fun p => {| ref_name := p; ref_nif_name := None |}) <$> parent;
     xform_to_global := Diag.translate 0 0 z;
     collision_object := false |}.

(** A file of the nodes listed, without renaming of bones. *)
Definition file (l : list NiNode) (root : string) : NifFile :=
  let m : gmap string NiNode :=
    list_to_map (map (fun n => (node_name n, n)) l) in
  {| nodes := m; rootName := root; game := "SKYRIM";
     get_node_xform_to_global := fun name =>
       from_option xform_to_global Diag.identity (m !! name);
     dict_nif_name := fun name => name;
     dict_blender_name := fun name => name |}.

(** A bone without a parent, in rest and pose at height [z]. *)
Definition bone (name : string) (z : Q) : Bone :=
  {| bone_name := name; bone_parent := None;
     matrix_local := Diag.translate 0 0 z;
     pose_matrix := Diag.translate 0 0 z; select := true |}.

(** The bone [create_bone] makes at height [z]. *)
Definition created (name : string) (z : Q) : Bone :=
  {| bone_name := name; bone_parent := None;
     matrix_local := Diag.translate 0 0 z;
     pose_matrix := Diag.translate 0 0 z; select := false |}.

Definition rig (l : list Bone) : Armature :=
  {| bones := l; PYN_TRANSFORM := None |}.

(** An importer at scale 1 that creates bones. *)
Definition importer (f : NifFile) (skel : option NifFile)
    (shapes : gmap string NiShape) : NifImporter :=
  {| nif := f; reference_skel := skel; create_bones := true;
     rename_bones := false; rename_bones_nift := false; scale := 1;
     nodes_loaded := shapes |}.

(** A skinned shape on the bones listed with their bind heights. *)
Definition skinned (gts : option Matrix) (binds : list (string * Q))
    : NiShape :=
  {| shape_name := "Body"; is_NiShape := true; has_skin_instance := true;
     has_global_to_skin := bool_decide (is_Some gts);
     global_to_skin := default Diag.identity gts;
     transform := Diag.identity;
     bone_names := binds.*1; get_used_bones := binds.*1;
     bind_position := fun b =>
       Diag.translate 0 0
         (default 0%Q ((list_to_map binds : gmap string Q) !! b));
     pose_transform := fun _ => Diag.identity;
     shape_game := "SKYRIM" |}.

(** The skeleton of the scenario of the specification: [Spine] at
    height 10 and [Neck] at height 15. *)
Definition skeleton : NifFile :=
  file [node "Scene Root" None 0; node "Spine" (Some "Scene Root") 10;
        node "Neck" (Some "Spine") 15] "Scene Root".

(** *** Matching a shape and rigs *)

(** A shape that binds [Spine] at height 8. *)
Definition body : NiShape := skinned None [("Spine", 8%Q)].

Definition body_obj : Object :=
  {| obj_name := "Body"; matrix_world := Diag.identity |}.

Definition matcher : NifImporter :=
  importer skeleton None {[ "Body" := body ]}.

(** A rig with [Spine] at height 10, two above the bind of the shape,
    and one with [Spine] at height 8. *)
Definition high_rig : Armature := rig [bone "Spine" 10].
Definition fitting_rig : Armature := rig [bone "Spine" 8].

(** *** Placing a shape *)

(** A shape with a global-to-skin transform that binds [Spine] and
    [Neck] three below the skeleton, seen through that transform. *)
Definition head : NiShape :=
  skinned (Some (Diag.translate 0 0 1)) [("Spine", 8%Q); ("Neck", 13%Q)].

Definition extender : NifImporter := importer skeleton (Some skeleton) ∅.
Definition plain : NifImporter := importer skeleton None ∅.

(** A skinned shape without a global-to-skin transform that uses no
    bone. *)
Definition boneless : NiShape := skinned None [].

(** *** Posing *)

(** A rig with a bone for the root of the file. *)
Definition rooted_rig : Armature := rig [bone "Scene Root" 1; bone "Spine" 1].

(** *** Walking a hierarchy *)

Definition arm_file : NifFile :=
  file [node "Scene Root" None 0; node "Upperarm" (Some "Scene Root") 3;
        node "Forearm" (Some "Upperarm") 2; node "Hand" (Some "Forearm") 1]
    "Scene Root".

Definition arm_importer : NifImporter := importer arm_file None ∅.
Definition hand_rig : Armature := rig [bone "Hand" 1].

(** The rig after the walk. *)
Definition arm_rig : Armature :=
  match connect_armature arm_importer hand_rig with
  | Some (Ok (arma, _)) => arma
  | _ => hand_rig
  end.

(** A file in which [A] and [B] are each the parent of the other. *)
Definition cyclic_file : NifFile :=
  file [node "Scene Root" None 0; node "A" (Some "B") 1;
        node "B" (Some "A") 2] "Scene Root".

Definition cyclic_importer : NifImporter := importer cyclic_file None ∅.
Definition a_rig : Armature := rig [bone "A" 1].

(** The rig after the walk. *)
Definition cyclic_rig : Armature :=
  match connect_armature cyclic_importer a_rig with
  | Some (Ok (arma, _)) => arma
  | _ => a_rig
  end.

End Sample.

(** ** Samples for the export and the rest of the import *)

Module Trial.
#[local] Existing Instance Diag.host.
Import Sample.

(** The node with a collision object. *)
Definition with_collision (n : NiNode) : NiNode :=
  {| node_name := node_name n; blockname := blockname n;
     node_parent := node_parent n; xform_to_global := xform_to_global n;
     collision_object := true |}.

(** A file whose [Forearm] has a collision object. *)
Definition guarded_file : NifFile :=
  file [node "Scene Root" None 0; node "Upperarm" (Some "Scene Root") 3;
        with_collision (node "Forearm" (Some "Upperarm") 2)] "Scene Root".

Definition guarded_importer : NifImporter := importer guarded_file None ∅.
Definition forearm_rig : Armature := rig [bone "Forearm" 2].

(** The rig after the walk. *)
Definition guarded_rig : Armature :=
  match connect_armature guarded_importer forearm_rig with
  | Some (Ok (arma, _)) => arma
  | _ => forearm_rig
  end.

(** A skinned shape without a global-to-skin transform that uses
    [Spine] and [Neck]. *)
Definition torso : NiShape := skinned None [("Spine", 8%Q); ("Neck", 13%Q)].

(** The shape with the pose transforms given. *)
Definition posed (s : NiShape) (pose : string -> Matrix) : NiShape :=
  {| shape_name := shape_name s; is_NiShape := is_NiShape s;
     has_skin_instance := has_skin_instance s;
     has_global_to_skin := has_global_to_skin s;
     global_to_skin := global_to_skin s; transform := transform s;
     bone_names := bone_names s; get_used_bones := get_used_bones s;
     bind_position := bind_position s; pose_transform := pose;
     shape_game := shape_game s |}.

(** The torso with both bones posed five up, and with [Neck] posed
    four above [Spine]. *)
Definition lifted_torso : NiShape :=
  posed torso (fun _ => Diag.translate 0 0 5).

Definition bent_torso : NiShape :=
  posed torso (fun b => if String.eqb b "Spine" then Diag.translate 0 0 5
                        else Diag.translate 0 0 9).

(** A matrix without an inverse, and a shape that has it as its
    global-to-skin transform. *)
Definition flat : Matrix :=
  {| Diag.dg := (1, 1, 0)%Q; Diag.tr := (0, 0, 0)%Q; Diag.cw := 1%Q |}.

Definition flattened : NiShape := skinned (Some flat) [("Spine", 8%Q)].

(** A rig without the bone of the shape [body]. *)
Definition neck_rig : Armature := rig [bone "Neck" 15].

(** Skin-to-bone transforms that are the inverses of the bind
    positions. *)
Definition skin_to_bone (shape : NiShape) (b : string) : Matrix :=
  inverted (bind_position shape b).

(** A bone under the parent named. *)
Definition child (name parent : string) (z : Q) : Bone :=
  {| bone_name := name; bone_parent := Some parent;
     matrix_local := Diag.translate 0 0 z;
     pose_matrix := Diag.translate 0 0 z; select := true |}.

(** A rig that lists every bone before its parent. *)
Definition limb : Armature :=
  rig [child "Hand" "Forearm" 1; child "Forearm" "Upperarm" 2;
       bone "Upperarm" 3].

(** The depth of the bones of [limb]. *)
Definition limb_rank (name : string) : nat :=
  if String.eqb name "Hand" then 2
  else if String.eqb name "Forearm" then 1 else 0.

(** An exporter at scale 1 that keeps the names. *)
Definition exporter (hierarchy : bool) : NifExporter :=
  {| ex_game := "SKYRIM"; ex_rename_bones := false;
     ex_rename_bones_nift := false; preserve_hierarchy := hierarchy;
     export_pose := false; ex_scale := 1;
     ex_dict_nif_name := fun name => name |}.

Definition nothing_written : export_state :=
  {| writtenbones := ∅; written := [] |}.

(** A hand of five fingers and the weights of a vertex on them and on
    a group that is no bone. *)
Definition fingers : Armature :=
  rig [bone "Thumb" 1; bone "Index" 2; bone "Middle" 3; bone "Ring" 4;
       bone "Little" 5].

Definition hand_weights : list (string * Q) :=
  [("Thumb", 1 # 10); ("Index", 3 # 10); ("Seam", 1); ("Middle", 2 # 10);
   ("Ring", 1 # 20); ("Little", 3 # 10)]%Q.

End Trial.

(** * Properties *)

(** ** The exact host satisfies the contract of [decompose] *)

Lemma diag_exact : @ExactDecompose Diag.host.
Proof.
  constructor. intros [[[x y] z] t c] l.
  unfold rotation_of, scale_of. cbn.
  destruct x as [[|px|px] dx], y as [[|py|py] dy], z as [[|pz|pz] dz];
    reflexivity.
Qed.

(** ** Affine utilities *)

(** On a transform whose rotation and scale [MatrixLocRotScale] and
    [decompose] give back, only the translation changes. *)
Lemma apply_scale_transl_components `{Host} (T : Matrix) (s : Q) :
  decompose (MatrixLocRotScale (vec_scale (translation_of T) s)
               (rotation_of T) (scale_of T))
  = (vec_scale (translation_of T) s, rotation_of T, scale_of T) ->
  decompose (apply_scale_transl T s)
  = (vec_scale (translation_of T) s, rotation_of T, scale_of T).
Proof.
  unfold apply_scale_transl, rotation_of, scale_of, translation_of.
  now destruct (decompose T) as [[loc rot] sc].
Qed.

Section AffineUtilities.
Context `{ExactDecompose}.

(** C8: for every transform [T] and scale factor [s],
    [apply_scale_transl T s] has the rotation and the scale of [T], and
    its translation is the translation of [T] multiplied by [s]
    ([decompose] and [MatrixLocRotScale] taken in exact arithmetic). *)
Theorem apply_scale_transl_frame (T : Matrix) (s : Q) :
  rotation_of (apply_scale_transl T s) = rotation_of T
  /\ scale_of (apply_scale_transl T s) = scale_of T
  /\ translation_of (apply_scale_transl T s) = vec_scale (translation_of T) s.
Proof.
  pose proof (apply_scale_transl_components T s
                (decompose_LocRotScale T _)) as E.
  unfold rotation_of at 1, scale_of at 1, translation_of at 1.
  now rewrite E.
Qed.

End AffineUtilities.

Section AffineUtilitiesExact.
#[local] Existing Instance Diag.host.

Lemma apply_scale_transl_frame_witness :
  let T : Matrix :=
    {| Diag.dg := (2, -3, 1 # 2)%Q; Diag.tr := (1, 2, 3)%Q; Diag.cw := 1%Q |} in
  rotation_of (apply_scale_transl T (1 # 10)) = (-1, 1, -1)%Z
  /\ scale_of (apply_scale_transl T (1 # 10)) = (-(2), -(3), -(1 # 2))%Q
  /\ translation_of (apply_scale_transl T (1 # 10))
     = (1 * (1 # 10), 2 * (1 # 10), 3 * (1 # 10))%Q.
Proof.
  exact (@apply_scale_transl_frame Diag.host diag_exact
           {| Diag.dg := (2, -3, 1 # 2)%Q; Diag.tr := (1, 2, 3)%Q;
              Diag.cw := 1%Q |} (1 # 10)).
Defined.

End AffineUtilitiesExact.

(** ** Skeleton export *)

Lemma range_fixed_chain (n : nat) :
  range (-1) (Z.of_nat n - 1) = fixed_chain n.
Proof.
  unfold range, fixed_chain.
  replace (Z.to_nat (Z.of_nat n - 1 - -1)) with n by lia.
  apply map_ext. intros k. lia.
Qed.

Lemma fixed_chain_lookup (n k : nat) :
  (k < n)%nat -> fixed_chain n !! k = Some (Z.of_nat k - 1)%Z.
Proof.
  intros Hk. unfold fixed_chain.
  rewrite list_lookup_fmap, lookup_seq_lt by done. reflexivity.
Qed.

Section ExportSkelProperties.
Context `{Host}.

(** C10: for every list of [n] exported bones, the [parentIndices]
    parameter [write_parentindices] adds has [numelements = n] and as
    its text the fixed chain [-1 0 1 ... n-2] in the order of the list:
    it is a function of [n] alone, and no bone's parent is read. *)
Theorem write_parentindices_fixed_chain (skel : list hkparam)
    (bones : list Bone) :
  write_parentindices skel bones
  = skel ++ [{| attrib := [("name", "parentIndices");
                           ("numelements", pretty (length bones))];
                text := String.concat " "
                          (map pretty (fixed_chain (length bones))) |}].
Proof.
  unfold write_parentindices, set_param.
  now rewrite range_fixed_chain.
Qed.

(** The parameter of [write_skel] is that of its list of selected bones. *)
Lemma write_skel_parentindices (skel : list hkparam) (arma : Armature) :
  write_parentindices skel (write_skel_bones arma)
  = skel ++ [{| attrib := [("name", "parentIndices");
                           ("numelements",
                            pretty (length (write_skel_bones arma)))];
                text := String.concat " "
                          (map pretty
                             (fixed_chain (length (write_skel_bones arma)))) |}].
Proof.
  unfold write_parentindices, set_param.
  now rewrite range_fixed_chain.
Qed.

End ExportSkelProperties.

(** ** Shape placement *)

Section Placement.
Context `{Host}.

(** C9: for a skinned shape without a global-to-skin transform whose
    list of used bones is empty, [calc_obj_transform] reaches
    [xf @ pose_xf] with [pose_xf = None] and raises; it does not return
    a placement. *)
Theorem calc_obj_transform_no_used_bones (self : NifImporter)
    (the_shape : NiShape) (scale_factor : Q) :
  is_NiShape the_shape = true ->
  has_skin_instance the_shape = true ->
  has_global_to_skin the_shape = false ->
  get_used_bones the_shape = [] ->
  calc_obj_transform self the_shape scale_factor = Raise TypeError.
Proof.
  intros Hty Hskin Hgts Hused.
  unfold calc_obj_transform, bind_offset_step.
  rewrite Hty, Hskin, Hgts, Hused. cbn.
  destruct (create_bones self), (reference_skel self); reflexivity.
Qed.

(** Without a reference skeleton to extend from, the bind-offset step
    leaves what the global-to-skin test set. *)
Lemma bind_offset_step_no_reference (self : NifImporter) (the_shape : NiShape) :
  create_bones self = false \/ reference_skel self = None ->
  bind_offset_step self the_shape
  = if has_global_to_skin the_shape
    then xf <- inverted_checked (global_to_skin the_shape) ;; Ok (xf, true)
    else Ok (Identity4, false).
Proof.
  intros Hno. unfold bind_offset_step.
  destruct (has_global_to_skin the_shape); cbn [bind].
  - destruct (inverted_checked (global_to_skin the_shape)); cbn [bind];
      [|reflexivity].
    destruct Hno as [-> | ->]; [reflexivity|].
    now destruct (create_bones self).
  - destruct Hno as [-> | ->]; [reflexivity|].
    now destruct (create_bones self).
Qed.

End Placement.

(** ** Bone collections *)

Section BoneCollections.
Context `{Host}.

Lemma lookup_bone_name (name : string) (l : list Bone) (b : Bone) :
  lookup_bone name l = Some b -> bone_name b = name.
Proof.
  induction l as [|b' l IH]; cbn; [discriminate|].
  destruct (decide (bone_name b' = name)); [congruence | exact IH].
Qed.

Lemma lookup_bone_app (name : string) (l l' : list Bone) :
  lookup_bone name (l ++ l')
  = match lookup_bone name l with
    | Some b => Some b
    | None => lookup_bone name l'
    end.
Proof.
  induction l as [|b l IH]; cbn; [reflexivity|].
  destruct (decide (bone_name b = name)); [reflexivity | exact IH].
Qed.

Lemma lookup_bone_elem_of (name : string) (l : list Bone) :
  is_Some (lookup_bone name l) <-> name ∈ map bone_name l.
Proof.
  induction l as [|b l IH]; cbn.
  - split; [intros [? ?]; discriminate | intros ?%elem_of_nil; contradiction].
  - destruct (decide (bone_name b = name)) as [<-|Hne].
    + split; [intros _; apply list_elem_of_here | eauto].
    + rewrite IH. split; [apply list_elem_of_further|].
      intros [?|?]%elem_of_cons; [congruence | assumption].
Qed.

Lemma update_bone_names (name : string) (f : Bone -> Bone) (l : list Bone) :
  (forall b, bone_name (f b) = bone_name b) ->
  map bone_name (update_bone name f l) = map bone_name l.
Proof.
  intros Hf. induction l as [|b l IH]; cbn; [reflexivity|].
  destruct (decide (bone_name b = name)); cbn; [now rewrite Hf | now rewrite IH].
Qed.

Lemma lookup_update_bone_eq (name : string) (f : Bone -> Bone) (l : list Bone) :
  (forall b, bone_name (f b) = bone_name b) ->
  lookup_bone name (update_bone name f l) = f <$> lookup_bone name l.
Proof.
  intros Hf. induction l as [|b l IH]; cbn; [reflexivity|].
  destruct (decide (bone_name b = name)) as [E|E]; cbn.
  - rewrite Hf. now destruct (decide (bone_name b = name)).
  - now destruct (decide (bone_name b = name)).
Qed.

Lemma lookup_update_bone_ne (name name' : string) (f : Bone -> Bone)
    (l : list Bone) :
  (forall b, bone_name (f b) = bone_name b) ->
  name <> name' ->
  lookup_bone name (update_bone name' f l) = lookup_bone name l.
Proof.
  intros Hf Hne. induction l as [|b l IH]; cbn; [reflexivity|].
  destruct (decide (bone_name b = name')) as [E|E]; cbn.
  - rewrite Hf.
    destruct (decide (bone_name b = name)); [congruence | reflexivity].
  - now destruct (decide (bone_name b = name)).
Qed.

Lemma has_bone_true (name : string) (arma : Armature) :
  has_bone name arma = true <-> name ∈ map bone_name (bones arma).
Proof.
  rewrite <- lookup_bone_elem_of. unfold has_bone.
  destruct (lookup_bone name (bones arma)); split; eauto; try discriminate.
  intros [? ?]; discriminate.
Qed.

End BoneCollections.

(** ** Rig compatibility *)

Section Compatibility.
Context `{Host}.

(** On a bone of the armature [get_bone_xform] without hierarchy is the
    bind transform with the game rotation: it does not raise. *)
Lemma get_bone_xform_global (arma : Armature) (name game : string)
    (bone : Bone) :
  lookup_bone name (bones arma) = Some bone ->
  get_bone_xform arma name game false false
  = Ok (matrix_local bone @ (game_rotations game).2).
Proof.
  intros E. unfold get_bone_xform, get_bone_global_xf. now rewrite E.
Qed.

(** The loop over the bones of the shape does not raise; it ends with
    [is_ok] set when it started so and every bone matches, and then it
    has not touched [offset_xf]. *)
Lemma compat_loop_spec (self : NifImporter) (obj : Object) (shape : NiShape)
    (arma : Armature) (bs : list string) (is_ok : bool)
    (offset_xf : option Matrix) (offset_consistent : bool) :
  exists o c,
    compat_loop self obj shape arma bs is_ok offset_xf offset_consistent
    = Ok (is_ok && forallb (bone_matches self obj shape arma) bs, o, c)
    /\ (is_ok && forallb (bone_matches self obj shape arma) bs = true ->
        o = offset_xf).
Proof.
  revert is_ok offset_xf offset_consistent.
  induction bs as [|b rest IH]; intros is_ok offset_xf offset_consistent.
  - exists offset_xf, offset_consistent. cbn. rewrite andb_true_r. auto.
  - cbn [compat_loop forallb]. unfold bone_matches at 1 3, has_bone.
    destruct (lookup_bone (blender_name self b) (bones arma)) as [bone|] eqn:E.
    + rewrite (get_bone_xform_global _ _ _ bone E). cbn [bind].
      destruct (MatNearEqual _ _ default_epsilon) eqn:Hnear; cbn [negb].
      * apply IH.
      * rewrite andb_false_l, andb_false_r.
        destruct offset_xf as [o|].
        -- destruct (negb (MatNearEqual _ o default_epsilon)).
           ++ exists (Some o), false. split; [reflexivity | discriminate].
           ++ destruct (IH false (Some o) offset_consistent) as (o' & c & E' & _).
              exists o', c. rewrite E'. split; [reflexivity | discriminate].
        -- destruct (IH false
                       (Some (matrix_world obj
                              @ apply_scale_xf (bind_position shape b)
                                  (scale self)
                              @ (matrix_local bone
                                 @ (game_rotations (shape_game shape)).2)))
                       offset_consistent) as (o' & c & E' & _).
           exists o', c. rewrite E'. split; [reflexivity | discriminate].
    + apply IH.
Qed.

(** The body of the loop over the armatures returns at its first turn:
    the armature without a transform when every bone matches, and
    [(None, None)] when one does not. *)
Lemma find_compatible_arma_body_spec (self : NifImporter) (obj : Object)
    (shape : NiShape) (arma : Armature) :
  find_compatible_arma_body self obj shape arma
  = Ok (Some (if forallb (bone_matches self obj shape arma) (bone_names shape)
              then (Some arma, None)
              else (None, None))).
Proof.
  unfold find_compatible_arma_body.
  destruct (compat_loop_spec self obj shape arma (bone_names shape)
              true None true) as (o & c & E & Ho).
  rewrite E. cbn [bind andb] in *.
  destruct (forallb _ _); [now rewrite Ho | reflexivity].
Qed.

(** C6: for every non-empty list of candidates, only the first one is
    examined: it is returned (without a transform) when every used bone
    it has matches, and otherwise the result is [(None, None)],
    whatever the candidates after it are. *)
Theorem find_compatible_arma_first_only (self : NifImporter) (obj : Object)
    (shape : NiShape) (arma : Armature) (rest : list Armature) :
  nodes_loaded self !! obj_name obj = Some shape ->
  find_compatible_arma self obj (arma :: rest)
  = Ok (if forallb (bone_matches self obj shape arma) (bone_names shape)
        then (Some arma, None)
        else (None, None))
  /\ find_compatible_arma self obj (arma :: rest)
     = find_compatible_arma self obj [arma].
Proof.
  intros Hshape. unfold find_compatible_arma. rewrite Hshape.
  cbn [subscript bind for_return].
  rewrite find_compatible_arma_body_spec. cbn [bind]. auto.
Qed.

(** C1 (amended): when a bone the shape uses does not match its bone in
    the first candidate, [find_compatible_arma] returns [(None, None)],
    also when all such bones differ by one delta; and the transform it
    returns is [None] for every list of candidates. *)
Theorem find_compatible_arma_no_offset (self : NifImporter) (obj : Object)
    (shape : NiShape) (arma : Armature) (rest : list Armature) :
  nodes_loaded self !! obj_name obj = Some shape ->
  Exists (fun b => bone_matches self obj shape arma b = false)
    (bone_names shape) ->
  find_compatible_arma self obj (arma :: rest) = Ok (None, None)
  /\ forall armatures r, find_compatible_arma self obj armatures = Ok r ->
                         r.2 = None.
Proof.
  intros Hshape Hex. split.
  - unfold find_compatible_arma. rewrite Hshape.
    cbn [subscript bind for_return].
    rewrite find_compatible_arma_body_spec. cbn [bind].
    destruct (forallb _ _) eqn:Hall; [|reflexivity].
    rewrite forallb_forall in Hall. apply Exists_exists in Hex.
    destruct Hex as (b & Hin & Hb). apply list_elem_of_In in Hin.
    rewrite (Hall b Hin) in Hb. discriminate.
  - intros armatures r. unfold find_compatible_arma. rewrite Hshape.
    cbn [subscript bind]. destruct armatures as [|a l]; cbn [for_return].
    + now intros [= <-].
    + rewrite find_compatible_arma_body_spec. cbn [bind].
      destruct (forallb _ _); now intros [= <-].
Qed.

End Compatibility.

(** ** Rig builder: single bones *)

Section RigBuilder.
Context `{Host}.

Lemma add_bone_to_arma_present (self : NifImporter) (arma : Armature)
    (bone_name nifname : string) :
  has_bone bone_name arma = true ->
  add_bone_to_arma self arma bone_name nifname = (None, arma).
Proof. intros E. unfold add_bone_to_arma. now rewrite E. Qed.

Lemma create_bone_has_bone (arma : Armature) (name game : string)
    (xf : Matrix) (s : Q) :
  has_bone name (create_bone arma name xf game s).2 = true.
Proof.
  unfold has_bone, create_bone. cbn. rewrite lookup_bone_app.
  destruct (lookup_bone name (bones arma)); [reflexivity|].
  cbn. now destruct (decide (name = name)).
Qed.

(** A bone of the name is in the armature after the call. *)
Lemma add_bone_to_arma_has_bone (self : NifImporter) (arma : Armature)
    (bone_name nifname : string) :
  has_bone bone_name (add_bone_to_arma self arma bone_name nifname).2 = true.
Proof.
  unfold add_bone_to_arma.
  destruct (has_bone bone_name arma) eqn:E; [exact E|].
  destruct (if create_bones self then _ else _);
    match goal with
    | |- context [create_bone ?a ?n ?x ?g ?s] =>
        pose proof (create_bone_has_bone a n g x s) as Hc;
        destruct (create_bone a n x g s); exact Hc
    end.
Qed.

(** C7: a second call of [add_bone_to_arma] with the same arguments
    returns no bone and leaves the armature as the first call left it:
    no bone is added, and no bind or pose transform changes. *)
Theorem add_bone_to_arma_idempotent (self : NifImporter) (arma : Armature)
    (bone_name nifname : string) :
  let arma' := (add_bone_to_arma self arma bone_name nifname).2 in
  add_bone_to_arma self arma' bone_name nifname = (None, arma')
  /\ (forall name,
        bind_of name (add_bone_to_arma self arma' bone_name nifname).2
        = bind_of name arma'
        /\ pose_of name (add_bone_to_arma self arma' bone_name nifname).2
           = pose_of name arma').
Proof.
  intros arma'.
  assert (add_bone_to_arma self arma' bone_name nifname = (None, arma')) as E.
  { apply add_bone_to_arma_present, add_bone_to_arma_has_bone. }
  split; [exact E|]. intros name. now rewrite E.
Qed.

(** *** Pose transforms *)

Lemma set_pose_matrix_names (blname : string) (m : Matrix) (arma : Armature) :
  map bone_name (bones (set_pose_matrix blname m arma))
  = map bone_name (bones arma).
Proof. unfold set_pose_matrix. cbn. now apply update_bone_names. Qed.

Lemma set_bone_pose_names (self : NifImporter) (niffile : NifFile)
    (arma : Armature) (pair : string * string) :
  map bone_name (bones (set_bone_pose self niffile arma pair))
  = map bone_name (bones arma).
Proof.
  unfold set_bone_pose. destruct pair as [bn blname].
  destruct (nodes niffile !! bn); [|reflexivity].
  destruct (_ && _); [apply set_pose_matrix_names | reflexivity].
Qed.

Lemma set_bone_poses_names (self : NifImporter) (niffile : NifFile)
    (bonelist : list (string * string)) (arma : Armature) :
  map bone_name (bones (set_bone_poses self arma niffile bonelist))
  = map bone_name (bones arma).
Proof.
  unfold set_bone_poses. revert arma.
  induction bonelist as [|p l IH]; intros arma; cbn; [reflexivity|].
  now rewrite IH, set_bone_pose_names.
Qed.

Lemma set_bone_poses_app (self : NifImporter) (niffile : NifFile)
    (l l' : list (string * string)) (arma : Armature) :
  set_bone_poses self arma niffile (l ++ l')
  = set_bone_poses self (set_bone_poses self arma niffile l) niffile l'.
Proof. unfold set_bone_poses. apply foldl_app. Qed.

Lemma pose_of_set_pose_matrix_eq (blname : string) (m : Matrix)
    (arma : Armature) :
  has_bone blname arma = true ->
  pose_of blname (set_pose_matrix blname m arma) = Some m.
Proof.
  unfold has_bone, pose_of, set_pose_matrix. cbn.
  rewrite lookup_update_bone_eq by reflexivity.
  destruct (lookup_bone blname (bones arma)); [reflexivity | discriminate].
Qed.

Lemma pose_of_set_pose_matrix_ne (name blname : string) (m : Matrix)
    (arma : Armature) :
  name <> blname ->
  pose_of name (set_pose_matrix blname m arma) = pose_of name arma.
Proof.
  intros Hne. unfold pose_of, set_pose_matrix. cbn.
  now rewrite lookup_update_bone_ne.
Qed.

(** A pair for another bone of the rig leaves the pose. *)
Lemma pose_of_set_bone_pose_ne (self : NifImporter) (niffile : NifFile)
    (arma : Armature) (pair : string * string) (name : string) :
  pair.2 <> name ->
  pose_of name (set_bone_pose self niffile arma pair) = pose_of name arma.
Proof.
  intros Hne. unfold set_bone_pose. destruct pair as [bn blname].
  destruct (nodes niffile !! bn); [|reflexivity].
  destruct (_ && _); [|reflexivity].
  apply pose_of_set_pose_matrix_ne. cbn in Hne. congruence.
Qed.

Lemma pose_of_set_bone_poses_ne (self : NifImporter) (niffile : NifFile)
    (bonelist : list (string * string)) (arma : Armature) (name : string) :
  Forall (fun pair => pair.2 <> name) bonelist ->
  pose_of name (set_bone_poses self arma niffile bonelist) = pose_of name arma.
Proof.
  unfold set_bone_poses. intros Hall. revert arma.
  induction Hall as [|p l Hp _ IH]; intros arma; cbn; [reflexivity|].
  now rewrite IH, pose_of_set_bone_pose_ne.
Qed.

(** C5 (amended): for every pair [(bn, blname)] of the list such that
    the file has a node [bn] that is a [NiNode] block and not the root
    of the file, and the rig has a bone [blname], [set_bone_poses]
    overwrites the pose transform of the bone with the global transform
    of the node, corrected for the scale and the game's convention:
    when the loop has handled the pair, and before it goes on with the
    pairs that follow, the bone has this pose. *)
Theorem set_bone_poses_overwrites (self : NifImporter) (arma : Armature)
    (niffile : NifFile) (pre post : list (string * string))
    (bn blname : string) (nif_bone : NiNode) :
  nodes niffile !! bn = Some nif_bone ->
  has_bone blname arma = true ->
  blockname nif_bone = "NiNode" ->
  node_name nif_bone <> rootName niffile ->
  set_bone_poses self arma niffile (pre ++ (bn, blname) :: post)
  = set_bone_poses self
      (set_bone_poses self arma niffile (pre ++ [(bn, blname)])) niffile post
  /\ pose_of blname (set_bone_poses self arma niffile (pre ++ [(bn, blname)]))
     = Some (get_pose_blender_xf (xform_to_global nif_bone) (game (nif self))
               (scale self)).
Proof.
  intros Hnode Hbone Hblock Hroot. split.
  - change ((bn, blname) :: post) with ([(bn, blname)] ++ post).
    now rewrite app_assoc, set_bone_poses_app.
  - rewrite set_bone_poses_app.
    set (arma' := set_bone_poses self arma niffile pre).
    assert (has_bone blname arma' = true) as Hbone'.
    { apply has_bone_true. unfold arma'. rewrite set_bone_poses_names.
      now apply has_bone_true. }
    unfold set_bone_poses. cbn [foldl]. unfold set_bone_pose.
    rewrite Hnode, Hbone'.
    rewrite (bool_decide_eq_true_2 _ Hblock), (bool_decide_eq_true_2 _ Hroot).
    cbn [andb]. now apply pose_of_set_pose_matrix_eq.
Qed.

End RigBuilder.

(** ** Rig builder: the hierarchy walk *)

Section FilterLength.
Context {A : Type} (P Q : A -> Prop) `{!forall x, Decision (P x)}
  `{!forall x, Decision (Q x)}.

Lemma length_filter_mono (l : list A) :
  (forall x, Q x -> P x) ->
  length (filter Q l) <= length (filter P l).
Proof.
  intros HQP. induction l as [|y l IH]; [reflexivity|].
  rewrite !filter_cons.
  destruct (decide (Q y)) as [Hq|Hq], (decide (P y)) as [Hp|Hp]; cbn; try lia.
  exfalso. apply Hp. auto.
Qed.

Lemma length_filter_strict (l : list A) (x : A) :
  (forall y, Q y -> P y) -> x ∈ l -> P x -> ~ Q x ->
  length (filter Q l) < length (filter P l).
Proof.
  intros HQP Hin Hp Hq. induction Hin as [x l | x y l Hin IH].
  - rewrite !filter_cons.
    destruct (decide (Q x)), (decide (P x)); try contradiction.
    cbn. pose proof (length_filter_mono l HQP). lia.
  - specialize (IH Hp Hq). rewrite !filter_cons.
    destruct (decide (Q y)) as [Hqy|Hqy], (decide (P y)) as [Hpy|Hpy];
      cbn; try lia.
    exfalso. apply Hpy. auto.
Qed.

End FilterLength.

Lemma length_omap_le {A B} (f : A -> option B) (l : list A) :
  length (omap f l) <= length l.
Proof.
  induction l as [|x l IH]; cbn; [reflexivity|].
  destruct (f x); cbn; lia.
Qed.

Section Walk.
Context `{Host}.

Lemma file_parents_length (self : NifImporter) (file : NifFile) :
  length (file_parents self file) <= size (nodes file).
Proof.
  unfold file_parents. etransitivity; [apply length_omap_le|].
  now rewrite length_fmap, length_map_to_list.
Qed.

Lemma parent_candidates_length (self : NifImporter) :
  length (parent_candidates self)
  <= size (nodes (nif self))
     + from_option (fun skel => size (nodes skel)) 0 (reference_skel self).
Proof.
  unfold parent_candidates. rewrite length_app.
  pose proof (file_parents_length self (nif self)).
  destruct (reference_skel self) as [skel|]; cbn.
  - pose proof (file_parents_length self skel). lia.
  - lia.
Qed.

Lemma named_parent_file_parents (self : NifImporter) (file : NifFile)
    (key : string) (node : NiNode) (pname pnif : string) :
  nodes file !! key = Some node ->
  named_parent file node = Some (pname, pnif) ->
  blender_name self pname ∈ file_parents self file.
Proof.
  intros Hnode Hp. unfold file_parents.
  apply list_elem_of_omap. exists node. split.
  - apply list_elem_of_fmap. exists (key, node). split; [reflexivity|].
    now apply elem_of_map_to_list.
  - now rewrite Hp.
Qed.

(** The parent the search finds is one of the candidates. *)
Lemma find_parent_candidate (self : NifImporter)
    (bonename parentname parentnifname : string) :
  find_parent self bonename = Some (parentname, parentnifname) ->
  parentname ∈ parent_candidates self.
Proof.
  unfold find_parent, parent_candidates. intros Hf.
  apply elem_of_app.
  destruct (nodes (nif self) !! nif_name self bonename)
    as [thisnode|] eqn:Hnode; cbn in Hf.
  - destruct (named_parent (nif self) thisnode) as [[pname pnif]|] eqn:Hp;
      cbn in Hf.
    + injection Hf as <- <-. left.
      eapply named_parent_file_parents; eassumption.
    + right. revert Hf.
      destruct (create_bones self && negb (is_facebone bonename));
        [|discriminate].
      destruct (reference_skel self) as [skel|]; [|discriminate]. cbn.
      destruct (nodes skel !! nif_name self bonename) as [node|] eqn:Hn;
        [|discriminate]. cbn.
      destruct (bool_decide _); [|discriminate].
      destruct (named_parent skel node) as [[pname pnif]|] eqn:Hp';
        [|discriminate]. cbn.
      intros [= <- <-]. eapply named_parent_file_parents; eassumption.
  - right. revert Hf.
    destruct (create_bones self && negb (is_facebone bonename));
      [|discriminate].
    destruct (reference_skel self) as [skel|]; [|discriminate]. cbn.
    destruct (nodes skel !! nif_name self bonename) as [node|] eqn:Hn;
      [|discriminate]. cbn.
    destruct (bool_decide _); [|discriminate].
    destruct (named_parent skel node) as [[pname pnif]|] eqn:Hp';
      [|discriminate]. cbn.
    intros [= <- <-]. eapply named_parent_file_parents; eassumption.
Qed.

(** A call for a bone the armature lacks creates it at the end. *)
Lemma add_bone_to_arma_absent (self : NifImporter) (arma : Armature)
    (name nifname : string) :
  has_bone name arma = false ->
  exists xf,
    add_bone_to_arma self arma name nifname
    = (Some (create_bone arma name xf (game (nif self)) (scale self)).1,
       (create_bone arma name xf (game (nif self)) (scale self)).2).
Proof.
  intros E. unfold add_bone_to_arma. rewrite E.
  destruct (if create_bones self then _ else _) as [node|];
    eexists; reflexivity.
Qed.

(** A turn of the loop on a work list whose names are bones of the
    armature does not raise, and it is one of the three steps. *)
Lemma connect_step_walk (self : NifImporter) (st : connect_state) :
  queue_in_rig st ->
  cs_i st < length (bones_to_parent st) ->
  exists st',
    connect_step self st = Ok st'
    /\ cs_i st' = S (cs_i st)
    /\ walk_step self st st'.
Proof.
  intros Hq Hi. unfold connect_step.
  destruct (lookup_lt_is_Some_2 _ _ Hi) as [bonename Hname].
  rewrite Hname. cbn [subscript bind].
  assert (is_Some (lookup_bone bonename (bones (cs_arma st)))) as [arma_bone Hb].
  { apply lookup_bone_elem_of.
    exact (proj1 (Forall_lookup _ _) Hq _ _ Hname). }
  rewrite Hb. cbn [subscript bind].
  destruct (bone_parent arma_bone) as [p|] eqn:Hp.
  { eexists. split; [reflexivity|]. split; [reflexivity|].
    now apply walk_keep. }
  destruct (find_parent self bonename) as [[parentname parentnifname]|] eqn:Hf.
  2:{ eexists. split; [reflexivity|]. split; [reflexivity|].
      now apply walk_keep. }
  destruct (bool_decide (parentname = "")).
  { eexists. split; [reflexivity|]. split; [reflexivity|].
    now apply walk_keep. }
  destruct (has_bone parentname (cs_arma st)) eqn:Hhas; cbn [negb].
  - assert (is_Some (lookup_bone parentname (bones (cs_arma st))))
      as [parent Hparent].
    { unfold has_bone in Hhas.
      destruct (lookup_bone parentname (bones (cs_arma st)));
        [eauto | discriminate]. }
    rewrite Hparent. cbn [subscript bind].
    rewrite (lookup_bone_name _ _ _ Hparent).
    eexists. split; [reflexivity|]. split; [reflexivity|].
    eapply walk_link; [exact Hb | exact Hp | exact Hhas | reflexivity | reflexivity].
  - destruct (add_bone_to_arma_absent self (cs_arma st) parentname
                parentnifname Hhas) as [xf E].
    rewrite E.
    eexists. split; [reflexivity|]. split; [reflexivity|].
    eapply (walk_create _ _ _ bonename parentname arma_bone xf);
      [exact Hb | exact Hp | exact Hhas | | reflexivity | reflexivity].
    eapply find_parent_candidate; eassumption.
Qed.

(** The assignment of a parent is refused or made. *)
Lemma set_parent_cases (bonename : string) (parent : option string)
    (arma : Armature) :
  set_parent bonename parent arma = arma
  \/ set_parent bonename parent arma = assign_parent bonename parent arma.
Proof.
  unfold set_parent. destruct parent as [p|]; [|auto].
  destruct (on_parent_chain _ _ _ _); auto.
Qed.

Lemma assign_parent_names (bonename : string) (parent : option string)
    (arma : Armature) :
  map bone_name (bones (assign_parent bonename parent arma))
  = map bone_name (bones arma).
Proof. unfold assign_parent. cbn. now apply update_bone_names. Qed.

Lemma set_parent_names (bonename : string) (parent : option string)
    (arma : Armature) :
  map bone_name (bones (set_parent bonename parent arma))
  = map bone_name (bones arma).
Proof.
  destruct (set_parent_cases bonename parent arma) as [-> | ->];
    [reflexivity | apply assign_parent_names].
Qed.

Lemma create_bone_names (arma : Armature) (name game : string) (xf : Matrix)
    (s : Q) :
  map bone_name (bones (create_bone arma name xf game s).2)
  = map bone_name (bones arma) ++ [name].
Proof. unfold create_bone. cbn. now rewrite map_app. Qed.

(** The names of the bones only grow in a step. *)
Lemma walk_step_names (self : NifImporter) (st st' : connect_state) :
  walk_step self st st' ->
  forall name, name ∈ map bone_name (bones (cs_arma st)) ->
               name ∈ map bone_name (bones (cs_arma st')).
Proof.
  intros [_ E | ? ? ? _ _ _ _ E | ? ? ? ? _ _ _ _ _ E] name Hin; rewrite E.
  - exact Hin.
  - now rewrite set_parent_names.
  - rewrite set_parent_names, create_bone_names. apply elem_of_app. auto.
Qed.

Lemma walk_step_queue (self : NifImporter) (st st' : connect_state) :
  walk_step self st st' -> queue_in_rig st -> queue_in_rig st'.
Proof.
  intros Hstep Hq. unfold queue_in_rig in *.
  pose proof (walk_step_names self st st' Hstep) as Hnames.
  assert (Forall (fun name => name ∈ map bone_name (bones (cs_arma st')))
            (bones_to_parent st)) as Hq'.
  { eapply Forall_impl; [exact Hq | exact Hnames]. }
  destruct Hstep as [E _ | ? ? ? _ _ _ E _ | ? parentname ? ? _ _ _ _ E Ea];
    rewrite E; try exact Hq'.
  apply Forall_app. split; [exact Hq'|].
  apply Forall_singleton. rewrite Ea, set_parent_names, create_bone_names.
  apply elem_of_app. right. apply list_elem_of_here.
Qed.

(** Every step leaves fewer turns. *)
Lemma walk_step_turns (self : NifImporter) (st st' : connect_state) :
  walk_step self st st' ->
  cs_i st' = S (cs_i st) ->
  cs_i st < length (bones_to_parent st) ->
  turns_left self st' < turns_left self st.
Proof.
  intros Hstep Hi Hlt. unfold turns_left, missing_parents. rewrite Hi.
  destruct Hstep as [Eq Ea | ? ? ? _ _ _ Eq Ea
                    | ? parentname ? ? _ _ Hhas Hcand Eq Ea];
    rewrite Eq, Ea.
  - lia.
  - rewrite set_parent_names. lia.
  - rewrite set_parent_names, create_bone_names, length_app. cbn [length].
    assert (length (filter (fun c => c ∉ map bone_name (bones (cs_arma st))
                                          ++ [parentname])
                      (parent_candidates self))
            < length (filter (fun c => c ∉ map bone_name (bones (cs_arma st)))
                        (parent_candidates self))) as Hl.
    { apply (length_filter_strict _ _ _ parentname).
      - intros y Hy Hin. apply Hy, elem_of_app. auto.
      - exact Hcand.
      - intros Hin. apply has_bone_true in Hin. congruence.
      - intros Hy. apply Hy, elem_of_app. right. apply list_elem_of_here. }
    lia.
Qed.

(** The loop ends within the turns left, without raising, and keeps
    what every step keeps. *)
Lemma connect_loop_total (self : NifImporter) (I : connect_state -> Prop) :
  (forall st st', I st -> walk_step self st st' -> I st') ->
  forall fuel st,
    queue_in_rig st -> I st -> turns_left self st <= fuel ->
    exists st', connect_loop fuel self st = Some (Ok st') /\ I st'.
Proof.
  intros Hkeep fuel.
  induction fuel as [|fuel IH]; intros st Hq HI Hfuel; cbn [connect_loop];
    destruct (decide (cs_i st < length (bones_to_parent st))) as [Hlt|Hge].
  - unfold turns_left in Hfuel. lia.
  - rewrite bool_decide_eq_false_2 by exact Hge. eauto.
  - rewrite bool_decide_eq_true_2 by exact Hlt.
    destruct (connect_step_walk self st Hq Hlt) as (st1 & E & Hi & Hstep).
    rewrite E. apply IH.
    + eapply walk_step_queue; eassumption.
    + eapply Hkeep; eassumption.
    + pose proof (walk_step_turns self st st1 Hstep Hi Hlt). lia.
  - rewrite bool_decide_eq_false_2 by exact Hge. eauto.
Qed.

Lemma connect_init_queue (arma : Armature) : queue_in_rig (connect_init arma).
Proof. unfold queue_in_rig, connect_init. cbn. now apply Forall_forall. Qed.

Lemma connect_init_turns (self : NifImporter) (arma : Armature) :
  turns_left self (connect_init arma) <= connect_fuel self arma.
Proof.
  unfold turns_left, missing_parents, connect_init, connect_fuel. cbn.
  rewrite length_map.
  pose proof (length_filter
                (fun c => c ∉ map bone_name (bones arma))
                (parent_candidates self)).
  pose proof (parent_candidates_length self). lia.
Qed.

(** The walk of [connect_armature] keeps what every step keeps. *)
Lemma connect_armature_walk (self : NifImporter) (arma : Armature)
    (I : connect_state -> Prop) :
  (forall st st', I st -> walk_step self st st' -> I st') ->
  I (connect_init arma) ->
  exists st,
    I st
    /\ connect_armature self arma
       = Some (Ok (set_all_bone_poses self (cs_arma st) (nif self),
                   collisions st)).
Proof.
  intros Hkeep Hinit.
  destruct (connect_loop_total self I Hkeep (connect_fuel self arma)
              (connect_init arma) (connect_init_queue arma) Hinit
              (connect_init_turns self arma)) as (st & E & HI).
  exists st. split; [exact HI|].
  unfold connect_armature. now rewrite E.
Qed.

(** C4 (amended): on a source hierarchy in which [A] and [B] are each
    the parent of the other, [connect_armature] terminates, as it does
    on every hierarchy: its loop comes to the end of the work list
    within the bound on its turns, and the call returns or raises.
    The code keeps no set of visited bones and has no error for a
    cycle; a name enters the work list only when the bone of that name
    is created, so the list cannot grow beyond the parents the files
    name. *)
Theorem connect_armature_terminates (self : NifImporter) (arma : Armature) :
  ~ (scale self == 0)%Q ->
  exists r, connect_armature self arma = Some r.
Proof.
  intros _.
  destruct (connect_armature_walk self arma (fun _ => True)) as (st & _ & E);
    [auto | exact I |].
  eauto.
Qed.

(** *** The order of creation *)

Lemma update_bone_map {B} (g : Bone -> B) (name : string) (f : Bone -> Bone)
    (l : list Bone) :
  (forall b, g (f b) = g b) ->
  map g (update_bone name f l) = map g l.
Proof.
  intros Hf. induction l as [|b l IH]; cbn; [reflexivity|].
  destruct (decide (bone_name b = name)); cbn; [now rewrite Hf | now rewrite IH].
Qed.

Lemma update_bone_app (name : string) (f : Bone -> Bone) (l l' : list Bone) :
  is_Some (lookup_bone name l) ->
  update_bone name f (l ++ l') = update_bone name f l ++ l'.
Proof.
  induction l as [|b l IH]; cbn.
  - intros [? ?]; discriminate.
  - destruct (decide (bone_name b = name)); [reflexivity|].
    intros Hl. now rewrite IH.
Qed.

(** The bone whose parent is assigned has it, and the others stay. *)
Lemma lookup_bone_assign_parent_eq (bonename : string)
    (parent : option string) (arma : Armature) (b0 : Bone) :
  lookup_bone bonename (bones arma) = Some b0 ->
  exists b,
    lookup_bone bonename (bones (assign_parent bonename parent arma)) = Some b
    /\ bone_parent b = parent
    /\ bone_name b = bone_name b0
    /\ matrix_local b = matrix_local b0
    /\ pose_matrix b = pose_matrix b0
    /\ select b = select b0.
Proof.
  intros Hl. unfold assign_parent. cbn.
  rewrite lookup_update_bone_eq by reflexivity. rewrite Hl. cbn.
  eexists. split; [reflexivity|]. cbn. auto.
Qed.

Lemma lookup_bone_assign_parent_ne (name bonename : string)
    (parent : option string) (arma : Armature) :
  name <> bonename ->
  lookup_bone name (bones (assign_parent bonename parent arma))
  = lookup_bone name (bones arma).
Proof.
  intros Hne. unfold assign_parent. cbn. now apply lookup_update_bone_ne.
Qed.

Lemma lookup_bone_set_parent_ne (name bonename : string)
    (parent : option string) (arma : Armature) :
  name <> bonename ->
  lookup_bone name (bones (set_parent bonename parent arma))
  = lookup_bone name (bones arma).
Proof.
  intros Hne.
  destruct (set_parent_cases bonename parent arma) as [-> | ->];
    [reflexivity | now apply lookup_bone_assign_parent_ne].
Qed.

(** A bone that has a parent keeps it when a bone without one is
    given a parent. *)
Lemma set_parent_keeps_parent (bonename : string) (parent : option string)
    (arma : Armature) (b0 : Bone) (B P : string) (b : Bone) :
  lookup_bone bonename (bones arma) = Some b0 ->
  bone_parent b0 = None ->
  lookup_bone B (bones arma) = Some b ->
  bone_parent b = Some P ->
  lookup_bone B (bones (set_parent bonename parent arma)) = Some b.
Proof.
  intros Hl0 Hp0 Hl Hp.
  rewrite lookup_bone_set_parent_ne; [exact Hl|].
  intros ->. congruence.
Qed.

Lemma lookup_bone_create_bone (name newname game : string) (xf : Matrix)
    (s : Q) (arma : Armature) (b : Bone) :
  lookup_bone name (bones arma) = Some b ->
  lookup_bone name (bones (create_bone arma newname xf game s).2) = Some b.
Proof.
  intros Hl. unfold create_bone. cbn. now rewrite lookup_bone_app, Hl.
Qed.

(** A bone that has just been created is accepted as the parent of a
    bone the armature had. *)
Lemma set_parent_created (bonename parentname game : string) (xf : Matrix)
    (s : Q) (arma : Armature) (b0 : Bone) :
  lookup_bone bonename (bones arma) = Some b0 ->
  has_bone parentname arma = false ->
  set_parent bonename (Some parentname)
    (create_bone arma parentname xf game s).2
  = assign_parent bonename (Some parentname)
      (create_bone arma parentname xf game s).2.
Proof.
  intros Hl Hhas. unfold set_parent.
  assert (parentname <> bonename) as Hne.
  { intros ->. unfold has_bone in Hhas. now rewrite Hl in Hhas. }
  unfold create_bone. cbn [snd bones]. rewrite length_app. cbn [length].
  replace (length (bones arma) + 1) with (S (length (bones arma))) by lia.
  cbn [on_parent_chain].
  destruct (decide (parentname = bonename)); [contradiction|].
  rewrite lookup_bone_app.
  unfold has_bone in Hhas.
  destruct (lookup_bone parentname (bones arma)); [discriminate|].
  cbn. destruct (decide (parentname = parentname)); [|contradiction].
  reflexivity.
Qed.

(** What a turn of the loop does to the armature and to the list
    [new_bones]: it adds nothing to the list and leaves the armature or
    gives the bone at hand a parent the armature has, or it creates the
    parent, notes it at the end of the list and gives it to the bone at
    hand. *)
Lemma connect_step_cases (self : NifImporter) (st st' : connect_state) :
  connect_step self st = Ok st' ->
  (new_bones st' = new_bones st
   /\ (cs_arma st' = cs_arma st
       \/ exists bonename parentname b0,
            lookup_bone bonename (bones (cs_arma st)) = Some b0
            /\ bone_parent b0 = None
            /\ has_bone parentname (cs_arma st) = true
            /\ cs_arma st'
               = set_parent bonename (Some parentname) (cs_arma st)))
  \/ exists bonename parentname parentnifname b0 xf,
       lookup_bone bonename (bones (cs_arma st)) = Some b0
       /\ bone_parent b0 = None
       /\ has_bone parentname (cs_arma st) = false
       /\ parentname ∈ parent_candidates self
       /\ new_bones st' = new_bones st ++ [(parentnifname, parentname)]
       /\ cs_arma st'
          = assign_parent bonename (Some parentname)
              (create_bone (cs_arma st) parentname xf (game (nif self))
                 (scale self)).2.
Proof.
  unfold connect_step.
  destruct (bones_to_parent st !! cs_i st) as [bonename|];
    cbn [subscript bind]; [|discriminate].
  destruct (lookup_bone bonename (bones (cs_arma st))) as [b0|] eqn:Hb;
    cbn [subscript bind]; [|discriminate].
  destruct (bone_parent b0) as [p|] eqn:Hp.
  { intros [= <-]. cbn. auto. }
  destruct (find_parent self bonename) as [[parentname parentnifname]|]
    eqn:Hf.
  2:{ intros [= <-]. cbn. auto. }
  destruct (bool_decide (parentname = "")).
  { intros [= <-]. cbn. auto. }
  destruct (has_bone parentname (cs_arma st)) eqn:Hhas; cbn [negb].
  - destruct (lookup_bone parentname (bones (cs_arma st))) as [parent|] eqn:Hl;
      cbn [subscript bind]; [|discriminate].
    intros [= <-]. cbn. left. split; [reflexivity|]. right.
    exists bonename, parentname, b0.
    rewrite (lookup_bone_name _ _ _ Hl). auto.
  - destruct (add_bone_to_arma_absent self (cs_arma st) parentname
                parentnifname Hhas) as [xf E].
    rewrite E. intros [= <-]. cbn. right.
    exists bonename, parentname, parentnifname, b0, xf.
    split; [exact Hb|]. split; [exact Hp|]. split; [exact Hhas|].
    split; [eapply find_parent_candidate; eassumption|].
    split; [reflexivity|]. now apply set_parent_created with (b0 := b0).
Qed.

(** The loop ends within the turns left, without raising, past the end
    of the work list, and keeps what every turn keeps. *)
Lemma connect_loop_run (self : NifImporter) (I : connect_state -> Prop) :
  (forall st st',
     queue_in_rig st -> I st ->
     cs_i st < length (bones_to_parent st) ->
     connect_step self st = Ok st' -> I st') ->
  forall fuel st,
    queue_in_rig st -> I st -> turns_left self st <= fuel ->
    exists st',
      connect_loop fuel self st = Some (Ok st')
      /\ I st' /\ queue_in_rig st'
      /\ length (bones_to_parent st') <= cs_i st'.
Proof.
  intros Hkeep fuel.
  induction fuel as [|fuel IH]; intros st Hq HI Hfuel; cbn [connect_loop];
    destruct (decide (cs_i st < length (bones_to_parent st))) as [Hlt|Hge].
  - unfold turns_left in Hfuel. lia.
  - rewrite bool_decide_eq_false_2 by exact Hge.
    exists st. repeat split; auto. lia.
  - rewrite bool_decide_eq_true_2 by exact Hlt.
    destruct (connect_step_walk self st Hq Hlt) as (st1 & E & Hi & Hstep).
    rewrite E. apply IH.
    + eapply walk_step_queue; eassumption.
    + eapply Hkeep; eassumption.
    + pose proof (walk_step_turns self st st1 Hstep Hi Hlt). lia.
  - rewrite bool_decide_eq_false_2 by exact Hge.
    exists st. repeat split; auto. lia.
Qed.

(** A turn is a step of the walk. *)
Lemma connect_step_is_walk (self : NifImporter) (st st' : connect_state) :
  queue_in_rig st ->
  cs_i st < length (bones_to_parent st) ->
  connect_step self st = Ok st' ->
  cs_i st' = S (cs_i st) /\ walk_step self st st'.
Proof.
  intros Hq Hlt E.
  destruct (connect_step_walk self st Hq Hlt) as (st1 & E1 & Hi & Hstep).
  rewrite E in E1. injection E1 as <-. auto.
Qed.

(** The state in which the loop of [connect_armature] ends keeps what
    every turn keeps; the armature and the list of the bones created
    are read from it. *)
Lemma connect_armature_run (self : NifImporter) (arma : Armature)
    (I : connect_state -> Prop) :
  (forall st st',
     queue_in_rig st -> I st ->
     cs_i st < length (bones_to_parent st) ->
     connect_step self st = Ok st' -> I st') ->
  I (connect_init arma) ->
  exists st,
    I st /\ queue_in_rig st
    /\ length (bones_to_parent st) <= cs_i st
    /\ connect_armature self arma
       = Some (Ok (set_all_bone_poses self (cs_arma st) (nif self),
                   collisions st))
    /\ connect_armature_log self arma = Some (Ok (new_bones st)).
Proof.
  intros Hkeep Hinit.
  destruct (connect_loop_run self I Hkeep (connect_fuel self arma)
              (connect_init arma) (connect_init_queue arma) Hinit
              (connect_init_turns self arma)) as (st & E & HI & Hq & Hend).
  exists st. repeat split; try assumption.
  - unfold connect_armature. now rewrite E.
  - unfold connect_armature_log. now rewrite E.
Qed.

Lemma lookup_bone_set_bone_poses (self : NifImporter) (niffile : NifFile)
    (bonelist : list (string * string)) (arma : Armature) (name : string) :
  rest_of <$> lookup_bone name
                (bones (set_bone_poses self arma niffile bonelist))
  = rest_of <$> lookup_bone name (bones arma).
Proof.
  unfold set_bone_poses. revert arma.
  induction bonelist as [|[bn blname] l IH]; intros arma; cbn; [reflexivity|].
  rewrite IH. unfold set_bone_pose.
  destruct (nodes niffile !! bn); [|reflexivity].
  destruct (_ && _); [|reflexivity].
  unfold set_pose_matrix. cbn.
  destruct (decide (name = blname)) as [->|Hne].
  - rewrite lookup_update_bone_eq by reflexivity.
    now destruct (lookup_bone blname (bones arma)).
  - now rewrite lookup_update_bone_ne.
Qed.



End Walk.

(** ** The properties on the samples *)

Section Samples.
#[local] Existing Instance Diag.host.
Import Sample.

(** *** Rig compatibility *)

(** C1, counterexample: the one bone the shape uses is in the rig two
    above its bind position, so no bone matches and the one offset is
    consistent; the result is [(None, None)], not the rig with an
    offset. *)
Lemma find_compatible_arma_offset_counterexample :
  nodes_loaded matcher !! obj_name body_obj = Some body
  /\ bone_names body = ["Spine"]
  /\ bone_matches matcher body_obj body high_rig "Spine" = false
  /\ find_compatible_arma matcher body_obj [high_rig] = Ok (None, None)
  /\ forall D, find_compatible_arma matcher body_obj [high_rig]
               <> Ok (Some high_rig, Some D).
Proof.
  assert (find_compatible_arma matcher body_obj [high_rig] = Ok (None, None))
    as E by (vm_compute; reflexivity).
  repeat split; try (vm_compute; reflexivity).
  intros D. rewrite E. discriminate.
Qed.

Lemma find_compatible_arma_no_offset_witness :
  nodes_loaded matcher !! obj_name body_obj = Some body
  /\ Exists (fun b => bone_matches matcher body_obj body high_rig b = false)
       (bone_names body)
  /\ find_compatible_arma matcher body_obj [high_rig; fitting_rig]
     = Ok (None, None).
Proof.
  assert (nodes_loaded matcher !! obj_name body_obj = Some body) as Hl
    by (vm_compute; reflexivity).
  assert (Exists (fun b => bone_matches matcher body_obj body high_rig b
                           = false) (bone_names body)) as Hex
    by (apply Exists_cons_hd; vm_compute; reflexivity).
  split; [exact Hl|]. split; [exact Hex|].
  exact (proj1 (find_compatible_arma_no_offset matcher body_obj body high_rig
                  [fitting_rig] Hl Hex)).
Defined.

Lemma find_compatible_arma_first_only_witness :
  nodes_loaded matcher !! obj_name body_obj = Some body
  /\ find_compatible_arma matcher body_obj [high_rig; fitting_rig]
     = find_compatible_arma matcher body_obj [high_rig].
Proof.
  assert (nodes_loaded matcher !! obj_name body_obj = Some body) as Hl
    by (vm_compute; reflexivity).
  split; [exact Hl|].
  exact (proj2 (find_compatible_arma_first_only matcher body_obj body high_rig
                  [fitting_rig] Hl)).
Defined.

(** The rig that fits is found when it comes first, and not when it
    comes second. *)
Example sample_first_rig_wins :
  find_compatible_arma matcher body_obj [fitting_rig; high_rig]
  = Ok (Some fitting_rig, None)
  /\ find_compatible_arma matcher body_obj [high_rig; fitting_rig]
     = Ok (None, None).
Proof. split; vm_compute; reflexivity. Qed.

(** *** Shape placement *)

(** C2: the code does not leave the inverse of the global-to-skin
    transform as it is.  On a shape with such a transform (the
    translation by 1) that binds its bones three below the reference
    skeleton, seen through the transform, an importer that extends
    from the reference skeleton composes the offset 3 with the
    inverse: [calc_obj_transform] returns the translation by 2, where
    the inverse is the translation by -1. *)
Theorem calc_obj_transform_global_to_skin_composed :
  is_NiShape head = true
  /\ has_skin_instance head = true
  /\ has_global_to_skin head = true
  /\ invertible (global_to_skin head) = true
  /\ create_bones extender = true
  /\ reference_skel extender = Some skeleton
  /\ calc_obj_transform extender head 1 = Ok (Diag.translate 0 0 2)
  /\ apply_scale_xf (inverted (global_to_skin head)) 1
     = Diag.translate 0 0 (-1)
  /\ calc_obj_transform extender head 1
     <> Ok (apply_scale_xf (inverted (global_to_skin head)) 1).
Proof.
  repeat split; try (vm_compute; reflexivity).
  vm_compute. discriminate.
Qed.

(** Without a reference skeleton the inverse is what is returned. *)
Example sample_global_to_skin_alone :
  calc_obj_transform plain head 1
  = Ok (apply_scale_xf (inverted (global_to_skin head)) 1).
Proof. vm_compute. reflexivity. Qed.

Lemma calc_obj_transform_no_used_bones_witness :
  is_NiShape boneless = true
  /\ has_skin_instance boneless = true
  /\ has_global_to_skin boneless = false
  /\ get_used_bones boneless = []
  /\ calc_obj_transform extender boneless 1 = Raise TypeError.
Proof.
  split; [reflexivity|]. split; [reflexivity|]. split; [reflexivity|].
  split; [reflexivity|].
  exact (calc_obj_transform_no_used_bones extender boneless 1
           eq_refl eq_refl eq_refl eq_refl).
Defined.

(** *** Pose transforms *)

(** C5, counterexample: the file has the node and the rig has the bone
    of the pair, but the node is the root of the file: the pose of
    the bone stays at height 1, where the node is at height 0. *)
Lemma set_bone_poses_root_counterexample :
  nodes skeleton !! "Scene Root" = Some (node "Scene Root" None 0)
  /\ has_bone "Scene Root" rooted_rig = true
  /\ pose_of "Scene Root"
       (set_bone_poses plain rooted_rig skeleton
          [("Scene Root", "Scene Root")])
     = Some (Diag.translate 0 0 1)
  /\ get_pose_blender_xf (xform_to_global (node "Scene Root" None 0))
       (game (nif plain)) (scale plain)
     = Diag.translate 0 0 0
  /\ pose_of "Scene Root"
       (set_bone_poses plain rooted_rig skeleton
          [("Scene Root", "Scene Root")])
     <> Some (get_pose_blender_xf (xform_to_global (node "Scene Root" None 0))
                (game (nif plain)) (scale plain)).
Proof.
  repeat split; try (vm_compute; reflexivity).
  vm_compute. discriminate.
Qed.

Lemma set_bone_poses_overwrites_witness :
  nodes skeleton !! "Spine" = Some (node "Spine" (Some "Scene Root") 10)
  /\ has_bone "Spine" rooted_rig = true
  /\ blockname (node "Spine" (Some "Scene Root") 10) = "NiNode"
  /\ node_name (node "Spine" (Some "Scene Root") 10) <> rootName skeleton
  /\ set_bone_poses plain rooted_rig skeleton
       ([("Scene Root", "Scene Root")] ++ ("Spine", "Spine")
        :: [("Neck", "Neck")])
     = set_bone_poses plain
         (set_bone_poses plain rooted_rig skeleton
            ([("Scene Root", "Scene Root")] ++ [("Spine", "Spine")]))
         skeleton [("Neck", "Neck")]
  /\ pose_of "Spine"
       (set_bone_poses plain rooted_rig skeleton
          ([("Scene Root", "Scene Root")] ++ [("Spine", "Spine")]))
     = Some (get_pose_blender_xf
               (xform_to_global (node "Spine" (Some "Scene Root") 10))
               (game (nif plain)) (scale plain)).
Proof.
  assert (nodes skeleton !! "Spine" = Some (node "Spine" (Some "Scene Root") 10))
    as Hn by (vm_compute; reflexivity).
  assert (node_name (node "Spine" (Some "Scene Root") 10) <> rootName skeleton)
    as Hr by (vm_compute; discriminate).
  split; [exact Hn|]. split; [reflexivity|]. split; [reflexivity|].
  split; [exact Hr|].
  exact (set_bone_poses_overwrites plain rooted_rig skeleton
           [("Scene Root", "Scene Root")] [("Neck", "Neck")] "Spine" "Spine"
           (node "Spine" (Some "Scene Root") 10) Hn eq_refl eq_refl Hr).
Defined.

(** *** The hierarchy walk *)



Lemma connect_armature_terminates_witness :
  ~ (scale cyclic_importer == 0)%Q
  /\ exists r, connect_armature cyclic_importer a_rig = Some r.
Proof.
  assert (~ (scale cyclic_importer == 0)%Q) as Hs
    by (intros E; vm_compute in E; discriminate E).
  split; [exact Hs|].
  exact (connect_armature_terminates cyclic_importer a_rig Hs).
Defined.

(** C4, counterexample: on the file in which [A] and [B] are each the
    parent of the other, the walk from [A] creates [B] as the parent of
    [A], finds [A] in the rig as the parent of [B], which is refused,
    and returns: no error is reported. *)
Lemma connect_armature_cycle_counterexample :
  (ref_name <$> (nodes cyclic_file !! "A" ≫= node_parent)) = Some "B"
  /\ (ref_name <$> (nodes cyclic_file !! "B" ≫= node_parent)) = Some "A"
  /\ connect_armature cyclic_importer a_rig = Some (Ok (cyclic_rig, ∅))
  /\ map bone_name (bones cyclic_rig) ≡ₚ ["A"; "B"]
  /\ (bone_parent <$> lookup_bone "A" (bones cyclic_rig)) = Some (Some "B")
  /\ (bone_parent <$> lookup_bone "B" (bones cyclic_rig)) = Some None
  /\ forall e, connect_armature cyclic_importer a_rig <> Some (Raise e).
Proof.
  assert (connect_armature cyclic_importer a_rig = Some (Ok (cyclic_rig, ∅)))
    as Hrun by (vm_compute; reflexivity).
  repeat split; try (vm_compute; reflexivity).
  intros e. rewrite Hrun. discriminate.
Qed.

(** *** Skeleton export *)

(** Three bones without parents are written as a chain. *)
Example sample_parentindices :
  write_parentindices [] [bone "A" 1; bone "B" 2; bone "C" 3]
  = [{| attrib := [("name", "parentIndices"); ("numelements", "3")];
        text := "-1 0 1" |}]
  /\ armature_parent_indices [bone "A" 1; bone "B" 2; bone "C" 3]
     = [-1; -1; -1]%Z.
Proof. split; vm_compute; reflexivity. Qed.

End Samples.

(** * Further properties *)

(** ** The hierarchy walk, turn by turn *)

Section WalkMore.
Context `{Host}.

(** *** What the walk creates *)

(** X1: the bones of the armature after a pass of [connect_armature]
    are the bones it had and the bones the pass created, which the list
    [new_bones] names; each bone created has a name that a node of the
    nif or of the reference skeleton gives to a parent and that the
    armature lacked, no two have the same name, and there are no more
    of them than nodes in the two files. *)
Theorem connect_armature_creates (self : NifImporter) (arma arma' : Armature)
    (colls : gset string) (log : list (string * string)) :
  ~ (scale self == 0)%Q ->
  connect_armature self arma = Some (Ok (arma', colls)) ->
  connect_armature_log self arma = Some (Ok log) ->
  map bone_name (bones arma') ≡ₚ map bone_name (bones arma) ++ log.*2
  /\ NoDup log.*2
  /\ Forall (fun n => n ∈ parent_candidates self
                      /\ n ∉ map bone_name (bones arma)) log.*2
  /\ length log
     <= size (nodes (nif self))
        + from_option (fun skel => size (nodes skel)) 0
            (reference_skel self).
Proof.
  intros _ Hrun Hlog.
  destruct (connect_armature_run self arma
              (fun st =>
                 map bone_name (bones (cs_arma st))
                 = map bone_name (bones arma) ++ (new_bones st).*2
                 /\ NoDup (new_bones st).*2
                 /\ Forall (fun n => n ∈ parent_candidates self
                                     /\ n ∉ map bone_name (bones arma))
                      (new_bones st).*2))
    as (st & (En & Hnd & Hall) & _ & _ & E & El).
  - intros st st' _ (En & Hnd & Hall) _ Est.
    destruct (connect_step_cases self st st' Est)
      as [[El [Ea | (bonename & parentname & b0 & _ & _ & _ & Ea)]]
         | (bonename & parentname & parentnifname & b0 & xf
            & _ & _ & Hhas & Hcand & El & Ea)].
    + rewrite El, Ea. auto.
    + rewrite El, Ea, set_parent_names. auto.
    + rewrite El, Ea, assign_parent_names, create_bone_names, En, fmap_app.
      cbn [fmap list_fmap snd].
      assert (parentname ∉ map bone_name (bones (cs_arma st))) as Hnot.
      { intros Hin. apply has_bone_true in Hin. congruence. }
      rewrite En in Hnot.
      split; [now rewrite app_assoc|]. split.
      * apply NoDup_app. split; [exact Hnd|]. split; [|apply NoDup_singleton].
        intros x Hx ->%list_elem_of_singleton.
        apply Hnot, elem_of_app. auto.
      * apply Forall_app. split; [exact Hall|].
        apply Forall_singleton. split; [exact Hcand|].
        intros Hin. apply Hnot, elem_of_app. auto.
  - cbn. rewrite app_nil_r.
    split; [reflexivity|]. split; [constructor | constructor].
  - rewrite E in Hrun. injection Hrun as <- _.
    rewrite El in Hlog. injection Hlog as <-.
    unfold set_all_bone_poses. rewrite set_bone_poses_names, En.
    split; [reflexivity|]. split; [exact Hnd|]. split; [exact Hall|].
    rewrite <- (length_fmap snd).
    etransitivity; [|apply parent_candidates_length].
    apply submseteq_length, NoDup_submseteq; [exact Hnd|].
    intros x Hx. exact (proj1 (proj1 (Forall_forall _ _) Hall x Hx)).
Qed.

(** X2: when no two bones of the armature have the same name, no two
    have after a pass of [connect_armature]. *)
Theorem connect_armature_unique_names (self : NifImporter)
    (arma arma' : Armature) (colls : gset string) :
  ~ (scale self == 0)%Q ->
  connect_armature self arma = Some (Ok (arma', colls)) ->
  NoDup (map bone_name (bones arma)) ->
  NoDup (map bone_name (bones arma')).
Proof.
  intros _ Hrun Hnd.
  destruct (connect_armature_walk self arma
              (fun st => NoDup (map bone_name (bones (cs_arma st)))))
    as (st & Hst & E).
  - intros st st' Hst
      [_ Ea | ? ? ? _ _ _ _ Ea | ? parentname ? ? _ _ Hhas _ _ Ea];
      rewrite Ea.
    + exact Hst.
    + now rewrite set_parent_names.
    + rewrite set_parent_names, create_bone_names.
      apply NoDup_app. split; [exact Hst|]. split; [|apply NoDup_singleton].
      intros x Hx ->%list_elem_of_singleton.
      apply has_bone_true in Hx. congruence.
  - exact Hnd.
  - rewrite E in Hrun. injection Hrun as <- _.
    unfold set_all_bone_poses. now rewrite set_bone_poses_names.
Qed.

(** *** What the walk keeps *)

Lemma kept_refl (b : Bone) : kept b b.
Proof. unfold kept. auto. Qed.

Lemma kept_trans (a b c : Bone) : kept a b -> kept b c -> kept a c.
Proof.
  unfold kept. intros (N1 & M1 & S1 & P1) (N2 & M2 & S2 & P2).
  repeat split; try congruence.
  intros Ha. rewrite P2; [auto|]. rewrite P1; auto.
Qed.

Lemma set_parent_kept (bonename : string) (parent : option string)
    (arma : Armature) (b0 : Bone) (name : string) (b : Bone) :
  lookup_bone bonename (bones arma) = Some b0 ->
  bone_parent b0 = None ->
  lookup_bone name (bones arma) = Some b ->
  exists b', lookup_bone name (bones (set_parent bonename parent arma))
             = Some b'
             /\ kept b b'.
Proof.
  intros Hl0 Hp0 Hl.
  destruct (set_parent_cases bonename parent arma) as [-> | ->].
  { exists b. split; [exact Hl | apply kept_refl]. }
  destruct (decide (name = bonename)) as [->|Hne].
  - assert (b = b0) as -> by congruence.
    destruct (lookup_bone_assign_parent_eq bonename parent arma b0 Hl0)
      as (b' & Hl' & _ & En & Em & _ & Es).
    exists b'. split; [exact Hl'|].
    unfold kept. repeat split; try assumption. congruence.
  - rewrite lookup_bone_assign_parent_ne by exact Hne.
    exists b. split; [exact Hl | apply kept_refl].
Qed.

(** A step keeps every bone. *)
Lemma walk_step_kept (self : NifImporter) (st st' : connect_state)
    (name : string) (b : Bone) :
  walk_step self st st' ->
  lookup_bone name (bones (cs_arma st)) = Some b ->
  exists b', lookup_bone name (bones (cs_arma st')) = Some b' /\ kept b b'.
Proof.
  intros [_ Ea | bonename parentname b0 Hl Hp _ _ Ea
         | bonename parentname b0 xf Hl Hp _ _ _ Ea] Hk; rewrite Ea.
  - exists b. split; [exact Hk | apply kept_refl].
  - eapply set_parent_kept; eassumption.
  - eapply set_parent_kept.
    + apply lookup_bone_create_bone. exact Hl.
    + exact Hp.
    + apply lookup_bone_create_bone. exact Hk.
Qed.

Lemma rest_of_set_bone_poses (self : NifImporter) (niffile : NifFile)
    (bonelist : list (string * string)) (arma : Armature) :
  map rest_of (bones (set_bone_poses self arma niffile bonelist))
  = map rest_of (bones arma).
Proof.
  unfold set_bone_poses. revert arma.
  induction bonelist as [|[bn blname] l IH]; intros arma; cbn; [reflexivity|].
  rewrite IH. unfold set_bone_pose.
  destruct (nodes niffile !! bn); [|reflexivity].
  destruct (_ && _); [|reflexivity].
  unfold set_pose_matrix. cbn. now apply update_bone_map.
Qed.

Lemma set_bone_poses_kept (self : NifImporter) (niffile : NifFile)
    (bonelist : list (string * string)) (arma : Armature) (name : string)
    (b : Bone) :
  lookup_bone name (bones arma) = Some b ->
  exists b',
    lookup_bone name (bones (set_bone_poses self arma niffile bonelist))
    = Some b'
    /\ rest_of b' = rest_of b.
Proof.
  intros Hk.
  pose proof (lookup_bone_set_bone_poses self niffile bonelist arma name) as E.
  rewrite Hk in E.
  destruct (lookup_bone name
              (bones (set_bone_poses self arma niffile bonelist))) as [b'|];
    cbn in E; [|discriminate].
  exists b'. split; [reflexivity | congruence].
Qed.

(** X3: a pass of [connect_armature] removes no bone and changes none
    but in its pose and, for a bone without a parent, its parent: the
    bone of every name the armature had is there afterwards, with its
    bind transform and, when it had one, its parent. *)
Theorem connect_armature_keeps_bones (self : NifImporter)
    (arma arma' : Armature) (colls : gset string) (name : string)
    (b : Bone) :
  ~ (scale self == 0)%Q ->
  connect_armature self arma = Some (Ok (arma', colls)) ->
  lookup_bone name (bones arma) = Some b ->
  exists b', lookup_bone name (bones arma') = Some b' /\ kept b b'.
Proof.
  intros _ Hrun Hk.
  destruct (connect_armature_walk self arma
              (fun st => exists b1,
                 lookup_bone name (bones (cs_arma st)) = Some b1
                 /\ kept b b1))
    as (st & (b1 & Hk1 & Hkept1) & E).
  - intros st st' (b1 & Hk1 & Hkept1) Hstep.
    destruct (walk_step_kept self st st' name b1 Hstep Hk1)
      as (b2 & Hk2 & Hkept2).
    exists b2. split; [exact Hk2 | eapply kept_trans; eassumption].
  - exists b. split; [exact Hk | apply kept_refl].
  - rewrite E in Hrun. injection Hrun as <- _.
    unfold set_all_bone_poses.
    match goal with
    | |- context [set_bone_poses self ?a ?f ?l] =>
        destruct (set_bone_poses_kept self f l a name b1 Hk1)
          as (b2 & Hk2 & Er)
    end.
    exists b2. split; [exact Hk2|].
    eapply kept_trans; [exact Hkept1|].
    unfold rest_of in Er. injection Er as En Ep Em Es.
    unfold kept. repeat split; congruence.
Qed.

(** *** Every bone gets the parent there is *)

(** The walk up the parents finds what it found with more fuel, and
    in a collection that has the parents it passed. *)
Lemma on_parent_chain_fuel (l : list Bone) (name : string) (fuel fuel' : nat)
    (start : string) :
  fuel <= fuel' ->
  on_parent_chain fuel l name start = true ->
  on_parent_chain fuel' l name start = true.
Proof.
  revert fuel' start. induction fuel as [|fuel IH]; intros fuel' start Hle;
    cbn; [discriminate|].
  destruct fuel' as [|fuel']; [lia|]. cbn.
  destruct (decide (start = name)); [reflexivity|].
  destruct (lookup_bone start l ≫= bone_parent) as [p|]; [|discriminate].
  apply IH. lia.
Qed.

Lemma on_parent_chain_parents (l l' : list Bone) (name : string) (fuel : nat)
    (start : string) :
  (forall n q, lookup_bone n l ≫= bone_parent = Some q ->
               lookup_bone n l' ≫= bone_parent = Some q) ->
  on_parent_chain fuel l name start = true ->
  on_parent_chain fuel l' name start = true.
Proof.
  intros Hpar. revert start. induction fuel as [|fuel IH]; intros start; cbn;
    [discriminate|].
  destruct (decide (start = name)); [reflexivity|].
  destruct (lookup_bone start l ≫= bone_parent) as [p|] eqn:Hp;
    [|discriminate].
  rewrite (Hpar _ _ Hp). apply IH.
Qed.

(** What Blender refuses it refuses in an armature that has grown. *)
Lemma parent_refused_grown (self : NifImporter) (arma arma' : Armature)
    (name : string) :
  grown arma arma' ->
  parent_refused self arma name -> parent_refused self arma' name.
Proof.
  intros (Hpar & Hhas & Hlen) (p & pn & Hf & Hp & Hc).
  exists p, pn. split; [exact Hf|]. split; [auto|].
  eapply on_parent_chain_fuel; [exact Hlen|].
  eapply on_parent_chain_parents; eassumption.
Qed.

Lemma lookup_parent_some (n q : string) (l : list Bone) :
  lookup_bone n l ≫= bone_parent = Some q <->
  exists b, lookup_bone n l = Some b /\ bone_parent b = Some q.
Proof.
  destruct (lookup_bone n l) as [b|]; cbn; split.
  - eauto.
  - now intros (b' & [= <-] & Hq).
  - discriminate.
  - now intros (b' & [=] & _).
Qed.

Lemma set_parent_grown (bonename : string) (parent : option string)
    (arma : Armature) (b0 : Bone) :
  lookup_bone bonename (bones arma) = Some b0 ->
  bone_parent b0 = None ->
  grown arma (set_parent bonename parent arma).
Proof.
  intros Hl0 Hp0. split; [|split].
  - intros n q (b & Hl & Hq)%lookup_parent_some.
    apply lookup_parent_some. exists b. split; [|exact Hq].
    eapply set_parent_keeps_parent; eassumption.
  - intros n Hn. apply has_bone_true. rewrite set_parent_names.
    now apply has_bone_true.
  - rewrite <- !(length_map bone_name), set_parent_names. lia.
Qed.

Lemma create_bone_grown (arma : Armature) (name game : string) (xf : Matrix)
    (s : Q) :
  grown arma (create_bone arma name xf game s).2.
Proof.
  split; [|split].
  - intros n q (b & Hl & Hq)%lookup_parent_some.
    apply lookup_parent_some. exists b. split; [|exact Hq].
    now apply lookup_bone_create_bone.
  - intros n Hn. apply has_bone_true. rewrite create_bone_names.
    apply elem_of_app. left. now apply has_bone_true.
  - unfold create_bone. cbn. rewrite length_app. lia.
Qed.

Lemma grown_trans (a b c : Armature) : grown a b -> grown b c -> grown a c.
Proof.
  intros (P1 & H1 & L1) (P2 & H2 & L2). split; [|split]; auto. lia.
Qed.

Lemma grown_refl (a : Armature) : grown a a.
Proof. split; [|split]; auto. Qed.

(** The armature grows in a step. *)
Lemma walk_step_grown (self : NifImporter) (st st' : connect_state) :
  walk_step self st st' -> grown (cs_arma st) (cs_arma st').
Proof.
  intros [_ Ea | bonename parentname b0 Hl Hp _ _ Ea
         | bonename parentname b0 xf Hl Hp _ _ _ Ea]; rewrite Ea.
  - apply grown_refl.
  - eapply set_parent_grown; eassumption.
  - eapply grown_trans; [apply create_bone_grown|].
    eapply set_parent_grown; [|exact Hp].
    apply lookup_bone_create_bone. exact Hl.
Qed.

Lemma set_bone_poses_grown (self : NifImporter) (niffile : NifFile)
    (bonelist : list (string * string)) (arma : Armature) :
  grown arma (set_bone_poses self arma niffile bonelist).
Proof.
  split; [|split].
  - intros n q (b & Hl & Hq)%lookup_parent_some.
    apply lookup_parent_some.
    pose proof (lookup_bone_set_bone_poses self niffile bonelist arma n) as E.
    rewrite Hl in E.
    destruct (lookup_bone n
                (bones (set_bone_poses self arma niffile bonelist)))
      as [b'|]; cbn in E; [|discriminate].
    exists b'. split; [reflexivity|].
    unfold rest_of in E. injection E as _ Ep _ _. congruence.
  - intros n Hn. apply has_bone_true. rewrite set_bone_poses_names.
    now apply has_bone_true.
  - rewrite <- !(length_map bone_name), set_bone_poses_names. lia.
Qed.

(** In an armature that has grown, a bone that is settled stays so. *)
Lemma settled_grown (self : NifImporter) (arma arma' : Armature)
    (name : string) :
  grown arma arma' ->
  has_bone name arma = true ->
  settled self arma name -> settled self arma' name.
Proof.
  intros Hg Hin Hs b' Hl' Hp'.
  unfold has_bone in Hin.
  destruct (lookup_bone name (bones arma)) as [b|] eqn:Hl; [|discriminate].
  destruct (bone_parent b) as [q|] eqn:Hq.
  - exfalso.
    assert (lookup_bone name (bones arma') ≫= bone_parent = Some q) as E.
    { apply (proj1 Hg). rewrite Hl. exact Hq. }
    rewrite Hl' in E. cbn in E. congruence.
  - destruct (Hs b Hl Hq) as [Hno | Hr]; [auto|].
    right. eapply parent_refused_grown; eassumption.
Qed.

(** A turn settles the bone at hand. *)
Lemma connect_step_settles (self : NifImporter) (st st' : connect_state)
    (name : string) :
  bones_to_parent st !! cs_i st = Some name ->
  connect_step self st = Ok st' ->
  settled self (cs_arma st') name.
Proof.
  intros Hname. unfold connect_step. rewrite Hname. cbn [subscript bind].
  destruct (lookup_bone name (bones (cs_arma st))) as [arma_bone|] eqn:Hb;
    cbn [subscript bind]; [|discriminate].
  destruct (bone_parent arma_bone) as [p|] eqn:Hp.
  { intros [= <-] b Hl Hn. cbn in Hl. congruence. }
  unfold settled, no_parent_found.
  destruct (find_parent self name) as [[parentname parentnifname]|] eqn:Hf.
  2:{ intros [= <-] b Hl Hn. now left. }
  destruct (bool_decide (parentname = "")) eqn:Hempty.
  { intros [= <-] b Hl Hn. left. now apply bool_decide_eq_true_1 in Hempty. }
  destruct (has_bone parentname (cs_arma st)) eqn:Hhas; cbn [negb].
  - destruct (lookup_bone parentname (bones (cs_arma st))) as [parent|] eqn:Hpl;
      cbn [subscript bind]; [|discriminate].
    rewrite (lookup_bone_name _ _ _ Hpl).
    intros [= <-] b Hl Hn. cbn [cs_arma] in Hl |- *.
    unfold set_parent in Hl |- *.
    destruct (on_parent_chain (length (bones (cs_arma st)))
                (bones (cs_arma st)) name parentname) eqn:Hc.
    + right. exists parentname, parentnifname. auto.
    + exfalso.
      destruct (lookup_bone_assign_parent_eq name (Some parentname)
                  (cs_arma st) arma_bone Hb) as (b1 & Hl1 & Hp1 & _).
      congruence.
  - destruct (add_bone_to_arma_absent self (cs_arma st) parentname
                parentnifname Hhas) as [xf E].
    rewrite E. intros [= <-] b Hl Hn. exfalso.
    change (lookup_bone name
              (bones (set_parent name (Some parentname)
                        (create_bone (cs_arma st) parentname xf
                           (game (nif self)) (scale self)).2)) = Some b)
      in Hl.
    rewrite (set_parent_created name parentname (game (nif self)) xf
               (scale self) (cs_arma st) arma_bone Hb Hhas) in Hl.
    destruct (lookup_bone_assign_parent_eq name (Some parentname)
                (create_bone (cs_arma st) parentname xf (game (nif self))
                   (scale self)).2 arma_bone) as (b1 & Hl1 & Hp1 & _);
      [now apply lookup_bone_create_bone|].
    congruence.
Qed.

(** The work list is the list of the names of the bones, and the bones
    whose turn is over are settled. *)
Lemma connect_armature_settles (self : NifImporter) (arma : Armature) :
  exists st,
    (forall name, name ∈ map bone_name (bones (cs_arma st)) ->
                  settled self (cs_arma st) name)
    /\ connect_armature self arma
       = Some (Ok (set_all_bone_poses self (cs_arma st) (nif self),
                   collisions st)).
Proof.
  destruct (connect_armature_run self arma
              (fun st =>
                 bones_to_parent st = map bone_name (bones (cs_arma st))
                 /\ forall j name,
                      j < cs_i st -> bones_to_parent st !! j = Some name ->
                      settled self (cs_arma st) name))
    as (st & [Eq Hs] & _ & Hend & E & _).
  - intros st st' Hq [Eq Hs] Hlt Est.
    destruct (connect_step_is_walk self st st' Hq Hlt Est) as [Hi Hstep].
    assert (forall j name,
              bones_to_parent st !! j = Some name ->
              bones_to_parent st' !! j = Some name) as Hmono.
    { intros j name Hj.
      destruct Hstep as [E' _ | ? ? ? _ _ _ E' _ | ? ? ? ? _ _ _ _ E' _];
        rewrite E'; try exact Hj.
      rewrite lookup_app_l; [exact Hj|]. now apply lookup_lt_Some in Hj. }
    split.
    + destruct Hstep as [E' Ea | ? ? ? _ _ _ E' Ea | ? ? ? ? _ _ _ _ E' Ea];
        rewrite E', Ea.
      * exact Eq.
      * now rewrite set_parent_names.
      * now rewrite set_parent_names, create_bone_names, Eq.
    + rewrite Hi. intros j name Hj Hname.
      destruct (decide (j = cs_i st)) as [->|Hne].
      * destruct (lookup_lt_is_Some_2 _ _ Hlt) as [name' Hname'].
        rewrite (Hmono _ _ Hname') in Hname. injection Hname as <-.
        eapply connect_step_settles; eassumption.
      * assert (j < cs_i st) as Hj' by lia.
        destruct (lookup_lt_is_Some_2 (bones_to_parent st) j) as [name' Hname'];
          [lia|].
        rewrite (Hmono _ _ Hname') in Hname. injection Hname as <-.
        apply (settled_grown self (cs_arma st));
          [exact (walk_step_grown self st st' Hstep) | | eauto].
        apply has_bone_true.
        exact (proj1 (Forall_lookup _ _) Hq _ _ Hname').
  - split; [reflexivity|]. cbn. intros j name Hj. lia.
  - exists st. split; [|exact E].
    intros name Hin. rewrite <- Eq in Hin.
    apply list_elem_of_lookup in Hin as [j Hj].
    apply (Hs j name); [|exact Hj].
    apply lookup_lt_Some in Hj. lia.
Qed.


(** *** Collisions *)

Lemma connect_step_collisions (self : NifImporter) (st st' : connect_state)
    (key : string) :
  connect_step self st = Ok st' ->
  key ∈ collisions st' ->
  key ∈ collisions st
  \/ exists node, nodes (nif self) !! key = Some node
                  /\ collision_object node = true.
Proof.
  unfold connect_step.
  destruct (bones_to_parent st !! cs_i st) as [bonename|];
    cbn [subscript bind]; [|discriminate].
  destruct (lookup_bone bonename (bones (cs_arma st))) as [arma_bone|];
    cbn [subscript bind]; [|discriminate].
  destruct (bone_parent arma_bone).
  { intros [= <-]. cbn. auto. }
  assert (key ∈ match nodes (nif self) !! nif_name self bonename with
                | Some thisnode =>
                    if collision_object thisnode
                    then {[nif_name self bonename]} ∪ collisions st
                    else collisions st
                | None => collisions st
                end ->
          key ∈ collisions st
          \/ exists node, nodes (nif self) !! key = Some node
                          /\ collision_object node = true) as Hfound.
  { destruct (nodes (nif self) !! nif_name self bonename) as [thisnode|] eqn:Hn;
      [|auto].
    destruct (collision_object thisnode) eqn:Hc; [|auto].
    intros [->%elem_of_singleton | Hin]%elem_of_union; eauto. }
  destruct (find_parent self bonename) as [[parentname parentnifname]|].
  2:{ intros [= <-]. exact Hfound. }
  destruct (bool_decide (parentname = "")).
  { intros [= <-]. exact Hfound. }
  destruct (has_bone parentname (cs_arma st)); cbn [negb].
  - destruct (lookup_bone parentname (bones (cs_arma st)));
      cbn [subscript bind]; [|discriminate].
    intros [= <-]. exact Hfound.
  - destruct (add_bone_to_arma self (cs_arma st) parentname parentnifname).
    intros [= <-]. exact Hfound.
Qed.

(** X5: the collisions [connect_armature] returns are nodes of the nif
    that have a collision object. *)
Theorem connect_armature_collisions (self : NifImporter)
    (arma arma' : Armature) (colls : gset string) (key : string) :
  ~ (scale self == 0)%Q ->
  connect_armature self arma = Some (Ok (arma', colls)) ->
  key ∈ colls ->
  exists node, nodes (nif self) !! key = Some node
               /\ collision_object node = true.
Proof.
  intros _ Hrun Hkey.
  destruct (connect_armature_run self arma
              (fun st => forall key, key ∈ collisions st ->
                 exists node, nodes (nif self) !! key = Some node
                              /\ collision_object node = true))
    as (st & Hst & _ & _ & E & _).
  - intros st st' _ Hst _ Est k Hk.
    destruct (connect_step_collisions self st st' k Est Hk); auto.
  - cbn. intros k Hk. now apply elem_of_empty in Hk.
  - rewrite E in Hrun. injection Hrun as _ <-. auto.
Qed.

End WalkMore.

(** ** Pose transforms of a whole rig *)

Section PoseMore.
Context `{Host}.

(** X6: [set_bone_poses] changes nothing but poses: the bones, their
    order, names, parents and bind transforms and the transform of the
    armature are as before. *)
Theorem set_bone_poses_frame (self : NifImporter) (arma : Armature)
    (niffile : NifFile) (bonelist : list (string * string)) :
  map rest_of (bones (set_bone_poses self arma niffile bonelist))
  = map rest_of (bones arma)
  /\ PYN_TRANSFORM (set_bone_poses self arma niffile bonelist)
     = PYN_TRANSFORM arma.
Proof.
  split; [apply rest_of_set_bone_poses|].
  unfold set_bone_poses. revert arma.
  induction bonelist as [|[bn blname] l IH]; intros arma; cbn; [reflexivity|].
  rewrite IH. unfold set_bone_pose.
  destruct (nodes niffile !! bn); [|reflexivity].
  now destruct (_ && _).
Qed.

(** The pose a pair sets is the pose at the end when no later pair
    names the bone. *)
Lemma pose_of_set_bone_poses_hit (self : NifImporter) (arma : Armature)
    (niffile : NifFile) (pre post : list (string * string))
    (bn blname : string) (nif_bone : NiNode) :
  nodes niffile !! bn = Some nif_bone ->
  has_bone blname arma = true ->
  blockname nif_bone = "NiNode" ->
  node_name nif_bone <> rootName niffile ->
  Forall (fun pair => pair.2 <> blname) post ->
  pose_of blname
    (set_bone_poses self arma niffile (pre ++ (bn, blname) :: post))
  = Some (get_pose_blender_xf (xform_to_global nif_bone) (game (nif self))
            (scale self)).
Proof.
  intros Hnode Hbone Hblock Hroot Hpost.
  rewrite set_bone_poses_app.
  change ((bn, blname) :: post) with ([(bn, blname)] ++ post).
  rewrite set_bone_poses_app, pose_of_set_bone_poses_ne by assumption.
  set (arma' := set_bone_poses self arma niffile pre).
  assert (has_bone blname arma' = true) as Hbone'.
  { apply has_bone_true. unfold arma'. rewrite set_bone_poses_names.
    now apply has_bone_true. }
  unfold set_bone_poses. cbn [foldl]. unfold set_bone_pose.
  rewrite Hnode, Hbone'.
  rewrite (bool_decide_eq_true_2 _ Hblock), (bool_decide_eq_true_2 _ Hroot).
  cbn [andb]. now apply pose_of_set_pose_matrix_eq.
Qed.

Lemma set_all_bone_poses_hit (self : NifImporter) (arma : Armature)
    (niffile : NifFile) (name : string) (nif_bone : NiNode) :
  has_bone name arma = true ->
  nodes niffile !! nif_name self name = Some nif_bone ->
  blockname nif_bone = "NiNode" ->
  node_name nif_bone <> rootName niffile ->
  pose_of name (set_all_bone_poses self arma niffile)
  = Some (get_pose_blender_xf (xform_to_global nif_bone) (game (nif self))
            (scale self)).
Proof.
  intros Hbone Hnode Hblock Hroot.
  apply has_bone_true, list_elem_of_split_r in Hbone
    as (l1 & l2 & Enames & Hnot).
  apply fmap_app_inv in Enames as (B1 & B2' & E1 & E2 & Eb).
  symmetry in E2.
  apply fmap_cons_inv in E2 as (b & B2 & Eb0 & E2 & ->).
  unfold set_all_bone_poses. rewrite Eb, map_app. cbn [map].
  rewrite <- Eb0.
  apply pose_of_set_bone_poses_hit; try assumption.
  - apply has_bone_true. rewrite Eb, map_app. cbn.
    apply elem_of_app. right. rewrite <- Eb0. apply list_elem_of_here.
  - apply Forall_forall. intros pair Hin.
    apply list_elem_of_fmap in Hin as (b' & -> & Hb'). cbn.
    intros Heq. apply Hnot. rewrite E2.
    apply list_elem_of_fmap. eauto.
Qed.

(** X7: [set_all_bone_poses] gives every bone of the rig whose node in
    the file is a [NiNode] block other than the root the global
    transform of the node, corrected for the scale and the game, as its
    pose. *)
Theorem set_all_bone_poses_poses (self : NifImporter) (arma : Armature)
    (niffile : NifFile) (name : string) (nif_bone : NiNode) :
  has_bone name arma = true ->
  nodes niffile !! nif_name self name = Some nif_bone ->
  blockname nif_bone = "NiNode" ->
  node_name nif_bone <> rootName niffile ->
  pose_of name (set_all_bone_poses self arma niffile)
  = Some (get_pose_blender_xf (xform_to_global nif_bone) (game (nif self))
            (scale self)).
Proof. apply set_all_bone_poses_hit. Qed.

Lemma update_bone_id (name : string) (f : Bone -> Bone) (l : list Bone)
    (b : Bone) :
  lookup_bone name l = Some b -> f b = b -> update_bone name f l = l.
Proof.
  intros Hl Hf. induction l as [|x l IH]; cbn in *; [reflexivity|].
  destruct (decide (bone_name x = name)).
  - injection Hl as ->. now rewrite Hf.
  - now rewrite IH.
Qed.

(** Setting the pose a bone has changes nothing. *)
Lemma set_pose_matrix_id (blname : string) (m : Matrix) (arma : Armature) :
  pose_of blname arma = Some m -> set_pose_matrix blname m arma = arma.
Proof.
  unfold pose_of, set_pose_matrix. intros Hp.
  destruct (lookup_bone blname (bones arma)) as [b|] eqn:Hl; [|discriminate].
  cbn in Hp. injection Hp as <-.
  rewrite (update_bone_id _ _ _ b Hl); [now destruct arma | now destruct b].
Qed.

Lemma set_all_bone_poses_names (self : NifImporter) (arma : Armature)
    (niffile : NifFile) :
  map bone_name (bones (set_all_bone_poses self arma niffile))
  = map bone_name (bones arma).
Proof. unfold set_all_bone_poses. apply set_bone_poses_names. Qed.

(** The poses that [set_all_bone_poses] has set are there to stay. *)
Lemma set_all_bone_poses_twice (self : NifImporter) (arma : Armature)
    (niffile : NifFile) :
  set_all_bone_poses self (set_all_bone_poses self arma niffile) niffile
  = set_all_bone_poses self arma niffile.
Proof.
  set (arma1 := set_all_bone_poses self arma niffile).
  unfold set_all_bone_poses at 1.
  assert (forall l : list Bone,
            Forall (fun b => bone_name b ∈ map bone_name (bones arma)) l ->
            set_bone_poses self arma1 niffile
              (map (fun b => (nif_name self (bone_name b), bone_name b)) l)
            = arma1) as Hfix.
  { induction 1 as [|b l Hb _ IH]; [reflexivity|].
    cbn [map]. unfold set_bone_poses in *. cbn [foldl].
    assert (set_bone_pose self niffile arma1
              (nif_name self (bone_name b), bone_name b) = arma1) as ->;
      [|exact IH].
    unfold set_bone_pose.
    destruct (nodes niffile !! nif_name self (bone_name b)) as [nif_bone|]
      eqn:Hnode; [|reflexivity].
    destruct (has_bone (bone_name b) arma1) eqn:Hhas; [|reflexivity].
    destruct (bool_decide (blockname nif_bone = "NiNode")) eqn:Hblock;
      [|reflexivity].
    destruct (bool_decide (node_name nif_bone ≠ rootName niffile)) eqn:Hroot;
      [|reflexivity].
    cbn [andb]. apply set_pose_matrix_id.
    apply set_all_bone_poses_hit.
    - now apply has_bone_true.
    - exact Hnode.
    - now apply bool_decide_eq_true_1 in Hblock.
    - now apply bool_decide_eq_true_1 in Hroot. }
  apply Hfix. apply Forall_forall. intros b Hb.
  unfold arma1 in Hb.
  apply (list_elem_of_fmap_2 bone_name) in Hb.
  now rewrite set_all_bone_poses_names in Hb.
Qed.

(** X8: posing the whole rig twice from one file is posing it once. *)
Theorem set_all_bone_poses_idempotent (self : NifImporter) (arma : Armature)
    (niffile : NifFile) :
  set_all_bone_poses self (set_all_bone_poses self arma niffile) niffile
  = set_all_bone_poses self arma niffile.
Proof. apply set_all_bone_poses_twice. Qed.

(** A pair whose node is missing from the file, is no [NiNode] block or
    is the root sets no pose. *)
Lemma set_bone_pose_skips (self : NifImporter) (niffile : NifFile)
    (arma : Armature) (bn blname : string) :
  (forall nif_bone, nodes niffile !! bn = Some nif_bone ->
                    blockname nif_bone <> "NiNode"
                    \/ node_name nif_bone = rootName niffile) ->
  set_bone_pose self niffile arma (bn, blname) = arma.
Proof.
  intros Hno. unfold set_bone_pose.
  destruct (nodes niffile !! bn) as [nif_bone|]; [|reflexivity].
  destruct (Hno nif_bone eq_refl) as [Hb | Hr].
  - rewrite (bool_decide_eq_false_2 _ Hb). cbn.
    now rewrite andb_false_r.
  - rewrite (bool_decide_eq_false_2 (node_name nif_bone ≠ rootName niffile))
      by auto.
    now rewrite !andb_false_r.
Qed.

(** A pair that names no bone of the rig sets no pose. *)
Lemma set_bone_pose_absent (self : NifImporter) (niffile : NifFile)
    (arma : Armature) (bn blname : string) :
  has_bone blname arma = false ->
  set_bone_pose self niffile arma (bn, blname) = arma.
Proof.
  intros Hno. unfold set_bone_pose.
  destruct (nodes niffile !! bn) as [nif_bone|]; [|reflexivity].
  now rewrite Hno.
Qed.

(** X9: [set_bone_poses] leaves the armature as it is when every pair
    of the list is skipped: the rig has no bone of the name, or the
    node is missing from the file, is no [NiNode] block or is the root
    of the file. *)
Theorem set_bone_poses_skips (self : NifImporter) (arma : Armature)
    (niffile : NifFile) (bonelist : list (string * string)) :
  Forall (fun pair =>
            has_bone pair.2 arma = false
            \/ forall nif_bone,
                 nodes niffile !! pair.1 = Some nif_bone ->
                 blockname nif_bone <> "NiNode"
                 \/ node_name nif_bone = rootName niffile) bonelist ->
  set_bone_poses self arma niffile bonelist = arma.
Proof.
  unfold set_bone_poses.
  induction 1 as [|[bn blname] l Hpair _ IH]; cbn [foldl]; [reflexivity|].
  cbn [fst snd] in Hpair.
  assert (set_bone_pose self niffile arma (bn, blname) = arma) as ->;
    [|exact IH].
  destruct Hpair as [Hno | Hno].
  - now apply set_bone_pose_absent.
  - now apply set_bone_pose_skips.
Qed.

End PoseMore.

(** ** A second walk *)

Section WalkTwice.
Context `{Host}.

(** The turn of a settled bone leaves the armature and the work list. *)
Lemma connect_step_settled_keeps (self : NifImporter) (st st' : connect_state)
    (name : string) :
  bones_to_parent st !! cs_i st = Some name ->
  settled self (cs_arma st) name ->
  connect_step self st = Ok st' ->
  cs_arma st' = cs_arma st.
Proof.
  intros Hname Hs. unfold connect_step. rewrite Hname. cbn [subscript bind].
  destruct (lookup_bone name (bones (cs_arma st))) as [arma_bone|] eqn:Hb;
    cbn [subscript bind]; [|discriminate].
  destruct (bone_parent arma_bone) as [p|] eqn:Hp.
  { now intros [= <-]. }
  destruct (Hs arma_bone Hb Hp) as [Hnone | (p & pn & Hf & Hhas & Hc)].
  - unfold no_parent_found in Hnone.
    destruct (find_parent self name) as [[parentname parentnifname]|].
    2:{ now intros [= <-]. }
    rewrite (bool_decide_eq_true_2 _ Hnone). now intros [= <-].
  - rewrite Hf.
    destruct (bool_decide (p = "")); [now intros [= <-]|].
    rewrite Hhas. cbn [negb].
    destruct (lookup_bone p (bones (cs_arma st))) as [parent|] eqn:Hpl;
      cbn [subscript bind]; [|discriminate].
    rewrite (lookup_bone_name _ _ _ Hpl).
    intros [= <-]. cbn [cs_arma]. unfold set_parent. now rewrite Hc.
Qed.

(** On an armature whose bones are all settled the walk only sets the
    poses. *)
Lemma connect_armature_settled (self : NifImporter) (arma : Armature) :
  (forall name, name ∈ map bone_name (bones arma) -> settled self arma name) ->
  exists colls,
    connect_armature self arma
    = Some (Ok (set_all_bone_poses self arma (nif self), colls)).
Proof.
  intros Hall.
  destruct (connect_armature_run self arma (fun st => cs_arma st = arma))
    as (st & Est & _ & _ & E & _).
  - intros st st' Hq Est Hlt Estep.
    destruct (lookup_lt_is_Some_2 _ _ Hlt) as [name Hname].
    rewrite (connect_step_settled_keeps self st st' name Hname); auto.
    rewrite Est. apply Hall. rewrite <- Est.
    exact (proj1 (Forall_lookup _ _) Hq _ _ Hname).
  - reflexivity.
  - rewrite Est in E. eauto.
Qed.

(** X10: a second pass of [connect_armature] over the armature that a
    pass has left creates no bone and changes no parent, bind
    transform or pose: it leaves the armature as it finds it. *)
Theorem connect_armature_idempotent (self : NifImporter)
    (arma arma1 : Armature) (colls1 : gset string) :
  ~ (scale self == 0)%Q ->
  connect_armature self arma = Some (Ok (arma1, colls1)) ->
  exists colls2, connect_armature self arma1 = Some (Ok (arma1, colls2)).
Proof.
  intros _ Hrun.
  destruct (connect_armature_settles self arma) as (st & Hs & E).
  rewrite E in Hrun. injection Hrun as <- _.
  destruct (connect_armature_settled self
              (set_all_bone_poses self (cs_arma st) (nif self)))
    as [colls2 E2].
  - intros name Hin. rewrite set_all_bone_poses_names in Hin.
    unfold set_all_bone_poses.
    apply (settled_grown self (cs_arma st));
      [apply set_bone_poses_grown | now apply has_bone_true | auto].
  - exists colls2. now rewrite set_all_bone_poses_twice in E2.
Qed.

End WalkTwice.

(** ** Adding the bones of a file *)

Section AddBones.
Context `{Host}.

(** A call appends a bone of the name when there is none, and leaves
    the bones there are. *)
Lemma add_bone_to_arma_bones (self : NifImporter) (arma : Armature)
    (name nifname : string) :
  exists new,
    bones (add_bone_to_arma self arma name nifname).2 = bones arma ++ new
    /\ map bone_name new = if has_bone name arma then [] else [name].
Proof.
  destruct (has_bone name arma) eqn:Hhas.
  - rewrite add_bone_to_arma_present by exact Hhas.
    exists []. now rewrite app_nil_r.
  - destruct (add_bone_to_arma_absent self arma name nifname Hhas) as [xf E].
    rewrite E. cbn. eexists. split; reflexivity.
Qed.

Lemma add_bones_turn_bones (self : NifImporter) (niffile : NifFile)
    (st : Armature * list (string * string)) (n : string) :
  exists new,
    bones (add_bones_turn self niffile st n).1 = bones st.1 ++ new
    /\ (forall x, x ∈ map bone_name new ->
                  x = blender_name self n /\ n <> rootName niffile
                  /\ has_bone x st.1 = false)
    /\ (n <> rootName niffile ->
        has_bone (blender_name self n) (add_bones_turn self niffile st n).1
        = true).
Proof.
  destruct st as [arma nb]. unfold add_bones_turn.
  destruct (decide (n ≠ rootName niffile)) as [Hne|He].
  - rewrite (bool_decide_eq_true_2 _ Hne). cbn [fst].
    destruct (add_bone_to_arma_bones self arma (blender_name self n) n)
      as (new & Eb & En).
    exists new. split; [exact Eb|]. split.
    + intros x Hx. rewrite En in Hx.
      destruct (has_bone (blender_name self n) arma) eqn:Hhas.
      * now apply elem_of_nil in Hx.
      * apply list_elem_of_singleton in Hx as ->. auto.
    + intros _. apply add_bone_to_arma_has_bone.
  - rewrite (bool_decide_eq_false_2 _ He). cbn [fst].
    exists []. rewrite app_nil_r. split; [reflexivity|]. split.
    + intros x Hx. now apply elem_of_nil in Hx.
    + intros Hne. contradiction.
Qed.

(** The loop appends bones, one for each name listed that is not the
    root of the file and not a bone yet. *)
Lemma add_bones_loop_bones (self : NifImporter) (niffile : NifFile)
    (bone_names : list string) (st : Armature * list (string * string)) :
  exists new,
    bones (foldl (add_bones_turn self niffile) st bone_names).1
    = bones st.1 ++ new
    /\ (forall x, x ∈ map bone_name new ->
          (x ∉ map bone_name (bones st.1))
          /\ exists n, n ∈ bone_names /\ n <> rootName niffile
                       /\ x = blender_name self n)
    /\ (NoDup (map bone_name (bones st.1)) ->
        NoDup (map bone_name (bones st.1 ++ new)))
    /\ (forall n, n ∈ bone_names -> n <> rootName niffile ->
          blender_name self n
          ∈ map bone_name (bones st.1 ++ new)).
Proof.
  revert st. induction bone_names as [|n l IH]; intros st; cbn [foldl].
  - exists []. rewrite app_nil_r. split; [reflexivity|]. split.
    + intros x Hx. now apply elem_of_nil in Hx.
    + split; [auto|]. intros n Hn. now apply elem_of_nil in Hn.
  - destruct (add_bones_turn_bones self niffile st n) as (new1 & E1 & H1 & Hn1).
    destruct (IH (add_bones_turn self niffile st n)) as (new2 & E2 & H2 & Hd2 & Hin2).
    rewrite E1 in E2, H2, Hd2, Hin2.
    exists (new1 ++ new2). rewrite app_assoc. split; [exact E2|].
    assert (forall x, x ∈ map bone_name new1 ->
                      x ∉ map bone_name (bones st.1)) as Hfresh.
    { intros x Hx Hin. destruct (H1 x Hx) as (_ & _ & Hhas).
      apply has_bone_true in Hin. congruence. }
    split; [|split].
    + intros x Hx. rewrite map_app in Hx.
      apply elem_of_app in Hx as [Hx | Hx].
      * split; [now apply Hfresh|].
        destruct (H1 x Hx) as (-> & Hne & _).
        exists n. split; [apply list_elem_of_here | auto].
      * destruct (H2 x Hx) as (Hnot & n' & Hn' & Hne & ->).
        split.
        -- intros Hin. apply Hnot. rewrite map_app. apply elem_of_app. auto.
        -- exists n'. split; [now apply list_elem_of_further | auto].
    + intros Hnd. apply Hd2.
      rewrite map_app. apply NoDup_app. split; [exact Hnd|]. split.
      * intros x Hin Hx. exact (Hfresh x Hx Hin).
      * destruct new1 as [|b1 new1]; [constructor|].
        assert (map bone_name (b1 :: new1) = [blender_name self n]) as ->;
          [|apply NoDup_singleton].
        destruct st as [arma nb]. unfold add_bones_turn in E1.
        destruct (bool_decide (n ≠ rootName niffile)); cbn [fst] in E1.
        -- destruct (add_bone_to_arma_bones self arma (blender_name self n) n)
             as (new & Eb & En).
           rewrite Eb in E1. apply app_inv_head in E1. subst new.
           destruct (has_bone (blender_name self n) arma);
             [discriminate | exact En].
        -- rewrite <- (app_nil_r (bones arma)) in E1 at 1.
           apply app_inv_head in E1. discriminate.
    + intros n' Hn' Hne.
      apply elem_of_cons in Hn' as [-> | Hn'].
      * specialize (Hn1 Hne). apply has_bone_true in Hn1.
        rewrite E1 in Hn1. rewrite map_app.
        apply elem_of_app. left. exact Hn1.
      * auto.
Qed.

(** X11: after [add_bones_to_arma] the rig has a bone for every name
    listed that is not the root of the file; the bones it had are at
    their places, changed in nothing but their pose, and the bones
    added come after them, under names the rig lacked. *)
Theorem add_bones_to_arma_bones (self : NifImporter) (arma : Armature)
    (niffile : NifFile) (bone_names : list string) :
  ~ (scale self == 0)%Q ->
  (forall n, n ∈ bone_names -> n <> rootName niffile ->
     has_bone (blender_name self n)
       (add_bones_to_arma self arma niffile bone_names) = true)
  /\ exists new,
       map rest_of (bones (add_bones_to_arma self arma niffile bone_names))
       = map rest_of (bones arma) ++ map rest_of new
       /\ forall x, x ∈ map bone_name new ->
            (x ∉ map bone_name (bones arma))
            /\ exists n, n ∈ bone_names /\ n <> rootName niffile
                         /\ x = blender_name self n.
Proof.
  intros _.
  unfold add_bones_to_arma.
  destruct (add_bones_loop_bones self niffile bone_names (arma, []))
    as (new & E & Hnew & _ & Hin).
  destruct (foldl (add_bones_turn self niffile) (arma, []) bone_names)
    as [arma1 new_bones].
  cbn [fst] in *. split.
  - intros n Hn Hne. apply has_bone_true.
    rewrite set_bone_poses_names, E. auto.
  - exists new. split; [|exact Hnew].
    now rewrite rest_of_set_bone_poses, E, map_app.
Qed.

(** X12: when no two bones of the rig have the same name, no two have
    after [add_bones_to_arma]. *)
Theorem add_bones_to_arma_unique_names (self : NifImporter) (arma : Armature)
    (niffile : NifFile) (bone_names : list string) :
  ~ (scale self == 0)%Q ->
  NoDup (map bone_name (bones arma)) ->
  NoDup (map bone_name
           (bones (add_bones_to_arma self arma niffile bone_names))).
Proof.
  intros _ Hnd. unfold add_bones_to_arma.
  destruct (add_bones_loop_bones self niffile bone_names (arma, []))
    as (new & E & _ & Hd & _).
  destruct (foldl (add_bones_turn self niffile) (arma, []) bone_names)
    as [arma1 new_bones].
  cbn [fst] in *. rewrite set_bone_poses_names, E. auto.
Qed.

End AddBones.

(** ** Parenting a shape to an armature *)

Section ParentArmatureMore.
Context `{Host}.
Variable get_shape_skin_to_bone : NiShape -> string -> Matrix.

(** A loop whose turn appends a bone of the name of its item when
    there is none appends bones under names that were missing, one for
    each, and has a bone for every item at its end. *)
Lemma append_loop_bones {S : Type} (turn : Armature * S -> string -> Armature * S)
    (name_of : string -> string) :
  (forall st n, exists new,
      bones (turn st n).1 = bones st.1 ++ new
      /\ map bone_name new
         = if has_bone (name_of n) st.1 then [] else [name_of n]) ->
  forall l st, exists new,
    bones (foldl turn st l).1 = bones st.1 ++ new
    /\ (forall x, x ∈ map bone_name new ->
          (x ∉ map bone_name (bones st.1))
          /\ exists n, n ∈ l /\ x = name_of n)
    /\ (NoDup (map bone_name (bones st.1)) ->
        NoDup (map bone_name (bones st.1 ++ new)))
    /\ (forall n, n ∈ l -> name_of n ∈ map bone_name (bones st.1 ++ new)).
Proof.
  intros Hturn l. induction l as [|n l IH]; intros st; cbn [foldl].
  - exists []. rewrite app_nil_r. split; [reflexivity|]. split.
    + intros x Hx. now apply elem_of_nil in Hx.
    + split; [auto|]. intros n Hn. now apply elem_of_nil in Hn.
  - destruct (Hturn st n) as (new1 & E1 & N1).
    destruct (IH (turn st n)) as (new2 & E2 & H2 & Hd2 & Hin2).
    rewrite E1 in E2, H2, Hd2, Hin2.
    exists (new1 ++ new2). rewrite app_assoc. split; [exact E2|].
    assert (forall x, x ∈ map bone_name new1 ->
                      x = name_of n /\ x ∉ map bone_name (bones st.1))
      as Hfresh.
    { intros x Hx. rewrite N1 in Hx.
      destruct (has_bone (name_of n) st.1) eqn:Hhas.
      - now apply elem_of_nil in Hx.
      - apply list_elem_of_singleton in Hx as ->. split; [reflexivity|].
        intros Hin. apply has_bone_true in Hin. congruence. }
    split; [|split].
    + intros x Hx. rewrite map_app in Hx.
      apply elem_of_app in Hx as [Hx | Hx].
      * destruct (Hfresh x Hx) as [-> Hnot]. split; [exact Hnot|].
        exists n. split; [apply list_elem_of_here | reflexivity].
      * destruct (H2 x Hx) as (Hnot & n' & Hn' & ->).
        split.
        -- intros Hin. apply Hnot. rewrite map_app. apply elem_of_app. auto.
        -- exists n'. split; [now apply list_elem_of_further | reflexivity].
    + intros Hnd. apply Hd2.
      rewrite map_app. apply NoDup_app. split; [exact Hnd|]. split.
      * intros x Hin Hx. now destruct (Hfresh x Hx).
      * rewrite N1. destruct (has_bone (name_of n) st.1);
          [constructor | apply NoDup_singleton].
    + intros n' Hn'.
      apply elem_of_cons in Hn' as [-> | Hn']; [|auto].
      rewrite !map_app, N1. rewrite <- app_assoc.
      destruct (has_bone (name_of n) st.1) eqn:Hhas.
      * apply elem_of_app. left. now apply has_bone_true.
      * apply elem_of_app. right. apply list_elem_of_here.
Qed.

Lemma parent_arma_turn_bones (self : NifImporter) (nif_shape : NiShape)
    (skel : NifFile) (skin_xf : Matrix) (ref_compat : bool)
    (st : Armature * list (string * string)) (bn : string) :
  exists new,
    bones (parent_arma_turn get_shape_skin_to_bone self nif_shape skel
             skin_xf ref_compat st bn).1
    = bones st.1 ++ new
    /\ map bone_name new
       = if has_bone (blender_name self bn) st.1
         then [] else [blender_name self bn].
Proof.
  destruct st as [arma nb]. unfold parent_arma_turn. cbn [fst].
  destruct (has_bone (blender_name self bn) arma); cbn [negb fst].
  - exists []. now rewrite app_nil_r.
  - cbn. eexists. split; reflexivity.
Qed.

Lemma parent_arma_turn_transform (self : NifImporter) (nif_shape : NiShape)
    (skel : NifFile) (skin_xf : Matrix) (ref_compat : bool)
    (l : list string) (st : Armature * list (string * string)) :
  PYN_TRANSFORM
    (foldl (parent_arma_turn get_shape_skin_to_bone self nif_shape skel
              skin_xf ref_compat) st l).1
  = PYN_TRANSFORM st.1.
Proof.
  revert st. induction l as [|bn l IH]; intros st; cbn [foldl];
    [reflexivity|].
  rewrite IH. destruct st as [arma nb]. unfold parent_arma_turn.
  now destruct (has_bone (blender_name self bn) arma).
Qed.

Lemma set_bone_poses_transform (self : NifImporter) (niffile : NifFile)
    (bonelist : list (string * string)) (arma : Armature) :
  PYN_TRANSFORM (set_bone_poses self arma niffile bonelist)
  = PYN_TRANSFORM arma.
Proof.
  unfold set_bone_poses. revert arma.
  induction bonelist as [|[bn blname] l IH]; intros arma; cbn; [reflexivity|].
  rewrite IH. unfold set_bone_pose.
  destruct (nodes niffile !! bn); [|reflexivity].
  now destruct (_ && _).
Qed.

Lemma calc_skin_transform_obj_spec (arma : Armature) (obj : Object) :
  (calc_skin_transform_obj arma obj).1.1 = matrix_world obj
  /\ bones (calc_skin_transform_obj arma obj).1.2 = bones arma
  /\ PYN_TRANSFORM (calc_skin_transform_obj arma obj).1.2
     = Some (default (matrix_world obj) (PYN_TRANSFORM arma)).
Proof.
  unfold calc_skin_transform_obj.
  destruct (PYN_TRANSFORM arma) eqn:E; cbn; auto.
Qed.

(** X13: with an object, [calc_skin_transform] returns the world
    transform of the object whatever the armature holds; it removes and
    adds no bone, and the armature keeps the transform it had or, when
    it had none, gets that of the object, which is what a later call
    without an object reads. *)
Theorem calc_skin_transform_obj_result (arma : Armature) (obj : Object) :
  (calc_skin_transform_obj arma obj).1.1 = matrix_world obj
  /\ bones (calc_skin_transform_obj arma obj).1.2 = bones arma
  /\ calc_skin_transform (calc_skin_transform_obj arma obj).1.2
     = default (matrix_world obj) (PYN_TRANSFORM arma).
Proof.
  destruct (calc_skin_transform_obj_spec arma obj) as (E1 & E2 & E3).
  split; [exact E1|]. split; [exact E2|].
  unfold calc_skin_transform. now rewrite E3.
Qed.

(** X14: without a reference skeleton [set_parent_arma] creates no
    bone and poses none, whatever bones the shape has: the armature
    keeps the bones it had, and a new armature stays empty; it adds the
    warning that there is no reference skeleton. *)
Theorem set_parent_arma_no_reference (self : NifImporter)
    (arma : option Armature) (obj : Object) (nif_shape : NiShape)
    (s2a_xf : option Matrix) :
  ~ (scale self == 0)%Q ->
  reference_skel self = None ->
  bones (set_parent_arma get_shape_skin_to_bone self arma obj nif_shape
           s2a_xf).1.1
  = bones (default make_armature arma)
  /\ NoReferenceSkeleton
     ∈ (set_parent_arma get_shape_skin_to_bone self arma obj nif_shape
          s2a_xf).2.
Proof.
  intros _ Href. unfold set_parent_arma.
  destruct (calc_skin_transform_obj_spec (default make_armature arma) obj)
    as (_ & Eb & _).
  destruct (calc_skin_transform_obj (default make_armature arma) obj)
    as [[xf arma1] warned].
  rewrite Href. cbn in *. split; [exact Eb|].
  apply elem_of_app. right. apply list_elem_of_here.
Qed.

(** X15: with a reference skeleton, after [set_parent_arma] the
    armature has a bone for every bone of the shape; the bones it had
    are at their places, changed in nothing but their pose, the bones
    added come after them under names the armature lacked, and when no
    two bones had the same name, no two have. *)
Theorem set_parent_arma_bones (self : NifImporter)
    (arma : option Armature) (obj : Object) (nif_shape : NiShape)
    (s2a_xf : option Matrix) (skel : NifFile) :
  ~ (scale self == 0)%Q ->
  reference_skel self = Some skel ->
  (forall bn, bn ∈ bone_names nif_shape ->
     has_bone (blender_name self bn)
       (set_parent_arma get_shape_skin_to_bone self arma obj nif_shape
          s2a_xf).1.1 = true)
  /\ (exists new,
        map rest_of
          (bones (set_parent_arma get_shape_skin_to_bone self arma obj
                    nif_shape s2a_xf).1.1)
        = map rest_of (bones (default make_armature arma)) ++ map rest_of new
        /\ forall x, x ∈ map bone_name new ->
             (x ∉ map bone_name (bones (default make_armature arma)))
             /\ exists bn, bn ∈ bone_names nif_shape
                           /\ x = blender_name self bn)
  /\ (NoDup (map bone_name (bones (default make_armature arma))) ->
      NoDup (map bone_name
               (bones (set_parent_arma get_shape_skin_to_bone self arma obj
                         nif_shape s2a_xf).1.1))).
Proof.
  intros _ Href. unfold set_parent_arma.
  destruct (calc_skin_transform_obj_spec (default make_armature arma) obj)
    as (_ & Eb & _).
  destruct (calc_skin_transform_obj (default make_armature arma) obj)
    as [[xf arma1] warned].
  rewrite Href. cbn [fst snd] in Eb.
  match goal with
  | |- context [foldl ?turn (arma1, []) ?l] =>
      destruct (append_loop_bones turn (blender_name self)
                  ltac:(intros; apply parent_arma_turn_bones) l (arma1, []))
        as (new & E & Hnew & Hd & Hin);
      destruct (foldl turn (arma1, []) l) as [arma2 new_bones]
  end.
  cbn [fst snd] in *. rewrite Eb in *. split; [|split].
  - intros bn Hbn. apply has_bone_true.
    rewrite set_bone_poses_names, E. auto.
  - exists new. split; [|exact Hnew].
    now rewrite rest_of_set_bone_poses, E, map_app.
  - intros Hnd. rewrite set_bone_poses_names, E. auto.
Qed.

(** X16: [set_parent_arma] leaves the object at its world transform,
    or at the inverse of it followed by the transform given, and the
    armature with the transform it had or, when it had none or is new,
    with the world transform the object had. *)
Theorem set_parent_arma_transforms (self : NifImporter)
    (arma : option Armature) (obj : Object) (nif_shape : NiShape)
    (s2a_xf : option Matrix) :
  ~ (scale self == 0)%Q ->
  matrix_world
    (set_parent_arma get_shape_skin_to_bone self arma obj nif_shape
       s2a_xf).1.2
  = match s2a_xf with
    | Some s2a => inverted (matrix_world obj) @ s2a
    | None => matrix_world obj
    end
  /\ PYN_TRANSFORM
       (set_parent_arma get_shape_skin_to_bone self arma obj nif_shape
          s2a_xf).1.1
     = Some (default (matrix_world obj) (arma ≫= PYN_TRANSFORM)).
Proof.
  intros _. unfold set_parent_arma.
  destruct (calc_skin_transform_obj_spec (default make_armature arma) obj)
    as (Ex & _ & Et).
  destruct (calc_skin_transform_obj (default make_armature arma) obj)
    as [[xf arma1] warned].
  cbn [fst snd] in Ex, Et. subst xf.
  assert (PYN_TRANSFORM arma1
          = Some (default (matrix_world obj) (arma ≫= PYN_TRANSFORM))) as Et'.
  { rewrite Et. now destruct arma. }
  destruct (reference_skel self) as [skel|].
  - pose proof (parent_arma_turn_transform self nif_shape skel
                  (apply_scale_transl
                     match s2a_xf with
                     | Some s2a => inverted (matrix_world obj) @ s2a
                     | None => matrix_world obj
                     end (1 / scale self))
                  (is_compatible_skeleton get_shape_skin_to_bone
                     (apply_scale_transl
                        match s2a_xf with
                        | Some s2a => inverted (matrix_world obj) @ s2a
                        | None => matrix_world obj
                        end (1 / scale self)) nif_shape skel)
                  (bone_names nif_shape) (arma1, [])) as Hl.
    destruct (foldl _ (arma1, []) (bone_names nif_shape)) as [arma2 nb].
    cbn [fst snd] in *. split; [reflexivity|].
    now rewrite set_bone_poses_transform, Hl.
  - cbn [fst snd]. split; [reflexivity|].
    now rewrite set_bone_poses_transform.
Qed.

End ParentArmatureMore.

(** ** Shape placement, further *)

Section PlacementMore.
Context `{Host}.

(** Once a pose offset is found the loop keeps it, and tells whether
    the offsets of the other bones are all near it. *)
Lemma pose_offset_loop_some (the_shape : NiShape) (used : list string)
    (p : Matrix) :
  pose_offset_loop the_shape used (Some p)
  = (Some p,
     forallb (fun b => MatNearEqual p (pose_transform the_shape b) (1 # 2))
       used).
Proof.
  induction used as [|b rest IH]; cbn; [reflexivity|].
  destruct (MatNearEqual p (pose_transform the_shape b) (1 # 2));
    cbn; [exact IH | reflexivity].
Qed.

(** An inversion raises nothing but [ValueError]. *)
Lemma inverted_checked_raises (m : Matrix) (e : exn) :
  inverted_checked m = Raise e -> e = ValueError.
Proof.
  unfold inverted_checked. destruct (invertible m); [discriminate|].
  now intros [= <-].
Qed.

(** The loop over the bones of the reference skeleton raises nothing
    but [ValueError]. *)
Lemma bind_offset_loop_raises (skel : NifFile) (the_shape : NiShape)
    (xf : Matrix) (used : list string) (offset_xf : option Matrix)
    (offset_consistent : bool) (e : exn) :
  bind_offset_loop skel the_shape xf used offset_xf offset_consistent
  = Raise e ->
  e = ValueError.
Proof.
  revert offset_xf offset_consistent.
  induction used as [|bn rest IH]; intros offset_xf offset_consistent;
    cbn [bind_offset_loop]; [discriminate|].
  destruct (nodes skel !! bn) as [skel_bone|]; [|apply IH].
  destruct (inverted_checked (xf @ bind_position the_shape bn)) as [inv|e']
    eqn:Einv; cbn [bind].
  - destruct offset_xf as [o|]; [|apply IH].
    destruct (negb _); [discriminate | apply IH].
  - intros [= <-]. eapply inverted_checked_raises. exact Einv.
Qed.

Lemma bind_offset_step_raises (self : NifImporter) (the_shape : NiShape)
    (e : exn) :
  bind_offset_step self the_shape = Raise e -> e = ValueError.
Proof.
  unfold bind_offset_step.
  destruct (has_global_to_skin the_shape); cbn [bind].
  2:{ destruct (create_bones self); [|discriminate].
      destruct (reference_skel self) as [skel|]; [|discriminate].
      destruct (bind_offset_loop skel the_shape Identity4
                  (get_used_bones the_shape) None false)
        as [[offset_xf oc]|e'] eqn:El; cbn [bind].
      - destruct oc, offset_xf; discriminate.
      - intros [= <-]. eapply bind_offset_loop_raises. exact El. }
  destruct (inverted_checked (global_to_skin the_shape)) as [xf|e'] eqn:Einv;
    cbn [bind].
  2:{ intros [= <-]. eapply inverted_checked_raises. exact Einv. }
  destruct (create_bones self); [|discriminate].
  destruct (reference_skel self) as [skel|]; [|discriminate].
  destruct (bind_offset_loop skel the_shape xf (get_used_bones the_shape)
              None true) as [[offset_xf oc]|e'] eqn:El; cbn [bind].
  - destruct oc, offset_xf; discriminate.
  - intros [= <-]. eapply bind_offset_loop_raises. exact El.
Qed.

(** With no used bone the bind-offset step leaves the flag as the
    global-to-skin transform sets it. *)
Lemma bind_offset_step_no_bones (self : NifImporter) (the_shape : NiShape)
    (xf : Matrix) (offset_consistent : bool) :
  get_used_bones the_shape = [] ->
  bind_offset_step self the_shape = Ok (xf, offset_consistent) ->
  offset_consistent = has_global_to_skin the_shape.
Proof.
  intros Hused. unfold bind_offset_step. rewrite Hused.
  destruct (has_global_to_skin the_shape); cbn [bind].
  - destruct (inverted_checked (global_to_skin the_shape)); cbn [bind];
      [|discriminate].
    destruct (create_bones self), (reference_skel self); cbn;
      now intros [= _ <-].
  - destruct (create_bones self), (reference_skel self); cbn;
      now intros [= _ <-].
Qed.

(** X17: [calc_obj_transform] raises nothing but the [ValueError] of
    a matrix that has no inverse and the [TypeError] of a skinned shape
    without a global-to-skin transform that uses no bone, the bind
    positions and pose transforms of the shape being given. *)
Theorem calc_obj_transform_raises_only (self : NifImporter)
    (the_shape : NiShape) (scale_factor : Q) (e : exn) :
  calc_obj_transform self the_shape scale_factor = Raise e ->
  e = ValueError
  \/ (e = TypeError
      /\ is_NiShape the_shape = true
      /\ has_skin_instance the_shape = true
      /\ has_global_to_skin the_shape = false
      /\ get_used_bones the_shape = []).
Proof.
  unfold calc_obj_transform.
  destruct (is_NiShape the_shape); cbn [negb orb]; [|discriminate].
  destruct (has_skin_instance the_shape); cbn [negb]; [|discriminate].
  pose proof (bind_offset_step_raises self the_shape) as Hraise.
  pose proof (bind_offset_step_no_bones self the_shape) as Hflag.
  destruct (bind_offset_step self the_shape) as [[xf oc]|e'];
    cbn [bind].
  2:{ intros [= <-]. left. now apply Hraise. }
  destruct oc; cbn [negb bind]; [discriminate|].
  destruct (get_used_bones the_shape) as [|b rest].
  - cbn. intros [= <-]. right.
    rewrite <- (Hflag xf false eq_refl eq_refl). auto.
  - cbn [pose_offset_loop]. rewrite pose_offset_loop_some.
    destruct (forallb _ rest); [|discriminate].
    destruct (inverted_checked (xf @ pose_transform the_shape b))
      as [inv|e'] eqn:Einv; cbn [bind]; [discriminate|].
    intros [= <-]. left. eapply inverted_checked_raises. exact Einv.
Qed.

(** X18: for a skinned shape without a global-to-skin transform, when
    no bone is taken from a reference skeleton, the poses of the used
    bones place the shape: if the pose offset of every used bone is
    within 0.5 of that of the first one, the placement is the inverse
    of the first offset, and [ValueError] is raised when that offset
    has no inverse; else the placement is the identity. *)
Theorem calc_obj_transform_pose_offset (self : NifImporter)
    (the_shape : NiShape) (scale_factor : Q) (b : string)
    (rest : list string) :
  is_NiShape the_shape = true ->
  has_skin_instance the_shape = true ->
  has_global_to_skin the_shape = false ->
  create_bones self = false \/ reference_skel self = None ->
  get_used_bones the_shape = b :: rest ->
  calc_obj_transform self the_shape scale_factor
  = if forallb
         (fun b' => MatNearEqual (pose_transform the_shape b)
                      (pose_transform the_shape b') (1 # 2)) rest
    then inv <- inverted_checked (Identity4 @ pose_transform the_shape b) ;;
         Ok (apply_scale_xf inv scale_factor)
    else Ok (apply_scale_xf Identity4 scale_factor).
Proof.
  intros Hty Hskin Hgts Hno Hused. unfold calc_obj_transform.
  rewrite Hty, Hskin, (bind_offset_step_no_reference _ _ Hno), Hgts, Hused.
  cbn [negb orb bind pose_offset_loop]. rewrite pose_offset_loop_some.
  now destruct (forallb _ rest).
Qed.

End PlacementMore.

(** ** Rig compatibility, further *)

Section CompatibilityMore.
Context `{Host}.

(** X19: a candidate that has none of the bones of the shape is taken
    as compatible: [find_compatible_arma] returns the first candidate
    when the shape and it have no bone in common. *)
Theorem find_compatible_arma_no_common_bone (self : NifImporter)
    (obj : Object) (shape : NiShape) (arma : Armature)
    (rest : list Armature) :
  nodes_loaded self !! obj_name obj = Some shape ->
  Forall (fun b => has_bone (blender_name self b) arma = false)
    (bone_names shape) ->
  find_compatible_arma self obj (arma :: rest) = Ok (Some arma, None).
Proof.
  intros Hshape Hnone. unfold find_compatible_arma. rewrite Hshape.
  cbn [subscript bind for_return].
  rewrite find_compatible_arma_body_spec. cbn [bind].
  assert (forallb (bone_matches self obj shape arma) (bone_names shape) = true)
    as ->; [|reflexivity].
  apply forallb_forall. intros b Hb.
  apply list_elem_of_In in Hb.
  pose proof (proj1 (Forall_forall _ _) Hnone b Hb) as Hhas.
  unfold bone_matches, has_bone in *.
  now destruct (lookup_bone (blender_name self b) (bones arma)).
Qed.

End CompatibilityMore.

(** ** The export of bones *)

Section ExportBones.
Context `{Host}.

Lemma lookup_bone_elem (name : string) (l : list Bone) (b : Bone) :
  lookup_bone name l = Some b -> b ∈ l.
Proof.
  induction l as [|x l IH]; cbn; [discriminate|].
  destruct (decide (bone_name x = name)).
  - intros [= ->]. apply list_elem_of_here.
  - intros Hl. apply list_elem_of_further. auto.
Qed.

Lemma lookup_bone_unique (l : list Bone) (b : Bone) :
  NoDup (map bone_name l) -> b ∈ l -> lookup_bone (bone_name b) l = Some b.
Proof.
  induction l as [|x l IH]; cbn; intros Hnd Hin.
  - now apply elem_of_nil in Hin.
  - apply NoDup_cons in Hnd as [Hx Hnd].
    destruct (decide (bone_name x = bone_name b)) as [E|E].
    + apply elem_of_cons in Hin as [-> | Hin]; [reflexivity|].
      exfalso. apply Hx. rewrite E. now apply list_elem_of_fmap_2.
    + apply elem_of_cons in Hin as [-> | Hin]; [congruence | auto].
Qed.

(** On a bone of the armature whose parent, if it has one, is a bone
    of the armature with a global transform that has an inverse,
    [get_bone_xform] raises nothing. *)
Lemma get_bone_xform_ok (arma : Armature) (name game : string)
    (ph up : bool) (b : Bone) :
  lookup_bone name (bones arma) = Some b ->
  (forall p, bone_parent b = Some p ->
     exists bp,
       lookup_bone p (bones arma) = Some bp
       /\ invertible ((if up then pose_matrix bp else matrix_local bp)
                      @ (game_rotations game).2) = true) ->
  exists xf, get_bone_xform arma name game ph up = Ok xf.
Proof.
  intros Hl Hp. unfold get_bone_xform, get_bone_global_xf.
  rewrite Hl. cbn [subscript bind].
  destruct ph; [|eauto].
  destruct (bone_parent b) as [p|]; [|eauto].
  destruct (Hp p eq_refl) as (bp & Hbp & Hinv). rewrite Hbp.
  cbn [subscript bind]. unfold inverted_checked. rewrite Hinv. cbn. eauto.
Qed.

Lemma write_bone_recorded (self : NifExporter) (arma : Armature)
    (rank : string -> nat) (shape : bool) (btw : list string) :
  ranked rank arma ->
  preserve_hierarchy self = true ->
  (forall b, b ∈ bones arma ->
     invertible ((if export_pose self then pose_matrix b else matrix_local b)
                 @ (game_rotations (ex_game self)).2) = true) ->
  forall fuel st name b,
    rank name < fuel ->
    lookup_bone name (bones arma) = Some b ->
    recorded self arma shape btw st ->
    exists n st',
      write_bone fuel self st shape arma name btw
      = Some (Ok (Some n, st'))
      /\ recorded self arma shape btw st'
      /\ writtenbones st' !! name = Some n
      /\ (forall k v, writtenbones st !! k = Some v ->
                      writtenbones st' !! k = Some v)
      /\ (forall k, writtenbones st !! k = None ->
                    is_Some (writtenbones st' !! k) ->
                    rank k <= rank name).
Proof.
  intros Hranked Hph Hinv fuel.
  induction fuel as [|fuel IH]; intros st name b Hrank Hl Hrec; [lia|].
  cbn [write_bone].
  destruct (writtenbones st !! name) as [n|] eqn:Hw.
  { exists n, st. split; [reflexivity|]. split; [exact Hrec|].
    split; [exact Hw|]. split; [auto|].
    intros k Hk Hs. rewrite Hk in Hs. now destruct Hs. }
  rewrite Hph. cbn [negb]. rewrite andb_false_r, Hl.
  pose proof (lookup_bone_elem _ _ _ Hl) as Hin.
  pose proof (lookup_bone_name _ _ _ Hl) as Eb.
  assert (forall p, bone_parent b = Some p ->
            exists bp,
              lookup_bone p (bones arma) = Some bp
              /\ invertible ((if export_pose self then pose_matrix bp
                              else matrix_local bp)
                             @ (game_rotations (ex_game self)).2) = true)
    as Hclosed.
  { intros p Hp. destruct (proj1 (Hranked b p Hin Hp)) as [bp Hbp].
    exists bp. split; [exact Hbp|].
    apply Hinv. eapply lookup_bone_elem. exact Hbp. }
  destruct (get_bone_xform_ok arma name (ex_game self) true
              (export_pose self) b Hl Hclosed) as [xf Exf].
  assert (exists parname st1,
            match bone_parent b with
            | Some p => write_bone fuel self st shape arma p btw
            | None => Some (Ok (None, st))
            end = Some (Ok (parname, st1))
            /\ recorded self arma shape btw st1
            /\ parname = ex_nif_name self <$> bone_parent b
            /\ (forall p, bone_parent b = Some p ->
                  writtenbones st1 !! p = parname)
            /\ (forall k v, writtenbones st !! k = Some v ->
                            writtenbones st1 !! k = Some v)
            /\ (forall k, writtenbones st !! k = None ->
                          is_Some (writtenbones st1 !! k) ->
                          rank k < rank name))
    as (parname & st1 & -> & Hrec1 & Epar & Hpar & Hmono & Hnew).
  { destruct (bone_parent b) as [p|] eqn:Hp.
    - destruct (Hranked b p Hin Hp) as [[bp Hbp] Hlt].
      rewrite Eb in Hlt.
      destruct (IH st p bp ltac:(lia) Hbp Hrec)
        as (n & st1 & E & Hrec1 & Hn & Hm & Hr).
      exists (Some n), st1. split; [exact E|]. split; [exact Hrec1|].
      destruct Hrec1 as (_ & _ & Hnames).
      destruct (Hnames p n Hn) as [-> _].
      split; [reflexivity|]. split; [now intros p' [= <-]|].
      split; [exact Hm|].
      intros k Hk Hs. specialize (Hr k Hk Hs). lia.
    - exists None, st. split; [reflexivity|]. split; [exact Hrec|].
      split; [reflexivity|]. split; [discriminate|]. split; [auto|].
      intros k Hk Hs. rewrite Hk in Hs. now destruct Hs. }
  assert (writtenbones st1 !! name = None) as Hw1.
  { destruct (writtenbones st1 !! name) as [v|] eqn:Hv; [|reflexivity].
    specialize (Hnew name Hw (mk_is_Some _ _ Hv)). lia. }
  rewrite Exf.
  set (kind := if bool_decide (name ∈ btw) && shape
               then SkinBone else PlainNode).
  set (e := {| wb_kind := kind; wb_name := ex_nif_name self name;
               wb_xf := pack_xf_to_buf xf (ex_scale self);
               wb_parent := parname |}).
  assert ((if bool_decide (name ∈ btw) && shape
           then written st1
                ++ [{| wb_kind := SkinBone;
                       wb_name := ex_nif_name self name;
                       wb_xf := pack_xf_to_buf xf (ex_scale self);
                       wb_parent := parname |}]
           else written st1
                ++ [{| wb_kind := PlainNode;
                       wb_name := ex_nif_name self name;
                       wb_xf := pack_xf_to_buf xf (ex_scale self);
                       wb_parent := parname |}])
          = written st1 ++ [e]) as ->.
  { unfold e, kind. now destruct (bool_decide (name ∈ btw) && shape). }
  eexists _, _. split; [reflexivity|].
  destruct Hrec1 as ((Horder & Hentries) & Hlen & Hnames).
  split; [|split; [|split]].
  - unfold recorded, parents_first. cbn [written writtenbones].
    split; [split|split].
    + intros i e0 p Hi Hp0.
      destruct (decide (i < length (written st1))) as [Hlt|Hge].
      * rewrite lookup_app_l in Hi by exact Hlt.
        destruct (Horder i e0 p Hi Hp0) as (j & e' & Hj & He' & Hn').
        exists j, e'. split; [exact Hj|]. split; [|exact Hn'].
        rewrite lookup_app_l by lia. exact He'.
      * rewrite lookup_app_r in Hi by lia.
        destruct (i - length (written st1)) as [|d] eqn:Ed;
          cbn in Hi; [|now destruct d].
        injection Hi as <-. cbn in Hp0.
        destruct (bone_parent b) as [pb|] eqn:Hpb;
          [|rewrite Epar in Hp0; discriminate].
        pose proof (Hpar pb eq_refl) as Hwp. rewrite Hp0 in Hwp.
        destruct (Hentries pb p Hwp) as (e' & He' & Hn').
        apply list_elem_of_lookup in He' as [j Hj].
        exists j, e'. split; [|split; [|exact Hn']].
        -- apply lookup_lt_Some in Hj. lia.
        -- rewrite lookup_app_l; [exact Hj | now apply lookup_lt_Some in Hj].
    + intros k n Hk.
      destruct (decide (k = name)) as [->|Hne].
      * rewrite lookup_insert_eq in Hk. injection Hk as <-.
        exists e. split; [|reflexivity].
        apply elem_of_app. right. apply list_elem_of_here.
      * rewrite lookup_insert_ne in Hk by auto.
        destruct (Hentries k n Hk) as (e' & He' & Hn').
        exists e'. split; [|exact Hn']. apply elem_of_app. auto.
    + rewrite length_app, map_size_insert_None by exact Hw1. cbn. lia.
    + intros k n Hk.
      destruct (decide (k = name)) as [->|Hne].
      * rewrite lookup_insert_eq in Hk. injection Hk as <-.
        split; [reflexivity|]. exists b, e.
        split; [exact Hl|]. split.
        -- apply elem_of_app. right. apply list_elem_of_here.
        -- split; [reflexivity|]. split; [reflexivity | exact Epar].
      * rewrite lookup_insert_ne in Hk by auto.
        destruct (Hnames k n Hk) as (En & b' & e' & Hl' & He' & Hrest).
        split; [exact En|]. exists b', e'. split; [exact Hl'|].
        split; [|exact Hrest]. apply elem_of_app. auto.
  - cbn. apply lookup_insert_eq.
  - intros k v Hk. cbn.
    rewrite lookup_insert_ne by congruence. auto.
  - intros k Hk Hs. cbn in Hs.
    destruct (decide (k = name)) as [->|Hne]; [lia|].
    rewrite lookup_insert_ne in Hs by auto.
    specialize (Hnew k Hk Hs). lia.
Qed.

(** The loop over the bones keeps the record and writes every bone. *)
Lemma export_bones_recorded (self : NifExporter) (arma : Armature)
    (rank : string -> nat) (fuel : nat) :
  ranked rank arma ->
  preserve_hierarchy self = true ->
  (forall b, b ∈ bones arma ->
     invertible ((if export_pose self then pose_matrix b else matrix_local b)
                 @ (game_rotations (ex_game self)).2) = true) ->
  (forall b, b ∈ bones arma -> rank (bone_name b) < fuel) ->
  forall todo st,
    (forall b, b ∈ todo -> b ∈ bones arma) ->
    recorded self arma false (map bone_name (bones arma)) st ->
    exists st',
      export_bones fuel self st arma todo = Some (Ok st')
      /\ recorded self arma false (map bone_name (bones arma)) st'
      /\ (forall k v, writtenbones st !! k = Some v ->
                      writtenbones st' !! k = Some v)
      /\ (forall b, b ∈ todo -> is_Some (writtenbones st' !! bone_name b)).
Proof.
  intros Hranked Hph Hinv Hfuel todo.
  induction todo as [|b todo IH]; intros st Hsub Hrec; cbn [export_bones].
  - exists st. split; [reflexivity|]. split; [exact Hrec|]. split; [auto|].
    intros b Hb. now apply elem_of_nil in Hb.
  - assert (b ∈ bones arma) as Hb by (apply Hsub, list_elem_of_here).
    assert (is_Some (lookup_bone (bone_name b) (bones arma))) as [b' Hl].
    { apply lookup_bone_elem_of. now apply list_elem_of_fmap_2. }
    destruct (write_bone_recorded self arma rank false
                (map bone_name (bones arma)) Hranked Hph Hinv fuel st
                (bone_name b) b' (Hfuel b Hb) Hl Hrec)
      as (n & st1 & E & Hrec1 & Hn & Hmono1 & _).
    rewrite E.
    destruct (IH st1) as (st' & E' & Hrec' & Hmono' & Hall);
      [intros x Hx; apply Hsub; now apply list_elem_of_further | exact Hrec1 |].
    exists st'. split; [exact E'|]. split; [exact Hrec'|]. split; [auto|].
    intros x [-> | Hx]%elem_of_cons; [|auto].
    rewrite (Hmono' _ _ Hn). eauto.
Qed.

(** X20: with the hierarchy preserved, [export_armature] writes the
    bones of an armature without a cycle of parents, whose bones have
    different names and global transforms that have an inverse, as
    nodes: one node for each bone, under the nif name of the bone, with
    the nif name of the parent of the bone as its parent, and every
    node after the node of its parent. *)
Theorem export_armature_parents_first (self : NifExporter) (arma : Armature)
    (rank : string -> nat) (fuel : nat) :
  ranked rank arma ->
  preserve_hierarchy self = true ->
  ~ (ex_scale self == 0)%Q ->
  NoDup (map bone_name (bones arma)) ->
  (forall b, b ∈ bones arma ->
     invertible ((if export_pose self then pose_matrix b else matrix_local b)
                 @ (game_rotations (ex_game self)).2) = true) ->
  (forall b, b ∈ bones arma -> rank (bone_name b) < fuel) ->
  exists st',
    export_armature fuel self {| writtenbones := ∅; written := [] |} arma
    = Some (Ok st')
    /\ parents_first st'
    /\ length (written st') = length (bones arma)
    /\ forall b, b ∈ bones arma ->
         exists e, e ∈ written st'
                   /\ wb_kind e = PlainNode
                   /\ wb_name e = ex_nif_name self (bone_name b)
                   /\ wb_parent e = ex_nif_name self <$> bone_parent b.
Proof.
  intros Hranked Hph _ Hnd Hinv Hfuel. unfold export_armature.
  destruct (export_bones_recorded self arma rank fuel Hranked Hph Hinv Hfuel
              (bones arma) {| writtenbones := ∅; written := [] |})
    as (st' & E & (Hpf & Hlen & Hnames) & _ & Hall).
  - auto.
  - unfold recorded, parents_first. cbn.
    split; [split|split]; try reflexivity.
    + intros i e p Hi. rewrite lookup_nil in Hi. discriminate.
    + intros k n Hk. rewrite lookup_empty in Hk. discriminate.
    + intros k n Hk. rewrite lookup_empty in Hk. discriminate.
  - exists st'. split; [exact E|]. split; [exact Hpf|]. split.
    + rewrite Hlen, <- (size_dom (D := gset string)).
      assert (dom (writtenbones st')
              = list_to_set (map bone_name (bones arma))) as ->.
      { apply set_eq. intros k.
        rewrite elem_of_dom, elem_of_list_to_set. split.
        - intros [n Hk]. destruct (Hnames k n Hk) as (_ & b & _ & Hl & _).
          apply lookup_bone_elem_of. eauto.
        - intros Hk. apply list_elem_of_fmap in Hk as (b & -> & Hb). auto. }
      rewrite size_list_to_set by exact Hnd. apply length_map.
    + intros b Hb. destruct (Hall b Hb) as [n Hn].
      destruct (Hnames _ _ Hn) as (-> & b' & e & Hl & He & Hname & Hkind & Hpar).
      rewrite (lookup_bone_unique _ _ Hnd Hb) in Hl. injection Hl as <-.
      exists e. rewrite andb_false_r in Hkind. auto.
Qed.

(** Without the hierarchy and without a shape [write_bone] adds nothing
    to the nif. *)
Lemma write_bone_quiet (self : NifExporter) (arma : Armature)
    (rank : string -> nat) (btw : list string) :
  ranked rank arma ->
  preserve_hierarchy self = false ->
  forall fuel st name b,
    rank name < fuel ->
    lookup_bone name (bones arma) = Some b ->
    exists r st',
      write_bone fuel self st false arma name btw = Some (Ok (r, st'))
      /\ written st' = written st.
Proof.
  intros Hranked Hph fuel.
  induction fuel as [|fuel IH]; intros st name b Hrank Hl; [lia|].
  cbn [write_bone].
  destruct (writtenbones st !! name) as [n|]; [eauto|].
  rewrite Hph. cbn [negb]. rewrite andb_true_r.
  destruct (bool_decide (name ∈ btw)); cbn [negb]; [|eauto].
  rewrite Hl.
  pose proof (lookup_bone_elem _ _ _ Hl) as Hin.
  pose proof (lookup_bone_name _ _ _ Hl) as Eb.
  assert (exists parname st1,
            match bone_parent b with
            | Some p => write_bone fuel self st false arma p btw
            | None => Some (Ok (None, st))
            end = Some (Ok (parname, st1))
            /\ written st1 = written st) as (parname & st1 & -> & Ew).
  { destruct (bone_parent b) as [p|] eqn:Hp; [|eauto].
    destruct (Hranked b p Hin Hp) as [[bp Hbp] Hlt]. rewrite Eb in Hlt.
    apply (IH st p bp); [lia | exact Hbp]. }
  unfold get_bone_xform, get_bone_global_xf. rewrite Hl. cbn.
  eexists _, _. split; [reflexivity | exact Ew].
Qed.

(** X21: without the option to preserve the hierarchy,
    [export_armature] adds no node to the nif; it only records the
    bones as written. *)
Theorem export_armature_quiet (self : NifExporter) (arma : Armature)
    (rank : string -> nat) (fuel : nat) (st : export_state) :
  ranked rank arma ->
  preserve_hierarchy self = false ->
  ~ (ex_scale self == 0)%Q ->
  (forall b, b ∈ bones arma -> rank (bone_name b) < fuel) ->
  exists st',
    export_armature fuel self st arma = Some (Ok st')
    /\ written st' = written st.
Proof.
  intros Hranked Hph _ Hfuel. unfold export_armature.
  assert (forall todo st0,
            (forall b, b ∈ todo -> b ∈ bones arma) ->
            exists st', export_bones fuel self st0 arma todo = Some (Ok st')
                        /\ written st' = written st0) as Hloop.
  { induction todo as [|b todo IH]; intros st0 Hsub; cbn [export_bones];
      [eauto|].
    assert (b ∈ bones arma) as Hb by (apply Hsub, list_elem_of_here).
    assert (is_Some (lookup_bone (bone_name b) (bones arma))) as [b' Hl].
    { apply lookup_bone_elem_of. now apply list_elem_of_fmap_2. }
    destruct (write_bone_quiet self arma rank (map bone_name (bones arma))
                Hranked Hph fuel st0 (bone_name b) b' (Hfuel b Hb) Hl)
      as (r & st1 & E & Ew).
    rewrite E.
    destruct (IH st1) as (st' & E' & Ew');
      [intros x Hx; apply Hsub; now apply list_elem_of_further|].
    exists st'. split; [exact E' | congruence]. }
  apply Hloop. auto.
Qed.

(** *** The bones of a skin *)

Lemma write_bone_skin (self : NifExporter) (arma : Armature)
    (rank : string -> nat) (keys : list string) (w0 : list written_bone) :
  ranked rank arma ->
  preserve_hierarchy self = false ->
  forall fuel st name b order,
    rank name < fuel ->
    lookup_bone name (bones arma) = Some b ->
    skin_recorded self arma keys w0 order st ->
    exists r st' more,
      write_bone fuel self st true arma name keys = Some (Ok (r, st'))
      /\ skin_recorded self arma keys w0 (order ++ more) st'
      /\ (name ∈ keys -> name ∈ order ++ more)
      /\ (forall k, k ∈ more -> rank k <= rank name).
Proof.
  intros Hranked Hph fuel.
  induction fuel as [|fuel IH]; intros st name b order Hrank Hl Hrec; [lia|].
  cbn [write_bone].
  destruct (writtenbones st !! name) as [n|] eqn:Hw.
  { exists (Some n), st, []. rewrite app_nil_r.
    split; [reflexivity|]. split; [exact Hrec|]. split.
    - intros _. apply (proj1 (proj2 Hrec)). rewrite Hw. eauto.
    - intros k Hk. now apply elem_of_nil in Hk. }
  rewrite Hph. cbn [negb]. rewrite andb_true_r.
  destruct (bool_decide (name ∈ keys)) eqn:Hkey; cbn [negb].
  2:{ exists None, st, []. rewrite app_nil_r.
      split; [reflexivity|]. split; [exact Hrec|]. split.
      - intros Hin. apply bool_decide_eq_false in Hkey. contradiction.
      - intros k Hk. now apply elem_of_nil in Hk. }
  apply bool_decide_eq_true in Hkey.
  rewrite Hl.
  pose proof (lookup_bone_elem _ _ _ Hl) as Hin.
  pose proof (lookup_bone_name _ _ _ Hl) as Eb.
  assert (exists parname st1 more1,
            match bone_parent b with
            | Some p => write_bone fuel self st true arma p keys
            | None => Some (Ok (None, st))
            end = Some (Ok (parname, st1))
            /\ skin_recorded self arma keys w0 (order ++ more1) st1
            /\ (forall k, k ∈ more1 -> rank k < rank name))
    as (parname & st1 & more1 & -> & Hrec1 & Hnew).
  { destruct (bone_parent b) as [p|] eqn:Hp.
    - destruct (Hranked b p Hin Hp) as [[bp Hbp] Hlt].
      rewrite Eb in Hlt.
      destruct (IH st p bp order ltac:(lia) Hbp Hrec)
        as (r & st1 & more1 & E & Hrec1 & _ & Hr).
      exists r, st1, more1. split; [exact E|]. split; [exact Hrec1|].
      intros k Hk. specialize (Hr k Hk). lia.
    - exists None, st, []. rewrite app_nil_r.
      split; [reflexivity|]. split; [exact Hrec|].
      intros k Hk. now apply elem_of_nil in Hk. }
  assert (name ∉ order ++ more1) as Hfresh.
  { intros [Ho|Hm]%elem_of_app.
    - apply (proj1 (proj2 Hrec)) in Ho. rewrite Hw in Ho. now destruct Ho.
    - specialize (Hnew name Hm). lia. }
  unfold get_bone_xform, get_bone_global_xf. rewrite Hl.
  cbn [subscript bind].
  destruct Hrec1 as (Hnd & Hdom & Hsub & new & Ew & Hall).
  eexists (Some (ex_nif_name self name)), _, (more1 ++ [name]).
  split; [reflexivity|].
  rewrite app_assoc. split; [|split].
  - unfold skin_recorded. cbn [written writtenbones].
    split; [|split; [|split]].
    + apply NoDup_app. split; [exact Hnd|]. split; [|apply NoDup_singleton].
      intros x Hx ->%list_elem_of_singleton. contradiction.
    + intros k. rewrite elem_of_app, list_elem_of_singleton.
      destruct (decide (k = name)) as [->|Hne].
      * rewrite lookup_insert_eq. split; eauto.
      * rewrite lookup_insert_ne by auto. rewrite <- Hdom. tauto.
    + intros k [Hk | ->%list_elem_of_singleton]%elem_of_app; auto.
    + eexists (new ++ [_]). split; [now rewrite Ew, app_assoc|].
      apply Forall2_app; [exact Hall|]. constructor; [|constructor].
      unfold skin_bone_for. cbn.
      split; [reflexivity|]. split; [reflexivity|]. split; [reflexivity|].
      exists b. split; [exact Hl | reflexivity].
  - intros _. apply elem_of_app. right. apply list_elem_of_here.
  - intros k [Hk | ->%list_elem_of_singleton]%elem_of_app; [|lia].
    specialize (Hnew k Hk). lia.
Qed.

Lemma write_skin_bones_recorded (self : NifExporter) (arma : Armature)
    (rank : string -> nat) (fuel : nat) (keys : list string)
    (w0 : list written_bone) :
  ranked rank arma ->
  preserve_hierarchy self = false ->
  (forall b, b ∈ bones arma -> rank (bone_name b) < fuel) ->
  forall todo st order,
    (forall k, k ∈ todo -> k ∈ keys /\ has_bone k arma = true) ->
    skin_recorded self arma keys w0 order st ->
    exists st' more,
      write_skin_bones fuel self st arma keys todo = Some (Ok st')
      /\ skin_recorded self arma keys w0 (order ++ more) st'
      /\ (forall k, k ∈ todo -> k ∈ order ++ more).
Proof.
  intros Hranked Hph Hfuel todo.
  induction todo as [|k todo IH]; intros st order Hsub Hrec;
    cbn [write_skin_bones].
  - exists st, []. rewrite app_nil_r. split; [reflexivity|].
    split; [exact Hrec|]. intros k Hk. now apply elem_of_nil in Hk.
  - destruct (Hsub k ltac:(apply list_elem_of_here)) as [Hkey Hhas].
    unfold has_bone in Hhas.
    destruct (lookup_bone k (bones arma)) as [b|] eqn:Hl; [|discriminate].
    assert (rank k < fuel) as Hrank.
    { rewrite <- (lookup_bone_name _ _ _ Hl). apply Hfuel.
      eapply lookup_bone_elem; eauto. }
    destruct (write_bone_skin self arma rank keys w0 Hranked Hph fuel st k b
                order Hrank Hl Hrec)
      as (r & st1 & more1 & E & Hrec1 & Hin1 & _).
    rewrite E.
    destruct (IH st1 (order ++ more1)) as (st' & more & E' & Hrec' & Hall);
      [intros x Hx; apply Hsub; now apply list_elem_of_further | exact Hrec1 |].
    exists st', (more1 ++ more). rewrite app_assoc.
    split; [exact E'|]. split; [exact Hrec'|].
    intros x [-> | Hx]%elem_of_cons; [|auto].
    apply elem_of_app. left. auto.
Qed.

(** X22: without the hierarchy, the first loop of [export_skin] gives
    the shape one bone for each bone of the armature that has weights,
    and nothing else: a bone without a parent, under the nif name, at
    the global transform of the bone (the pose when poses are
    exported).  The bones come in an order of their own. *)
Theorem write_skin_bones_flat (self : NifExporter) (arma : Armature)
    (rank : string -> nat) (fuel : nat) (keys : list string)
    (w0 : list written_bone) :
  ranked rank arma ->
  preserve_hierarchy self = false ->
  ~ (ex_scale self == 0)%Q ->
  NoDup keys ->
  (forall k, k ∈ keys -> has_bone k arma = true) ->
  (forall b, b ∈ bones arma -> rank (bone_name b) < fuel) ->
  exists st' order new,
    write_skin_bones fuel self {| writtenbones := ∅; written := w0 |} arma
      keys keys
    = Some (Ok st')
    /\ written st' = w0 ++ new
    /\ order ≡ₚ keys
    /\ Forall2 (skin_bone_for self arma) order new
    /\ (forall k, is_Some (writtenbones st' !! k) <-> k ∈ keys).
Proof.
  intros Hranked Hph _ Hnd Hhas Hfuel.
  destruct (write_skin_bones_recorded self arma rank fuel keys w0 Hranked Hph
              Hfuel keys {| writtenbones := ∅; written := w0 |} [])
    as (st' & order & E & (Hndo & Hdom & Hsub & new & Ew & Hall) & Hin).
  - auto.
  - unfold skin_recorded. cbn. split; [constructor|]. split.
    + intros k. rewrite lookup_empty. split.
      * intros Hk. now apply elem_of_nil in Hk.
      * intros [? ?]. discriminate.
    + split; [intros k Hk; now apply elem_of_nil in Hk|].
      exists []. split; [now rewrite app_nil_r | constructor].
  - cbn [app] in *. exists st', order, new.
    split; [exact E|]. split; [exact Ew|].
    assert (forall k, k ∈ order <-> k ∈ keys) as Hsame
      by (intros k; split; auto).
    split; [now apply NoDup_Permutation|]. split; [exact Hall|].
    intros k. now rewrite <- Hdom.
Qed.

(** X23: the skin-to-bone transform that [export_skin] sets for a bone
    is taken from the bind transform of the bone, whether poses are
    exported or not: the inverse of the global bind transform seen
    from the object.  [ValueError] is raised when the world matrix of
    the object or the bind transform seen from it has no inverse. *)
Theorem skin_to_bone_xform_bind (self : NifExporter) (obj : Object)
    (arma : Armature) (name : string) :
  ~ (ex_scale self == 0)%Q ->
  skin_to_bone_xform self obj arma name
  = (b <- subscript (lookup_bone name (bones arma)) ;;
     world_inv <- inverted_checked (matrix_world obj) ;;
     xfinv <- inverted_checked
                (world_inv
                 @ (matrix_local b @ (game_rotations (ex_game self)).2)) ;;
     Ok (pack_xf_to_buf xfinv (ex_scale self))).
Proof.
  intros _. unfold skin_to_bone_xform, get_bone_xform, get_bone_global_xf.
  destruct (export_pose self);
    now destruct (lookup_bone name (bones arma)).
Qed.

End ExportBones.

(** ** The root of an exported skeleton *)

Section FindRoot.
Context `{Host}.

(** X24: [find_root] fails on the empty list only; the bone it
    returns is a bone of the list, the first one whose parent is not
    in the list, and when every bone has its parent in the list it is
    the first bone. *)
Theorem find_root_spec (bones : list Bone) :
  match find_root bones with
  | None => bones = []
  | Some r =>
      exists i,
        bones !! i = Some r
        /\ (forall j b, j < i -> bones !! j = Some b ->
                        parent_in bones b = true)
        /\ (parent_in bones r = true ->
            i = 0 /\ Forall (fun b => parent_in bones b = true) bones)
  end.
Proof.
  unfold find_root.
  generalize (parent_in bones) as P. intros P.
  destruct (find (fun b => negb (P b)) bones) as [r|] eqn:Hf.
  - induction bones as [|x l IH]; cbn in Hf; [discriminate|].
    destruct (P x) eqn:Hx; cbn in Hf.
    + destruct (IH Hf) as (i & Hi & Hbefore & Hr).
      assert (P r = false) as Hrf.
      { clear -Hf. induction l as [|y l IH]; cbn in Hf; [discriminate|].
        destruct (P y) eqn:Hy; cbn in Hf; [auto | congruence]. }
      exists (S i). split; [exact Hi|]. split.
      * intros [|j] b Hj Hb; cbn in Hb; [congruence|].
        apply (Hbefore j b); [lia | exact Hb].
      * rewrite Hrf. discriminate.
    + injection Hf as <-. exists 0. split; [reflexivity|]. split.
      * intros j b Hj. lia.
      * rewrite Hx. discriminate.
  - assert (Forall (fun b => P b = true) bones) as Hall.
    { clear -Hf. induction bones as [|x l IH]; [constructor|].
      cbn in Hf. destruct (P x) eqn:Hx; cbn in Hf; [|discriminate].
      constructor; auto. }
    destruct bones as [|x l]; [reflexivity|]. cbn.
    exists 0. split; [reflexivity|]. split; [intros j b Hj; lia | auto].
Qed.

End FindRoot.

(** ** The four heaviest weights *)

Lemma insert_desc_perm (x : string * Q) (l : list (string * Q)) :
  insert_desc x l ≡ₚ x :: l.
Proof.
  induction l as [|y l IH]; cbn; [reflexivity|].
  destruct (Qle_bool y.2 x.2); [reflexivity|].
  rewrite IH. apply Permutation_swap.
Qed.

Lemma sorted_desc_perm (l : list (string * Q)) : sorted_desc l ≡ₚ l.
Proof.
  induction l as [|x l IH]; cbn; [reflexivity|].
  now rewrite insert_desc_perm, IH.
Qed.

Lemma insert_desc_heaviest_first (x : string * Q) (l : list (string * Q)) :
  heaviest_first l -> heaviest_first (insert_desc x l).
Proof.
  induction l as [|y l IH]; cbn; [auto|].
  intros [Hy Hl]. destruct (Qle_bool y.2 x.2) eqn:E; cbn.
  - apply Qle_bool_iff in E. split; [|auto].
    constructor; [exact E|].
    eapply Forall_impl; [exact Hy|]. cbn. intros z Hz.
    eapply Qle_trans; eauto.
  - split; [|auto].
    assert (Hxy : (x.2 <= y.2)%Q).
    { destruct (Qlt_le_dec x.2 y.2) as [Hlt|Hle]; [now apply Qlt_le_weak|].
      apply Qle_bool_iff in Hle. congruence. }
    rewrite insert_desc_perm. constructor; auto.
Qed.

Lemma sorted_desc_heaviest_first (l : list (string * Q)) :
  heaviest_first (sorted_desc l).
Proof.
  induction l as [|x l IH]; cbn; [auto|].
  now apply insert_desc_heaviest_first.
Qed.

Lemma heaviest_first_take_drop (n : nat) (l : list (string * Q)) p q :
  heaviest_first l -> p ∈ take n l -> q ∈ drop n l -> (q.2 <= p.2)%Q.
Proof.
  revert n. induction l as [|x l IH]; intros [|n]; cbn;
    try (intros _ Hp; now apply elem_of_nil in Hp).
  intros [Hx Hl] Hp Hq. apply elem_of_cons in Hp as [->|Hp].
  - rewrite Forall_forall in Hx. apply Hx.
    eapply (subseteq_drop n); eauto.
  - eauto.
Qed.

Lemma dict_of_pairs_lookup (l : list (string * Q)) g w :
  NoDup l.*1 -> dict_of_pairs l !! g = Some w <-> (g, w) ∈ l.
Proof.
  intros Hnd. unfold dict_of_pairs.
  rewrite <- elem_of_list_to_map.
  - now rewrite elem_of_reverse.
  - rewrite fmap_reverse. eapply NoDup_Permutation_proper; [|exact Hnd].
    apply reverse_Permutation.
Qed.

Lemma submseteq_NoDup {A : Type} (l k : list A) :
  l ⊆+ k -> NoDup k -> NoDup l.
Proof.
  intros Hs Hk. apply submseteq_Permutation in Hs as [r Hr].
  rewrite Hr in Hk. now apply NoDup_app in Hk as [? _].
Qed.

Section WeightsMore.
Context `{Host}.

Lemma trim_to_four_keys (weights : list (string * Q)) (arma : Armature) :
  NoDup weights.*1 ->
  NoDup (take 4 (sorted_desc
           (filter (fun p => has_bone p.1 arma = true) weights)) ++
         filter (fun p => has_bone p.1 arma <> true) weights).*1.
Proof.
  intros Hnd. eapply submseteq_NoDup; [|exact Hnd].
  apply fmap_submseteq.
  rewrite <- (filter_app_complement
                (fun p => has_bone p.1 arma = true) weights) at 3.
  apply submseteq_skips_r.
  rewrite <- (sorted_desc_perm (filter _ weights)) at 2.
  apply submseteq_take.
Qed.

(** X25: [trim_to_four]: when no vertex group is listed twice, the
    weights written for a vertex are all its weights on groups that are
    not bones of the armature, and of its weights on bones of the
    armature the four heaviest (all of them when there are at most
    four): no weight left out is heavier than one that is kept. *)
Theorem trim_to_four_heaviest (weights : list (string * Q)) (arma : Armature) :
  NoDup weights.*1 ->
  exists kept : list (string * Q),
    length kept
      = min 4 (length (filter (fun p => has_bone p.1 arma = true) weights)) /\
    (forall p, p ∈ kept -> p ∈ weights /\ has_bone p.1 arma = true) /\
    (forall p q, p ∈ kept -> q ∈ weights -> has_bone q.1 arma = true ->
                 q ∉ kept -> (q.2 <= p.2)%Q) /\
    (forall g w, trim_to_four weights (Some arma) !! g = Some w <->
                 (g, w) ∈ kept \/
                 ((g, w) ∈ weights /\ has_bone g arma <> true)).
Proof.
  intros Hnd.
  set (lst := filter (fun p => has_bone p.1 arma = true) weights).
  exists (take 4 (sorted_desc lst)).
  split; [|split; [|split]].
  - rewrite length_take. f_equal.
    apply Permutation_length, sorted_desc_perm.
  - intros p Hp. apply (subseteq_take 4) in Hp.
    rewrite sorted_desc_perm in Hp. unfold lst in Hp.
    apply list_elem_of_filter in Hp. tauto.
  - intros p q Hp Hq Hb Hn.
    apply (heaviest_first_take_drop 4 (sorted_desc lst));
      [apply sorted_desc_heaviest_first|exact Hp|].
    assert (Hs : q ∈ sorted_desc lst).
    { rewrite sorted_desc_perm. unfold lst.
      apply list_elem_of_filter. auto. }
    rewrite <- (take_drop 4 (sorted_desc lst)) in Hs.
    apply elem_of_app in Hs as [Hs|Hs]; [contradiction|exact Hs].
  - intros g w. cbn [trim_to_four]. fold lst.
    rewrite dict_of_pairs_lookup by now apply trim_to_four_keys.
    rewrite elem_of_app, list_elem_of_filter. cbn. tauto.
Qed.

End WeightsMore.

(** ** The further properties on the samples *)

(** Decides a closed decidable proposition by evaluation. *)
Ltac decide_by_evaluation :=
  match goal with
  | |- ?P => refine (@bool_decide_unpack P _ _); vm_compute; exact I
  end.

Section MoreSamples.
#[local] Existing Instance Diag.host.
Import Sample Trial.

Lemma importer_scale (f : NifFile) (skel : option NifFile)
    (shapes : gmap string NiShape) :
  ~ (scale (importer f skel shapes) == 0)%Q.
Proof. intros E. vm_compute in E. discriminate E. Qed.

(** *** The hierarchy walk *)

Lemma connect_armature_creates_witness :
  ~ (scale arm_importer == 0)%Q
  /\ connect_armature arm_importer hand_rig = Some (Ok (arm_rig, ∅))
  /\ connect_armature_log arm_importer hand_rig
     = Some (Ok [("Forearm", "Forearm"); ("Upperarm", "Upperarm")])
  /\ map bone_name (bones arm_rig)
     ≡ₚ map bone_name (bones hand_rig)
        ++ [("Forearm", "Forearm"); ("Upperarm", "Upperarm")].*2
  /\ NoDup [("Forearm", "Forearm"); ("Upperarm", "Upperarm")].*2
  /\ Forall (fun n => n ∈ parent_candidates arm_importer
                      /\ n ∉ map bone_name (bones hand_rig))
       [("Forearm", "Forearm"); ("Upperarm", "Upperarm")].*2
  /\ length [("Forearm", "Forearm"); ("Upperarm", "Upperarm")]
     <= size (nodes (nif arm_importer))
        + from_option (fun skel => size (nodes skel)) 0
            (reference_skel arm_importer).
Proof.
  assert (connect_armature arm_importer hand_rig = Some (Ok (arm_rig, ∅)))
    as Hrun by (vm_compute; reflexivity).
  assert (connect_armature_log arm_importer hand_rig
          = Some (Ok [("Forearm", "Forearm"); ("Upperarm", "Upperarm")]))
    as Hlog by (vm_compute; reflexivity).
  split; [exact (importer_scale arm_file None ∅)|]. split; [exact Hrun|].
  split; [exact Hlog|].
  exact (connect_armature_creates arm_importer hand_rig arm_rig ∅
           [("Forearm", "Forearm"); ("Upperarm", "Upperarm")]
           (importer_scale arm_file None ∅) Hrun Hlog).
Defined.

Lemma connect_armature_unique_names_witness :
  ~ (scale arm_importer == 0)%Q
  /\ connect_armature arm_importer hand_rig = Some (Ok (arm_rig, ∅))
  /\ NoDup (map bone_name (bones hand_rig))
  /\ NoDup (map bone_name (bones arm_rig)).
Proof.
  assert (connect_armature arm_importer hand_rig = Some (Ok (arm_rig, ∅)))
    as Hrun by (vm_compute; reflexivity).
  assert (NoDup (map bone_name (bones hand_rig))) as Hnd
    by decide_by_evaluation.
  split; [exact (importer_scale arm_file None ∅)|].
  split; [exact Hrun|]. split; [exact Hnd|].
  exact (connect_armature_unique_names arm_importer hand_rig arm_rig ∅
           (importer_scale arm_file None ∅) Hrun Hnd).
Defined.

Lemma connect_armature_keeps_bones_witness :
  ~ (scale arm_importer == 0)%Q
  /\ connect_armature arm_importer hand_rig = Some (Ok (arm_rig, ∅))
  /\ lookup_bone "Hand" (bones hand_rig) = Some (bone "Hand" 1)
  /\ exists b', lookup_bone "Hand" (bones arm_rig) = Some b'
                /\ kept (bone "Hand" 1) b'.
Proof.
  assert (connect_armature arm_importer hand_rig = Some (Ok (arm_rig, ∅)))
    as Hrun by (vm_compute; reflexivity).
  split; [exact (importer_scale arm_file None ∅)|].
  split; [exact Hrun|]. split; [reflexivity|].
  exact (connect_armature_keeps_bones arm_importer hand_rig arm_rig ∅ "Hand"
           (bone "Hand" 1) (importer_scale arm_file None ∅) Hrun eq_refl).
Defined.


(** In the rig of the file in which [A] and [B] are each the parent of
    the other, [B] is the parent of [A], and [A] is refused as the
    parent of [B]; the search finds a parent for [B]. *)
Example sample_parent_refused :
  parent_refused cyclic_importer cyclic_rig "B"
  /\ ~ no_parent_found cyclic_importer "B".
Proof.
  split.
  - exists "A", "A". vm_compute. auto.
  - unfold no_parent_found.
    assert (find_parent cyclic_importer "B" = Some ("A", "A")) as ->
      by (vm_compute; reflexivity).
    discriminate.
Qed.

Lemma connect_armature_collisions_witness :
  ~ (scale guarded_importer == 0)%Q
  /\ connect_armature guarded_importer forearm_rig
  = Some (Ok (guarded_rig, {["Forearm"]}))
  /\ "Forearm" ∈ ({["Forearm"]} : gset string)
  /\ exists node, nodes (nif guarded_importer) !! "Forearm" = Some node
                  /\ collision_object node = true.
Proof.
  assert (connect_armature guarded_importer forearm_rig
          = Some (Ok (guarded_rig, {["Forearm"]})))
    as Hrun by (vm_compute; reflexivity).
  assert ("Forearm" ∈ ({["Forearm"]} : gset string)) as Hin
    by decide_by_evaluation.
  split; [exact (importer_scale guarded_file None ∅)|].
  split; [exact Hrun|]. split; [exact Hin|].
  exact (connect_armature_collisions guarded_importer forearm_rig guarded_rig
           {["Forearm"]} "Forearm" (importer_scale guarded_file None ∅)
           Hrun Hin).
Defined.

Lemma connect_armature_idempotent_witness :
  ~ (scale arm_importer == 0)%Q
  /\ connect_armature arm_importer hand_rig = Some (Ok (arm_rig, ∅))
  /\ exists colls2,
       connect_armature arm_importer arm_rig = Some (Ok (arm_rig, colls2)).
Proof.
  assert (connect_armature arm_importer hand_rig = Some (Ok (arm_rig, ∅)))
    as Hrun by (vm_compute; reflexivity).
  split; [exact (importer_scale arm_file None ∅)|]. split; [exact Hrun|].
  exact (connect_armature_idempotent arm_importer hand_rig arm_rig ∅
           (importer_scale arm_file None ∅) Hrun).
Defined.

(** *** Posing and adding bones *)

Lemma set_all_bone_poses_poses_witness :
  has_bone "Spine" rooted_rig = true
  /\ nodes skeleton !! nif_name plain "Spine"
     = Some (node "Spine" (Some "Scene Root") 10)
  /\ blockname (node "Spine" (Some "Scene Root") 10) = "NiNode"
  /\ node_name (node "Spine" (Some "Scene Root") 10) <> rootName skeleton
  /\ pose_of "Spine" (set_all_bone_poses plain rooted_rig skeleton)
     = Some (get_pose_blender_xf
               (xform_to_global (node "Spine" (Some "Scene Root") 10))
               (game (nif plain)) (scale plain)).
Proof.
  assert (nodes skeleton !! nif_name plain "Spine"
          = Some (node "Spine" (Some "Scene Root") 10))
    as Hn by (vm_compute; reflexivity).
  assert (node_name (node "Spine" (Some "Scene Root") 10) <> rootName skeleton)
    as Hr by (vm_compute; discriminate).
  split; [reflexivity|]. split; [exact Hn|]. split; [reflexivity|].
  split; [exact Hr|].
  exact (set_all_bone_poses_poses plain rooted_rig skeleton "Spine"
           (node "Spine" (Some "Scene Root") 10) eq_refl Hn eq_refl Hr).
Defined.

Lemma set_bone_poses_skips_witness :
  Forall (fun pair =>
            has_bone pair.2 rooted_rig = false
            \/ forall nif_bone,
                 nodes skeleton !! pair.1 = Some nif_bone ->
                 blockname nif_bone <> "NiNode"
                 \/ node_name nif_bone = rootName skeleton)
    [("Scene Root", "Scene Root"); ("Neck", "Neck"); ("Tail", "Spine")]
  /\ set_bone_poses plain rooted_rig skeleton
       [("Scene Root", "Scene Root"); ("Neck", "Neck"); ("Tail", "Spine")]
     = rooted_rig.
Proof.
  assert (Forall (fun pair =>
            has_bone pair.2 rooted_rig = false
            \/ forall nif_bone,
                 nodes skeleton !! pair.1 = Some nif_bone ->
                 blockname nif_bone <> "NiNode"
                 \/ node_name nif_bone = rootName skeleton)
            [("Scene Root", "Scene Root"); ("Neck", "Neck");
             ("Tail", "Spine")]) as Hall.
  { constructor; [|constructor; [|constructor; [|constructor]]].
    - right. intros nif_bone Hn.
      assert (nodes skeleton !! "Scene Root"
              = Some (node "Scene Root" None 0)) as E
        by (vm_compute; reflexivity).
      cbn [fst] in Hn. rewrite E in Hn. injection Hn as <-.
      right. reflexivity.
    - left. reflexivity.
    - right. intros nif_bone Hn.
      assert (nodes skeleton !! "Tail" = None) as E
        by (vm_compute; reflexivity).
      cbn [fst] in Hn. rewrite E in Hn. discriminate. }
  split; [exact Hall|].
  exact (set_bone_poses_skips plain rooted_rig skeleton
           [("Scene Root", "Scene Root"); ("Neck", "Neck"); ("Tail", "Spine")]
           Hall).
Defined.

Lemma add_bones_to_arma_bones_witness :
  ~ (scale plain == 0)%Q
  /\ (forall n, n ∈ ["Scene Root"; "Spine"; "Neck"] ->
                n <> rootName skeleton ->
       has_bone (blender_name plain n)
         (add_bones_to_arma plain rooted_rig skeleton
            ["Scene Root"; "Spine"; "Neck"]) = true)
  /\ exists new,
       map rest_of
         (bones (add_bones_to_arma plain rooted_rig skeleton
                   ["Scene Root"; "Spine"; "Neck"]))
       = map rest_of (bones rooted_rig) ++ map rest_of new
       /\ forall x, x ∈ map bone_name new ->
            (x ∉ map bone_name (bones rooted_rig))
            /\ exists n, n ∈ ["Scene Root"; "Spine"; "Neck"]
                         /\ n <> rootName skeleton
                         /\ x = blender_name plain n.
Proof.
  split; [exact (importer_scale skeleton None ∅)|].
  exact (add_bones_to_arma_bones plain rooted_rig skeleton
           ["Scene Root"; "Spine"; "Neck"] (importer_scale skeleton None ∅)).
Defined.

Lemma add_bones_to_arma_unique_names_witness :
  ~ (scale plain == 0)%Q
  /\ NoDup (map bone_name (bones rooted_rig))
  /\ NoDup (map bone_name
              (bones (add_bones_to_arma plain rooted_rig skeleton
                        ["Scene Root"; "Spine"; "Neck"]))).
Proof.
  assert (NoDup (map bone_name (bones rooted_rig))) as Hnd
    by decide_by_evaluation.
  split; [exact (importer_scale skeleton None ∅)|]. split; [exact Hnd|].
  exact (add_bones_to_arma_unique_names plain rooted_rig skeleton
           ["Scene Root"; "Spine"; "Neck"] (importer_scale skeleton None ∅)
           Hnd).
Defined.

(** *** Parenting a shape *)

Lemma set_parent_arma_no_reference_witness :
  ~ (scale plain == 0)%Q
  /\ reference_skel plain = None
  /\ bones (set_parent_arma skin_to_bone plain None body_obj head None).1.1
     = bones (default make_armature None)
  /\ NoReferenceSkeleton
     ∈ (set_parent_arma skin_to_bone plain None body_obj head None).2.
Proof.
  split; [exact (importer_scale skeleton None ∅)|]. split; [reflexivity|].
  exact (set_parent_arma_no_reference skin_to_bone plain None body_obj head
           None (importer_scale skeleton None ∅) eq_refl).
Defined.

Lemma set_parent_arma_bones_witness :
  ~ (scale extender == 0)%Q
  /\ reference_skel extender = Some skeleton
  /\ (forall bn, bn ∈ bone_names head ->
        has_bone (blender_name extender bn)
          (set_parent_arma skin_to_bone extender (Some fitting_rig) body_obj
             head None).1.1 = true)
  /\ (exists new,
        map rest_of
          (bones (set_parent_arma skin_to_bone extender (Some fitting_rig)
                    body_obj head None).1.1)
        = map rest_of (bones (default make_armature (Some fitting_rig)))
          ++ map rest_of new
        /\ forall x, x ∈ map bone_name new ->
             (x ∉ map bone_name
                    (bones (default make_armature (Some fitting_rig))))
             /\ exists bn, bn ∈ bone_names head
                           /\ x = blender_name extender bn)
  /\ (NoDup (map bone_name
               (bones (default make_armature (Some fitting_rig)))) ->
      NoDup (map bone_name
               (bones (set_parent_arma skin_to_bone extender
                         (Some fitting_rig) body_obj head None).1.1))).
Proof.
  split; [exact (importer_scale skeleton (Some skeleton) ∅)|].
  split; [reflexivity|].
  exact (set_parent_arma_bones skin_to_bone extender (Some fitting_rig)
           body_obj head None skeleton
           (importer_scale skeleton (Some skeleton) ∅) eq_refl).
Defined.

Lemma set_parent_arma_transforms_witness :
  ~ (scale extender == 0)%Q
  /\ matrix_world
       (set_parent_arma skin_to_bone extender (Some fitting_rig) body_obj
          head (Some (Diag.translate 0 0 2))).1.2
     = inverted (matrix_world body_obj) @ Diag.translate 0 0 2
  /\ PYN_TRANSFORM
       (set_parent_arma skin_to_bone extender (Some fitting_rig) body_obj
          head (Some (Diag.translate 0 0 2))).1.1
     = Some (default (matrix_world body_obj)
               (Some fitting_rig ≫= PYN_TRANSFORM)).
Proof.
  split; [exact (importer_scale skeleton (Some skeleton) ∅)|].
  exact (set_parent_arma_transforms skin_to_bone extender (Some fitting_rig)
           body_obj head (Some (Diag.translate 0 0 2))
           (importer_scale skeleton (Some skeleton) ∅)).
Defined.

(** The shape [head] brings [Neck] to the rig that has [Spine], at its
    bind position in the shape, the reference skeleton having its bones
    elsewhere; without a reference skeleton it brings nothing. *)
Example sample_set_parent_arma :
  map rest_of
    (bones (set_parent_arma skin_to_bone extender (Some fitting_rig) body_obj
              head None).1.1)
  = [rest_of (bone "Spine" 8); rest_of (created "Neck" 13)]
  /\ bones (set_parent_arma skin_to_bone plain (Some fitting_rig) body_obj
              head None).1.1
     = [bone "Spine" 8].
Proof. split; vm_compute; reflexivity. Qed.

(** *** Placing and matching a shape *)

Lemma calc_obj_transform_raises_only_witness :
  calc_obj_transform extender boneless 1 = Raise TypeError
  /\ (TypeError = ValueError
      \/ (TypeError = TypeError
          /\ is_NiShape boneless = true
          /\ has_skin_instance boneless = true
          /\ has_global_to_skin boneless = false
          /\ get_used_bones boneless = [])).
Proof.
  assert (calc_obj_transform extender boneless 1 = Raise TypeError) as Hr
    by (vm_compute; reflexivity).
  split; [exact Hr|].
  exact (calc_obj_transform_raises_only extender boneless 1 TypeError Hr).
Defined.

(** A shape whose global-to-skin transform has no inverse is not
    placed. *)
Example sample_no_inverse :
  calc_obj_transform plain flattened 1 = Raise ValueError.
Proof. vm_compute. reflexivity. Qed.

Lemma calc_obj_transform_pose_offset_witness :
  is_NiShape lifted_torso = true
  /\ has_skin_instance lifted_torso = true
  /\ has_global_to_skin lifted_torso = false
  /\ (create_bones plain = false \/ reference_skel plain = None)
  /\ get_used_bones lifted_torso = "Spine" :: ["Neck"]
  /\ calc_obj_transform plain lifted_torso 1
     = if forallb
            (fun b' => MatNearEqual (pose_transform lifted_torso "Spine")
                         (pose_transform lifted_torso b') (1 # 2)) ["Neck"]
       then inv <- inverted_checked
                     (Identity4 @ pose_transform lifted_torso "Spine") ;;
            Ok (apply_scale_xf inv 1)
       else Ok (apply_scale_xf Identity4 1).
Proof.
  split; [reflexivity|]. split; [reflexivity|]. split; [reflexivity|].
  split; [right; reflexivity|]. split; [reflexivity|].
  exact (calc_obj_transform_pose_offset plain lifted_torso 1 "Spine" ["Neck"]
           eq_refl eq_refl eq_refl (or_intror eq_refl) eq_refl).
Defined.

(** The torso posed five up is placed five down; the torso whose bones
    are posed apart is left where it is. *)
Example sample_pose_offset :
  calc_obj_transform plain lifted_torso 1 = Ok (Diag.translate 0 0 (-5))
  /\ calc_obj_transform plain bent_torso 1 = Ok Diag.identity.
Proof. split; vm_compute; reflexivity. Qed.

Lemma find_compatible_arma_no_common_bone_witness :
  nodes_loaded matcher !! obj_name body_obj = Some body
  /\ Forall (fun b => has_bone (blender_name matcher b) neck_rig = false)
       (bone_names body)
  /\ find_compatible_arma matcher body_obj [neck_rig; fitting_rig]
     = Ok (Some neck_rig, None).
Proof.
  assert (nodes_loaded matcher !! obj_name body_obj = Some body) as Hl
    by (vm_compute; reflexivity).
  assert (Forall (fun b => has_bone (blender_name matcher b) neck_rig = false)
            (bone_names body)) as Hnone
    by (apply Forall_singleton; vm_compute; reflexivity).
  split; [exact Hl|]. split; [exact Hnone|].
  exact (find_compatible_arma_no_common_bone matcher body_obj body neck_rig
           [fitting_rig] Hl Hnone).
Defined.

(** *** Exporting bones *)

Lemma limb_ranked : ranked limb_rank limb.
Proof.
  intros b p Hb Hp. cbn in Hb.
  repeat (apply elem_of_cons in Hb as [->|Hb]);
    try (now apply elem_of_nil in Hb);
    cbn in Hp; try discriminate; injection Hp as <-;
    (split; [eexists; vm_compute; reflexivity | cbn; lia]).
Qed.

Lemma limb_rank_bound (b : Bone) :
  b ∈ bones limb -> limb_rank (bone_name b) < 3.
Proof.
  intros Hb. cbn in Hb.
  repeat (apply elem_of_cons in Hb as [->|Hb]);
    try (now apply elem_of_nil in Hb); cbn; lia.
Qed.

Lemma exporter_scale (hierarchy : bool) :
  ~ (ex_scale (exporter hierarchy) == 0)%Q.
Proof. intros E. vm_compute in E. discriminate E. Qed.

Lemma limb_invertible (hierarchy : bool) (b : Bone) :
  b ∈ bones limb ->
  invertible ((if export_pose (exporter hierarchy) then pose_matrix b
               else matrix_local b)
              @ (game_rotations (ex_game (exporter hierarchy))).2) = true.
Proof.
  intros Hb. cbn in Hb.
  repeat (apply elem_of_cons in Hb as [->|Hb]);
    try (now apply elem_of_nil in Hb); vm_compute; reflexivity.
Qed.

Lemma export_armature_parents_first_witness :
  ranked limb_rank limb
  /\ preserve_hierarchy (exporter true) = true
  /\ ~ (ex_scale (exporter true) == 0)%Q
  /\ NoDup (map bone_name (bones limb))
  /\ (forall b, b ∈ bones limb ->
        invertible ((if export_pose (exporter true) then pose_matrix b
                     else matrix_local b)
                    @ (game_rotations (ex_game (exporter true))).2) = true)
  /\ (forall b, b ∈ bones limb -> limb_rank (bone_name b) < 3)
  /\ exists st',
       export_armature 3 (exporter true)
         {| writtenbones := ∅; written := [] |} limb
       = Some (Ok st')
       /\ parents_first st'
       /\ length (written st') = length (bones limb)
       /\ forall b, b ∈ bones limb ->
            exists e, e ∈ written st'
                      /\ wb_kind e = PlainNode
                      /\ wb_name e = ex_nif_name (exporter true) (bone_name b)
                      /\ wb_parent e
                         = ex_nif_name (exporter true) <$> bone_parent b.
Proof.
  assert (NoDup (map bone_name (bones limb))) as Hnd
    by decide_by_evaluation.
  split; [exact limb_ranked|]. split; [reflexivity|].
  split; [exact (exporter_scale true)|]. split; [exact Hnd|].
  split; [exact (limb_invertible true)|].
  split; [exact limb_rank_bound|].
  exact (export_armature_parents_first (exporter true) limb limb_rank 3
           limb_ranked eq_refl (exporter_scale true) Hnd
           (limb_invertible true) limb_rank_bound).
Defined.

Lemma export_armature_quiet_witness :
  ranked limb_rank limb
  /\ preserve_hierarchy (exporter false) = false
  /\ ~ (ex_scale (exporter false) == 0)%Q
  /\ (forall b, b ∈ bones limb -> limb_rank (bone_name b) < 3)
  /\ exists st',
       export_armature 3 (exporter false) nothing_written limb = Some (Ok st')
       /\ written st' = written nothing_written.
Proof.
  split; [exact limb_ranked|]. split; [reflexivity|].
  split; [exact (exporter_scale false)|]. split; [exact limb_rank_bound|].
  exact (export_armature_quiet (exporter false) limb limb_rank 3
           nothing_written limb_ranked eq_refl (exporter_scale false)
           limb_rank_bound).
Defined.

Lemma write_skin_bones_flat_witness :
  ranked limb_rank limb
  /\ preserve_hierarchy (exporter false) = false
  /\ ~ (ex_scale (exporter false) == 0)%Q
  /\ NoDup ["Hand"; "Forearm"]
  /\ (forall k, k ∈ ["Hand"; "Forearm"] -> has_bone k limb = true)
  /\ (forall b, b ∈ bones limb -> limb_rank (bone_name b) < 3)
  /\ exists st' order new,
       write_skin_bones 3 (exporter false)
         {| writtenbones := ∅; written := [] |} limb
         ["Hand"; "Forearm"] ["Hand"; "Forearm"]
       = Some (Ok st')
       /\ written st' = [] ++ new
       /\ order ≡ₚ ["Hand"; "Forearm"]
       /\ Forall2 (skin_bone_for (exporter false) limb) order new
       /\ (forall k, is_Some (writtenbones st' !! k)
                     <-> k ∈ ["Hand"; "Forearm"]).
Proof.
  assert (NoDup ["Hand"; "Forearm"]) as Hnd by decide_by_evaluation.
  assert (forall k, k ∈ ["Hand"; "Forearm"] -> has_bone k limb = true)
    as Hhas.
  { intros k Hk.
    repeat (apply elem_of_cons in Hk as [->|Hk]);
      try (now apply elem_of_nil in Hk); reflexivity. }
  split; [exact limb_ranked|]. split; [reflexivity|].
  split; [exact (exporter_scale false)|]. split; [exact Hnd|].
  split; [exact Hhas|]. split; [exact limb_rank_bound|].
  exact (write_skin_bones_flat (exporter false) limb limb_rank 3
           ["Hand"; "Forearm"] [] limb_ranked eq_refl (exporter_scale false)
           Hnd Hhas limb_rank_bound).
Defined.

Lemma skin_to_bone_xform_bind_witness :
  ~ (ex_scale (exporter false) == 0)%Q
  /\ skin_to_bone_xform (exporter false) body_obj limb "Hand"
     = (b <- subscript (lookup_bone "Hand" (bones limb)) ;;
        world_inv <- inverted_checked (matrix_world body_obj) ;;
        xfinv <- inverted_checked
                   (world_inv
                    @ (matrix_local b
                       @ (game_rotations (ex_game (exporter false))).2)) ;;
        Ok (pack_xf_to_buf xfinv (ex_scale (exporter false)))).
Proof.
  split; [exact (exporter_scale false)|].
  exact (skin_to_bone_xform_bind (exporter false) body_obj limb "Hand"
           (exporter_scale false)).
Defined.

(** The bones of a skin are written parents first: [Forearm] comes
    before [Hand], which is listed first. *)
Example sample_write_skin_bones :
  match write_skin_bones 3 (exporter false) nothing_written limb
          ["Hand"; "Forearm"] ["Hand"; "Forearm"] with
  | Some (Ok st) =>
      map (fun e => (wb_kind e, wb_name e, wb_parent e)) (written st)
  | _ => []
  end
  = [(SkinBone, "Forearm", None); (SkinBone, "Hand", None)].
Proof. vm_compute. reflexivity. Qed.

(** The nodes of the limb are written from the top of the chain down,
    though the rig lists them from the bottom up. *)
Example sample_export_limb :
  match export_armature 3 (exporter true) nothing_written limb with
  | Some (Ok st) => map (fun e => (wb_name e, wb_parent e)) (written st)
  | _ => []
  end
  = [("Upperarm", None); ("Forearm", Some "Upperarm");
     ("Hand", Some "Forearm")].
Proof. vm_compute. reflexivity. Qed.

(** *** Trimming weights *)

Lemma trim_to_four_heaviest_witness :
  NoDup hand_weights.*1
  /\ exists kept : list (string * Q),
       length kept
       = min 4 (length (filter (fun p => has_bone p.1 fingers = true)
                          hand_weights))
       /\ (forall p, p ∈ kept ->
                     p ∈ hand_weights /\ has_bone p.1 fingers = true)
       /\ (forall p q, p ∈ kept -> q ∈ hand_weights ->
                       has_bone q.1 fingers = true ->
                       q ∉ kept -> (q.2 <= p.2)%Q)
       /\ (forall g w, trim_to_four hand_weights (Some fingers) !! g = Some w
                       <-> (g, w) ∈ kept
                           \/ ((g, w) ∈ hand_weights
                               /\ has_bone g fingers <> true)).
Proof.
  assert (NoDup hand_weights.*1) as Hnd by decide_by_evaluation.
  split; [exact Hnd|].
  exact (trim_to_four_heaviest hand_weights fingers Hnd).
Defined.

(** The lightest of the five weights on fingers is dropped, the weight
    on the group that is no bone is kept. *)
Example sample_trim_to_four :
  trim_to_four hand_weights (Some fingers)
  = list_to_map
      [("Index", 3 # 10); ("Little", 3 # 10); ("Middle", 2 # 10);
       ("Thumb", 1 # 10); ("Seam", 1)]%Q.
Proof. vm_compute. reflexivity. Qed.

End MoreSamples.
